(** * Background2D: mesh-based 2D background estimation

    A shallow embedding of [photutils/background/background_2d.py] and the
    properties of its mesh grid, mesh selection and output surfaces.

    Conventions of the embedding:
    - a 2D numpy array is a list of rows ([list (list T)]); its shape is
      [(length a, ncols a)];
    - a masked array is a pair of a data array and a boolean mask array of
      the same shape ([True] = masked);
    - array indices, shapes and pixel counts are [nat];
    - [exclude_percentile] and the pixel threshold derived from it are
      IEEE-754 binary64 numbers ([spec_float] with [prec = 53] and
      [emax = 1024]), the arithmetic Python performs on them;
    - pixel values are an abstract type [V] with the handful of numpy
      operations the class applies to them ([Numeric]);
    - a Python exception is the [Err] case of [result]. *)

From Stdlib Require Import ZArith Lia SpecFloat String.
From stdpp Require Import base decidable option list sorting gmap.

Local Open Scope nat_scope.

(** ** Binary64 arithmetic *)

Module F64.

Definition prec : Z := 53.
Definition emax : Z := 1024.

Definition float64 : Type := spec_float.

(** Conversion of an integer to binary64 (round to nearest even), as numpy
    and Python do when an integer meets a float. *)
Definition of_Z (z : Z) : float64 := binary_normalize prec emax z 0 false.
Definition of_nat (n : nat) : float64 := of_Z (Z.of_nat n).

Definition div (x y : float64) : float64 := SFdiv prec emax x y.
Definition mul (x y : float64) : float64 := SFmul prec emax x y.
Definition leb (x y : float64) : bool := SFleb x y.
Definition ltb (x y : float64) : bool := SFltb x y.

(** The float [1.0]. *)
Definition one : float64 := S754_finite false 4503599627370496 (-52).

(** Finite binary64 numbers in normal form: a 53-bit mantissa and an
    exponent in range. *)
Definition normal (x : float64) : Prop :=
  match x with
  | S754_finite _ m e =>
      Zpos (digits2_pos m) = prec ∧ (-1074 ≤ e ≤ 971)%Z
  | _ => False
  end.

End F64.

Abbreviation float64 := F64.float64.

(** ** Exceptions and results *)

(** The messages of the [ValueError]s the class raises. *)
Inductive message : Type :=
  | Msg_mask_shape            (* 'mask and data must have the same shape' *)
  | Msg_coverage_mask_shape   (* 'coverage_mask and data must have the same shape' *)
  | Msg_exclude_percentile    (* 'exclude_percentile must be between 0 and 100 (inclusive).' *)
  | Msg_edge_method           (* 'edge_method must be "pad" or "crop"' *)
  | Msg_all_meshes (threshold_npixels exclude_percentile : float64)
      (* 'All meshes contain > {0} ({1} percent per mesh) masked pixels. ...' *)
  | Msg_mesh_idx_shape        (* 'data and mesh_idx must have the same shape' *)
  | Msg_unravel_index.        (* numpy: 'index ... is out of bounds for array with size ...' *)

Inductive error : Type :=
  | ValueError (msg : message)
  | IndexError.               (* numpy: index out of bounds, boolean index mismatch *)

(** The names the specification gives to the failures. *)
Definition ShapeMismatch_mask : error := ValueError Msg_mask_shape.
Definition ShapeMismatch_coverage_mask : error := ValueError Msg_coverage_mask_shape.
Definition OutOfRange : error := ValueError Msg_exclude_percentile.
Definition InvalidEdgePolicy : error := ValueError Msg_edge_method.
Definition AllMeshesExcluded (threshold_npixels exclude_percentile : float64) : error :=
  ValueError (Msg_all_meshes threshold_npixels exclude_percentile).

Inductive result (A : Type) : Type :=
  | Ok (a : A)
  | Err (e : error).
Arguments Ok {A} a.
Arguments Err {A} e.

#[export] Instance result_ret : MRet result := λ A a, Ok a.
#[export] Instance result_bind : MBind result := λ A B f m,
  match m with
  | Ok a => f a
  | Err e => Err e
  end.

(** ** Arrays *)

(** The values [g r c] for [r] in [range(ny)] and [c] in [range(nx)], in
    raster order: entry [r * nx + c] is [g r c]. *)
Definition grid {A : Type} (ny nx : nat) (g : nat → nat → A) : list A :=
  flat_map (λ r, g r <$> seq 0 nx) (seq 0 ny).

Section Arrays.
Context {T : Type}.

Definition ncols (a : list (list T)) : nat :=
  match a with
  | [] => 0
  | r :: _ => length r
  end.

(** [a.shape] *)
Definition shape (a : list (list T)) : nat * nat := (length a, ncols a).

(** A well-formed 2D array of [h] rows and [w] columns. *)
Definition rect (h w : nat) (a : list (list T)) : Prop :=
  length a = h ∧ Forall (λ r, length r = w) a.

(** [a[i, j]] *)
Definition pixel (a : list (list T)) (i j : nat) : option T :=
  a !! i ≫= λ r, r !! j.

(** [np.full((h, w), c)] *)
Definition full (h w : nat) (c : T) : list (list T) :=
  replicate h (replicate w c).

(** [np.pad(a, ((0, ypad), (0, xpad)), mode='constant', constant_values=[c])] *)
Definition np_pad (c : T) (ypad xpad : nat) (a : list (list T)) : list (list T) :=
  ((λ r, r ++ replicate xpad c) <$> a)
    ++ replicate ypad (replicate (ncols a + xpad) c).

(** [a[y:, :] = c] *)
Definition assign_rows_from (y : nat) (c : T) (a : list (list T)) : list (list T) :=
  take y a ++ ((λ r, replicate (length r) c) <$> drop y a).

(** [a[:, x:] = c] *)
Definition assign_cols_from (x : nat) (c : T) (a : list (list T)) : list (list T) :=
  (λ r, take x r ++ replicate (length r - x) c) <$> a.

(** [a[0:ny, 0:nx]] *)
Definition crop (ny nx : nat) (a : list (list T)) : list (list T) :=
  take nx <$> take ny a.

(** The pixels of the mesh in row [r] and column [c] of the mesh grid,
    flattened row by row: row [r * nxboxes + c] of
    [a.reshape(nyboxes, bh, nxboxes, bw).swapaxes(1, 2)
      .reshape(nyboxes * nxboxes, bh * bw)]. *)
Definition mesh_row (bh bw r c : nat) (a : list (list T)) : list T :=
  concat ((λ row, take bw (drop (c * bw) row)) <$> take bh (drop (r * bh) a)).

Definition mesh_table (nyboxes bh nxboxes bw : nat) (a : list (list T))
  : list (list T) :=
  grid nyboxes nxboxes (λ r c, mesh_row bh bw r c a).

(** [a[idx]] with an integer index array; numpy raises [IndexError] on an
    index that is out of bounds. *)
Definition fancy_index {A : Type} (a : list A) (idx : list nat) : result (list A) :=
  match mapM (λ i, a !! i) idx with
  | Some l => Ok l
  | None => Err IndexError
  end.

(** [l.reshape(ny, nx)] of a 1D array *)
Definition reshape_2d (ny nx : nat) (l : list T) : list (list T) :=
  (λ r, take nx (drop (r * nx) l)) <$> seq 0 ny.

End Arrays.

(** [np.logical_or(a, b)] *)
Definition logical_or (a b : list (list bool)) : list (list bool) :=
  zip_with (zip_with orb) a b.

(** [np.where(c)[0]] of a 1D boolean array: the indices of its true entries,
    in increasing order. *)
Definition np_where (c : list bool) : list nat :=
  filter (λ i, c !! i = Some true) (seq 0 (length c)).

(** [np.ma.count_masked(row)] *)
Definition count_masked (row : list bool) : nat :=
  length (filter (λ b, b = true) row).

(** A scalar-or-pair argument ([box_size], [filter_size]) after
    [np.atleast_1d] and [np.repeat(_, 2)]. *)
Inductive size_arg : Type :=
  | Scalar (n : nat)
  | Pair (ny nx : nat).

Definition as_pair (s : size_arg) : nat * nat :=
  match s with
  | Scalar n => (n, n)
  | Pair ny nx => (ny, nx)
  end.

(** ** Pixel values *)

(** The operations the class applies to pixel and mesh values.  They are
    floating-point operations of numpy and scipy; the development is
    parametric in them. *)
Class Numeric (V : Type) : Type := {
  zero : V;                       (* the entries of [np.zeros] *)
  pad_constant : V;               (* [1.e10], the constant of [np.pad] *)
  gt : V → V → bool;              (* [a > b] *)
  median : list V → V;            (* [np.median] *)
  nanmedian : list V → V;         (* [np.nanmedian] *)
  idw_weight : float64 → float64 → Z → V;
    (* [1 / (dist ** power + reg)] from [power], [reg] and the squared
       distance *)
  idw_average : list (V * V) → V  (* [sum(w * v) / sum(w)] over (w, v) *)
}.

(** The identity of a Python object. *)
Abbreviation loc := positive.

(** ** The Background2D class *)

Section Background2D.
Context {V : Type} `{Numeric V}.

(** [np.ma.MaskedArray]: the data and the mask ([true] = masked). *)
Record masked_array : Type := MaskedArray {
  ma_data : list (list V);
  ma_mask : list (list bool)
}.

(** An [astropy.stats.SigmaClip] object called with [axis=1]: from the
    values and the mask of a row, the mask of the clipped row. *)
Definition SigmaClip : Type := list V → list bool → list bool.

(** A background (RMS) estimator object called with [axis=1].  Its
    [sigma_clip] attribute is mutable; what a call returns for a row
    depends on the attribute's value at the time of the call. *)
Record estimator : Type := Estimator {
  sigma_clip_attr : option SigmaClip;
  estimate : option SigmaClip → list V → list bool → V
}.

(** [est(data, axis=1)] *)
Definition call_estimator (est : estimator) (data : masked_array) : list V :=
  zip_with (estimate est (sigma_clip_attr est)) (ma_data data) (ma_mask data).

(** [est.sigma_clip = None] *)
Definition clear_sigma_clip (est : estimator) : estimator :=
  {| sigma_clip_attr := None; estimate := estimate est |}.

(** [sigma_clip(data, axis=1)] *)
Definition call_sigma_clip (sc : SigmaClip) (data : masked_array) : masked_array :=
  {| ma_data := ma_data data;
     ma_mask := zip_with sc (ma_data data) (ma_mask data) |}.

(** [data[idx]] and [data[idx, :]] on a masked array *)
Definition ma_index (data : masked_array) (idx : list nat) : result masked_array :=
  d ← fancy_index (ma_data data) idx;
  m ← fancy_index (ma_mask data) idx;
  Ok {| ma_data := d; ma_mask := m |}.

(** [np.ma.masked_array(data, mask=False)] *)
Definition no_mask (data : list (list V)) : list (list bool) :=
  (λ r, replicate (length r) false) <$> data.

(** *** [_combine_masks] *)
Definition _combine_masks (_mask coverage_mask : option (list (list bool)))
  : option (list (list bool)) :=
  match _mask, coverage_mask with
  | None, None => None
  | None, Some c => Some c
  | Some m, None => Some m
  | Some m, Some c => Some (logical_or m c)
  end.

(** *** [_pad_data] *)
Definition _pad_data (data : list (list V)) (mask : option (list (list bool)))
    (box_size : nat * nat) (yextra xextra : nat) : masked_array :=
  let ypad := if decide (0 < yextra) then box_size.1 - yextra else 0 in
  let xpad := if decide (0 < xextra) then box_size.2 - xextra else 0 in
  let data' := np_pad pad_constant ypad xpad data in
  (* mask the padded regions *)
  let yidx := length data' - ypad in
  let xidx := ncols data' - xpad in
  let pad_mask :=
    assign_cols_from xidx true
      (assign_rows_from yidx true (full (length data') (ncols data') false)) in
  (* pad the input mask separately *)
  let mask' :=
    match mask with
    | Some m => logical_or (np_pad true ypad xpad m) pad_mask
    | None => pad_mask
    end in
  {| ma_data := data'; ma_mask := mask' |}.

(** *** [_crop_data] *)
Definition _crop_data (data : list (list V)) (mask : option (list (list bool)))
    (box_size : nat * nat) (nyboxes nxboxes : nat) : masked_array :=
  let ny_crop := nyboxes * box_size.1 in
  let nx_crop := nxboxes * box_size.2 in
  let data' := crop ny_crop nx_crop data in
  let mask' :=
    match mask with
    | Some m => crop ny_crop nx_crop m
    | None => no_mask data'
    end in
  {| ma_data := data'; ma_mask := mask' |}.

(** *** [_select_meshes] *)

(** [exclude_percentile / 100. * box_npixels] *)
Definition threshold_npixels (exclude_percentile : float64) (box_npixels : nat)
  : float64 :=
  F64.mul (F64.div exclude_percentile (F64.of_Z 100)) (F64.of_nat box_npixels).

(** [(nmasked <= threshold_npixels) & (nmasked != box_npixels)] *)
Definition good_mesh (exclude_percentile : float64) (box_npixels nmasked : nat)
  : bool :=
  F64.leb (F64.of_nat nmasked) (threshold_npixels exclude_percentile box_npixels)
  && negb (nmasked =? box_npixels).

Definition _select_meshes (exclude_percentile : float64) (box_npixels : nat)
    (data : masked_array) : result (list nat) :=
  (* the number of masked pixels in each mesh *)
  let nmasked := count_masked <$> ma_mask data in
  let mesh_idx := np_where (good_mesh exclude_percentile box_npixels <$> nmasked) in
  if decide (length mesh_idx = 0)
  then Err (AllMeshesExcluded (threshold_npixels exclude_percentile box_npixels)
                              exclude_percentile)
  else Ok mesh_idx.

(** *** [_prepare_data] *)

(** The attributes [_prepare_data] sets. *)
Record prepared : Type := Prepared {
  p_resized : masked_array;      (* [data_ma] *)
  p_nyboxes : nat;
  p_nxboxes : nat;
  p_nboxes : nat;
  p_mesh_idx : list nat;         (* the first cut on rejecting meshes *)
  p_mesh_data : masked_array     (* [_mesh_data] *)
}.

(** The pad-or-crop step of [_prepare_data]: [data_ma] and the mesh grid
    dimensions. *)
Definition pad_or_crop (data : list (list V)) (mask : option (list (list bool)))
    (box_size : nat * nat) (edge_method : string)
  : result (masked_array * nat * nat) :=
  let nyboxes := length data / box_size.1 in
  let nxboxes := ncols data / box_size.2 in
  let yextra := length data mod box_size.1 in
  let xextra := ncols data mod box_size.2 in
  if decide (xextra + yextra = 0) then
    (* no resizing of the data is necessary *)
    let mask' := match mask with Some m => m | None => no_mask data end in
    Ok ({| ma_data := data; ma_mask := mask' |}, nyboxes, nxboxes)
  else if decide (edge_method = "pad"%string) then
    let data_ma := _pad_data data mask box_size yextra xextra in
    Ok (data_ma, length (ma_data data_ma) / box_size.1,
                 ncols (ma_data data_ma) / box_size.2)
  else if decide (edge_method = "crop"%string) then
    Ok (_crop_data data mask box_size nyboxes nxboxes, nyboxes, nxboxes)
  else Err InvalidEdgePolicy.

Definition _prepare_data (data : list (list V)) (mask : option (list (list bool)))
    (box_size : nat * nat) (edge_method : string) (exclude_percentile : float64)
  : result prepared :=
  '(data_ma, nyboxes, nxboxes) ← pad_or_crop data mask box_size edge_method;
  let nboxes := nxboxes * nyboxes in
  let box_npixels := box_size.1 * box_size.2 in
  (* a reshaped 2D masked array with mesh data along the x axis *)
  let mesh_data :=
    {| ma_data := mesh_table nyboxes box_size.1 nxboxes box_size.2 (ma_data data_ma);
       ma_mask := mesh_table nyboxes box_size.1 nxboxes box_size.2 (ma_mask data_ma) |} in
  (* first cut on rejecting meshes *)
  mesh_idx ← _select_meshes exclude_percentile box_npixels mesh_data;
  _mesh_data ← ma_index mesh_data mesh_idx;
  Ok {| p_resized := data_ma; p_nyboxes := nyboxes; p_nxboxes := nxboxes;
        p_nboxes := nboxes; p_mesh_idx := mesh_idx; p_mesh_data := _mesh_data |}.

(** *** [_make_2d_array] *)

(** [a[y, x] = v] *)
Definition set_pixel {T : Type} (y x : nat) (v : T) (a : list (list T))
  : list (list T) :=
  alter (λ r, <[x := v]> r) y a.

(** [a[yidx, xidx] = values] with index arrays *)
Definition scatter_step {T : Type} (acc : list (list T)) (t : nat * nat * T)
  : list (list T) :=
  let '(y, x, v) := t in set_pixel y x v acc.

Definition scatter {T : Type} (yidx xidx : list nat) (values : list T)
    (a : list (list T)) : list (list T) :=
  foldl scatter_step a (zip (zip yidx xidx) values).

(** [np.unravel_index(idx, (ny, nx))] *)
Definition unravel_index (idx : list nat) (ny nx : nat)
  : result (list nat * list nat) :=
  if decide (Forall (λ i, i < ny * nx) idx)
  then Ok ((λ i, i / nx) <$> idx, (λ i, i mod nx) <$> idx)
  else Err (ValueError Msg_unravel_index).

(** The 2D mesh array of a 1D array of mesh values, and its mask when
    meshes were excluded ([None]: a plain array is returned). *)
Definition _make_2d_array (mesh_idx mesh_yidx mesh_xidx : list nat)
    (nyboxes nxboxes nboxes : nat) (data : list V)
  : result (list (list V) * option (list (list bool))) :=
  if decide (length data ≠ length mesh_idx) then
    Err (ValueError Msg_mesh_idx_shape)
  else
    let data2d := scatter mesh_yidx mesh_xidx data (full nyboxes nxboxes zero) in
    if decide (length mesh_idx = nboxes) then
      (* no meshes were masked *)
      Ok (data2d, None)
    else
      (* some meshes were masked *)
      let mask2d :=
        scatter mesh_yidx mesh_xidx (replicate (length mesh_idx) false)
                (full nyboxes nxboxes true) in
      Ok (data2d, Some mask2d).

(** *** [_interpolate_meshes] *)

(** The squared Euclidean distance of two mesh coordinates. *)
Definition dist2 (a b : nat * nat) : Z :=
  ((Z.of_nat a.1 - Z.of_nat b.1) ^ 2 + (Z.of_nat a.2 - Z.of_nat b.2) ^ 2)%Z.

Definition nearer (target : nat * nat) : relation ((nat * nat) * V) :=
  λ a b, (dist2 target a.1 ≤ dist2 target b.1)%Z.

#[export] Instance nearer_dec (target : nat * nat) : RelDecision (nearer target) :=
  λ a b, decide (dist2 target a.1 ≤ dist2 target b.1)%Z.

(** Modelled from the spec: [ShepardIDWInterpolator] (photutils.utils) is
    not among the sources.  For a target coordinate, the values of its
    [n_neighbors] nearest known coordinates are averaged, each weighted by
    [1 / (distance ** power + reg)]; where the target coincides with a
    known coordinate, that coordinate's value is returned exactly. *)
Definition ShepardIDWInterpolator (coordinates : list (nat * nat))
    (values : list V) (n_neighbors : nat) (power reg : float64)
    (target : nat * nat) : V :=
  let known := zip coordinates values in
  let nearest := take n_neighbors (merge_sort (nearer target) known) in
  match nearest with
  | (c, v) :: _ =>
      if decide (dist2 target c = 0%Z) then v
      else idw_average ((λ cv, (idw_weight power reg (dist2 target cv.1), cv.2))
                          <$> nearest)
  | [] => idw_average []
  end.

(** [itertools.product(range(ny), range(nx))] *)
Definition product_range (ny nx : nat) : list (nat * nat) :=
  grid ny nx pair.

Definition _interpolate_meshes (mesh_yidx mesh_xidx : list nat)
    (nyboxes nxboxes : nat) (data : list V)
    (n_neighbors : nat) (power reg : float64) : list (list V) :=
  let yx := zip mesh_yidx mesh_xidx in
  let coords := product_range nyboxes nxboxes in
  let img1d := ShepardIDWInterpolator yx data n_neighbors power reg <$> coords in
  reshape_2d nyboxes nxboxes img1d.

(** The defaults of [_interpolate_meshes]: [n_neighbors=10], [power=1.0],
    [reg=0.0]. *)
Definition default_n_neighbors : nat := 10.
Definition default_power : float64 := F64.one.
Definition default_reg : float64 := S754_zero false.

(** *** [_selective_filter] and [_filter_meshes] *)

(** [data[yidx0:yidx1, xidx0:xidx1]] around the pixel [(i, j)], flattened:
    the part of the filter window that lies inside the array. *)
Definition window (filter_size : nat * nat) (data : list (list V)) (i j : nat)
  : list V :=
  let '(yfs, xfs) := filter_size in
  let hyfs := yfs / 2 in
  let hxfs := xfs / 2 in
  let yidx0 := i - hyfs in                       (* max(i - hyfs, 0) *)
  let yidx1 := (i + yfs - hyfs) `min` length data in
  let xidx0 := j - hxfs in                       (* max(j - hxfs, 0) *)
  let xidx1 := (j + xfs - hxfs) `min` ncols data in
  concat ((λ row, take (xidx1 - xidx0) (drop xidx0 row))
            <$> take (yidx1 - yidx0) (drop yidx0 data)).

Definition _selective_filter (filter_size : nat * nat) (data : list (list V))
    (indices : list (nat * nat)) : list (list V) :=
  foldl (λ data_out '(i, j), set_pixel i j (median (window filter_size data i j)) data_out)
        data indices.

(** [scipy.ndimage.generic_filter(data, np.nanmedian, size=filter_size,
    mode='constant', cval=np.nan)]: the pixels of the window outside the
    array are NaN, which [nanmedian] ignores. *)
Definition generic_filter_nanmedian (filter_size : nat * nat)
    (data : list (list V)) : list (list V) :=
  imap (λ i row, imap (λ j _, nanmedian (window filter_size data i j)) row) data.

(** [np.nonzero(mesh > threshold)], as (y, x) pairs *)
Definition nonzero_gt (mesh : list (list V)) (threshold : V) : list (nat * nat) :=
  concat (imap (λ i row, (λ j, (i, j)) <$> np_where ((λ v, gt v threshold) <$> row))
               mesh).

Definition _filter_meshes (filter_size : nat * nat) (filter_threshold : option V)
    (background_mesh background_rms_mesh : list (list V))
  : list (list V) * list (list V) :=
  match filter_threshold with
  | None =>
      (* filter the entire arrays *)
      (generic_filter_nanmedian filter_size background_mesh,
       generic_filter_nanmedian filter_size background_rms_mesh)
  | Some threshold =>
      (* selectively filter *)
      let indices := nonzero_gt background_mesh threshold in
      (_selective_filter filter_size background_mesh indices,
       _selective_filter filter_size background_rms_mesh indices)
  end.

(** *** [__init__] *)

(** The arguments of [Background2D(data, box_size, ...)], except the
    interpolator. *)
Record request : Type := Request {
  arg_data : list (list V);
  arg_box_size : size_arg;
  arg_mask : option (list (list bool));
  arg_coverage_mask : option (list (list bool));
  arg_fill_value : V;
  arg_exclude_percentile : float64;
  arg_filter_size : size_arg;
  arg_filter_threshold : option V;
  arg_edge_method : string;
  arg_sigma_clip : option SigmaClip;
  arg_bkg_estimator : estimator;
  arg_bkgrms_estimator : estimator
}.

(** The attributes that the assignments of [__init__] set. *)
Record attributes : Type := Attributes {
  box_size : nat * nat;
  box_npixels : nat;
  data : list (list V);
  _mask : option (list (list bool));
  coverage_mask : option (list (list bool));
  fill_value : V;
  mask : option (list (list bool));
  exclude_percentile : float64;
  filter_size : nat * nat;
  filter_threshold : option V;
  edge_method : string;
  sigma_clip : option SigmaClip;
  bkg_estimator : estimator;
  bkgrms_estimator : estimator
}.

(** The attributes that [_calc_bkg_bkgrms] sets. *)
Record meshes : Type := Meshes {
  mesh_idx : list nat;             (* indices for the output mesh *)
  _data_sigclip : masked_array;
  mesh_yidx : list nat;
  mesh_xidx : list nat;
  _bkg1d : list V;
  _bkgrms1d : list V;
  _background_mesh_unfiltered : list (list V);
  _background_rms_mesh_unfiltered : list (list V);
  background_mesh : list (list V);
  background_rms_mesh : list (list V)
}.

(** A constructed [Background2D] object. *)
Record Background2D : Type := Build_Background2D {
  self_attributes : attributes;
  self_prepared : prepared;
  self_meshes : meshes
}.

(** The checks of [__init__] that raise. *)
Definition shape_differs (m : option (list (list bool))) (data : list (list V))
  : bool :=
  match m with
  | Some m => bool_decide (shape m ≠ shape data)
  | None => false
  end.

Definition check_arguments (rq : request) : result () :=
  if shape_differs (arg_mask rq) (arg_data rq) then
    Err ShapeMismatch_mask
  else if shape_differs (arg_coverage_mask rq) (arg_data rq) then
    Err ShapeMismatch_coverage_mask
  else if F64.ltb (arg_exclude_percentile rq) (F64.of_Z 0)
          || F64.ltb (F64.of_Z 100) (arg_exclude_percentile rq) then
    Err OutOfRange
  else Ok ().

(** The attribute assignments of [__init__]; the [sigma_clip] attribute of
    both estimators is set to [None]. *)
Definition init_attributes (rq : request) : attributes :=
  let bs := as_pair (arg_box_size rq) in
  let box_size := (bs.1 `min` length (arg_data rq), bs.2 `min` ncols (arg_data rq)) in
  {| box_size := box_size;
     box_npixels := box_size.1 * box_size.2;
     data := arg_data rq;
     _mask := arg_mask rq;
     coverage_mask := arg_coverage_mask rq;
     fill_value := arg_fill_value rq;
     mask := _combine_masks (arg_mask rq) (arg_coverage_mask rq);
     exclude_percentile := arg_exclude_percentile rq;
     filter_size := as_pair (arg_filter_size rq);
     filter_threshold := arg_filter_threshold rq;
     edge_method := arg_edge_method rq;
     sigma_clip := arg_sigma_clip rq;
     bkg_estimator := clear_sigma_clip (arg_bkg_estimator rq);
     bkgrms_estimator := clear_sigma_clip (arg_bkgrms_estimator rq) |}.

(** *** [_calc_bkg_bkgrms] *)

(** [data_sigclip]: the mesh data, sigma clipped unless [sigma_clip] is
    [None]. *)
Definition sigma_clipped (sigma_clip : option SigmaClip) (_mesh_data : masked_array)
  : masked_array :=
  match sigma_clip with
  | Some sc => call_sigma_clip sc _mesh_data
  | None => _mesh_data
  end.

Definition _calc_bkg_bkgrms (self : attributes) (pr : prepared) : result meshes :=
  let data_sigclip := sigma_clipped (sigma_clip self) (p_mesh_data pr) in
  (* mesh rejection on sigma-clipped data (i.e., for any newly-masked pixels) *)
  idx ← _select_meshes (exclude_percentile self) (box_npixels self) data_sigclip;
  mesh_idx ← fancy_index (p_mesh_idx pr) idx;
  _data_sigclip ← ma_index data_sigclip idx;
  '(mesh_yidx, mesh_xidx) ← unravel_index mesh_idx (p_nyboxes pr) (p_nxboxes pr);
  let _bkg1d := call_estimator (bkg_estimator self) _data_sigclip in
  let _bkgrms1d := call_estimator (bkgrms_estimator self) _data_sigclip in
  (* make the unfiltered 2D mesh arrays *)
  '(bkg, bkgrms) ←
    (if decide (length _bkg1d = p_nboxes pr) then
       bkg ← _make_2d_array mesh_idx mesh_yidx mesh_xidx
                (p_nyboxes pr) (p_nxboxes pr) (p_nboxes pr) _bkg1d;
       bkgrms ← _make_2d_array mesh_idx mesh_yidx mesh_xidx
                (p_nyboxes pr) (p_nxboxes pr) (p_nboxes pr) _bkgrms1d;
       Ok (bkg.1, bkgrms.1)
     else
       Ok (_interpolate_meshes mesh_yidx mesh_xidx (p_nyboxes pr) (p_nxboxes pr)
             _bkg1d default_n_neighbors default_power default_reg,
           _interpolate_meshes mesh_yidx mesh_xidx (p_nyboxes pr) (p_nxboxes pr)
             _bkgrms1d default_n_neighbors default_power default_reg));
  (* filter the 2D mesh arrays *)
  let filtered :=
    if decide (filter_size self ≠ (1, 1))
    then _filter_meshes (filter_size self) (filter_threshold self) bkg bkgrms
    else (bkg, bkgrms) in
  Ok {| mesh_idx := mesh_idx;
        _data_sigclip := _data_sigclip;
        mesh_yidx := mesh_yidx;
        mesh_xidx := mesh_xidx;
        _bkg1d := _bkg1d;
        _bkgrms1d := _bkgrms1d;
        _background_mesh_unfiltered := bkg;
        _background_rms_mesh_unfiltered := bkgrms;
        background_mesh := filtered.1;
        background_rms_mesh := filtered.2 |}.

Definition __init__ (rq : request) : result Background2D :=
  _ ← check_arguments rq;
  let self := init_attributes rq in
  pr ← _prepare_data (data self) (mask self) (box_size self) (edge_method self)
         (exclude_percentile self);
  ms ← _calc_bkg_bkgrms self pr;
  Ok {| self_attributes := self; self_prepared := pr; self_meshes := ms |}.

(** *** Construction in a store of objects

    Python passes the arguments by reference.  The store maps the
    identities of the caller's objects to their state; the constructor call
    [Background2D(data, box_size, ...)] receives identities, and the
    assignments [bkg_estimator.sigma_clip = None] and
    [bkgrms_estimator.sigma_clip = None] write to the store. *)

Inductive pyobj : Type :=
  | ObjArray (a : list (list V))            (* a pixel array *)
  | ObjBoolArray (m : list (list bool))     (* a boolean mask array *)
  | ObjSigmaClip (sc : SigmaClip)           (* a [SigmaClip] object *)
  | ObjEstimator (e : estimator).           (* a background (RMS) estimator *)

(** The arguments of a constructor call: object identities, and values for
    the immutable arguments. *)
Record arguments : Type := MkArguments {
  ref_data : loc;
  val_box_size : size_arg;
  ref_mask : option loc;
  ref_coverage_mask : option loc;
  val_fill_value : V;
  val_exclude_percentile : float64;
  val_filter_size : size_arg;
  val_filter_threshold : option V;
  val_edge_method : string;
  ref_sigma_clip : option loc;
  ref_bkg_estimator : loc;
  ref_bkgrms_estimator : loc
}.

Definition load_array (σ : gmap loc pyobj) (l : loc) : option (list (list V)) :=
  match σ !! l with
  | Some (ObjArray a) => Some a
  | _ => None
  end.

Definition load_bool_array (σ : gmap loc pyobj) (l : loc) : option (list (list bool)) :=
  match σ !! l with
  | Some (ObjBoolArray m) => Some m
  | _ => None
  end.

Definition load_sigma_clip (σ : gmap loc pyobj) (l : loc) : option SigmaClip :=
  match σ !! l with
  | Some (ObjSigmaClip sc) => Some sc
  | _ => None
  end.

Definition load_estimator (σ : gmap loc pyobj) (l : loc) : option estimator :=
  match σ !! l with
  | Some (ObjEstimator e) => Some e
  | _ => None
  end.

(** An optional argument: [None], or the object at the identity. *)
Definition load_optional {A : Type} (load : loc → option A) (r : option loc)
  : option (option A) :=
  match r with
  | Some l => Some <$> load l
  | None => Some None
  end.

(** The request that the arguments denote in the store; [None] when an
    identity does not denote an object of the kind of its argument. *)
Definition load_request (σ : gmap loc pyobj) (args : arguments) : option request :=
  data ← load_array σ (ref_data args);
  mask ← load_optional (load_bool_array σ) (ref_mask args);
  coverage_mask ← load_optional (load_bool_array σ) (ref_coverage_mask args);
  sigma_clip ← load_optional (load_sigma_clip σ) (ref_sigma_clip args);
  bkg_estimator ← load_estimator σ (ref_bkg_estimator args);
  bkgrms_estimator ← load_estimator σ (ref_bkgrms_estimator args);
  Some {| arg_data := data;
          arg_box_size := val_box_size args;
          arg_mask := mask;
          arg_coverage_mask := coverage_mask;
          arg_fill_value := val_fill_value args;
          arg_exclude_percentile := val_exclude_percentile args;
          arg_filter_size := val_filter_size args;
          arg_filter_threshold := val_filter_threshold args;
          arg_edge_method := val_edge_method args;
          arg_sigma_clip := sigma_clip;
          arg_bkg_estimator := bkg_estimator;
          arg_bkgrms_estimator := bkgrms_estimator |}.

(** [obj.sigma_clip = None] on an object; only estimators are assigned to. *)
Definition clear_obj (o : pyobj) : pyobj :=
  match o with
  | ObjEstimator e => ObjEstimator (clear_sigma_clip e)
  | _ => o
  end.

(** [obj.sigma_clip = None] on the object at [l] *)
Definition store_sigma_clip_None (l : loc) (σ : gmap loc pyobj) : gmap loc pyobj :=
  alter clear_obj l σ.

(** The constructor call: the store after it, and the object or the
    exception.  The checks that raise come before the two assignments to
    the estimators; [_prepare_data] and [_calc_bkg_bkgrms] come after
    them. *)
Definition construct (σ : gmap loc pyobj) (args : arguments)
  : option (gmap loc pyobj * result Background2D) :=
  rq ← load_request σ args;
  match check_arguments rq with
  | Err e => Some (σ, Err e)
  | Ok _ =>
      let σ' := store_sigma_clip_None (ref_bkgrms_estimator args)
                  (store_sigma_clip_None (ref_bkg_estimator args) σ) in
      Some (σ', __init__ rq)
  end.

(** *** The [background] and [background_rms] properties *)

(** The [interpolator] argument of the constructor: a callable that
    receives a low-resolution mesh and the [Background2D] object.  The
    default, [BkgZoomInterpolator], is not among the sources. *)
Variable interpolator : list (list V) → Background2D → list (list V).

(** [a[m] = c] with a boolean index array [m]; numpy raises [IndexError]
    when the shape of [m] differs from that of [a]. *)
Definition assign_where (a : list (list V)) (m : list (list bool)) (c : V)
  : result (list (list V)) :=
  if decide (shape m = shape a)
  then Ok (zip_with (zip_with (λ v (b : bool), if b then c else v)) a m)
  else Err IndexError.

Definition fill_coverage (self : Background2D) (surface : list (list V))
  : result (list (list V)) :=
  match coverage_mask (self_attributes self) with
  | Some cm => assign_where surface cm (fill_value (self_attributes self))
  | None => Ok surface
  end.

Definition background (self : Background2D) : result (list (list V)) :=
  fill_coverage self (interpolator (background_mesh (self_meshes self)) self).

Definition background_rms (self : Background2D) : result (list (list V)) :=
  fill_coverage self (interpolator (background_rms_mesh (self_meshes self)) self).

End Background2D.

Arguments masked_array V : clear implicits.
Arguments SigmaClip V : clear implicits.
Arguments estimator V : clear implicits.
Arguments prepared V : clear implicits.
Arguments request V : clear implicits.
Arguments attributes V : clear implicits.
Arguments meshes V : clear implicits.
Arguments Background2D V : clear implicits.
Arguments pyobj V : clear implicits.
Arguments arguments V : clear implicits.

(** The store of the caller's objects. *)
Abbreviation store V := (gmap loc (pyobj V)).

(** ** Vocabulary of the statements *)

(** [ceil(a / b)] *)
Definition ceil_div (a b : nat) : nat := (a + b - 1) / b.

(** The value of an optional mask at a pixel; an absent mask masks nothing. *)
Definition mask_at (mask : option (list (list bool))) (i j : nat) : bool :=
  match mask with
  | Some m => default false (pixel m i j)
  | None => false
  end.

(** The optional mask is absent or has the shape [(h, w)]. *)
Definition mask_rect (h w : nat) (mask : option (list (list bool))) : Prop :=
  match mask with
  | Some m => rect h w m
  | None => True
  end.

(** The array is rectangular. *)
Definition well_shaped {T : Type} (a : list (list T)) : Prop :=
  rect (length a) (ncols a) a.

(** The rows of the mask table [tbl] that pass the inclusion test of
    [_select_meshes]: the mesh index before the emptiness check. *)
Definition good_meshes (exclude_percentile : float64) (box_npixels : nat)
    (tbl : list (list bool)) : list nat :=
  np_where (good_mesh exclude_percentile box_npixels <$> (count_masked <$> tbl)).

(** The mesh [i] is in the index that [_select_meshes] returns. *)
Definition selected {V : Type} (exclude_percentile : float64) (box_npixels : nat)
    (tbl : masked_array V) (i : nat) : Prop :=
  ∃ idx, _select_meshes exclude_percentile box_npixels tbl = Ok idx ∧ i ∈ idx.

(** [exclude_percentile] lies in [[0, 100]]. *)
Definition percentile_in_range (p : float64) : Prop :=
  F64.leb (F64.of_Z 0) p = true ∧ F64.leb p (F64.of_Z 100) = true.

(** The image shape is a multiple of the box size on both axes. *)
Definition aligned (h w : nat) (box_size : nat * nat) : Prop :=
  h mod box_size.1 = 0 ∧ w mod box_size.2 = 0.

(** The mesh grid dimensions that resizing an [h] by [w] image gives. *)
Definition grid_shape (h w : nat) (box_size : nat * nat) (edge_method : string)
  : nat * nat :=
  if decide (edge_method = "pad"%string)
  then (ceil_div h box_size.1, ceil_div w box_size.2)
  else (h / box_size.1, w / box_size.2).

Section Requests.
Context {V : Type} `{Numeric V}.

(** A request the constructor is meant for: an [h] by [w] image with at
    least one pixel, masks of the shape of the image, a positive box size
    and an [exclude_percentile] in [[0, 100]]. *)
Definition valid_request (h w : nat) (rq : request V) : Prop :=
  rect h w (arg_data rq) ∧ 0 < h ∧ 0 < w
  ∧ mask_rect h w (arg_mask rq) ∧ mask_rect h w (arg_coverage_mask rq)
  ∧ 0 < (as_pair (arg_box_size rq)).1 ∧ 0 < (as_pair (arg_box_size rq)).2
  ∧ percentile_in_range (arg_exclude_percentile rq).

(** The combined mask masks every pixel of the image. *)
Definition fully_masked (h w : nat) (rq : request V) : Prop :=
  ∀ i j, i < h → j < w →
    mask_at (_combine_masks (arg_mask rq) (arg_coverage_mask rq)) i j = true.

(** The edge method is one of the two the class knows. *)
Definition valid_edge_method (rq : request V) : Prop :=
  arg_edge_method rq = "pad"%string ∨ arg_edge_method rq = "crop"%string.

(** [_prepare_data] on the attributes of [self]. *)
Definition prepare (self : attributes V) : result (prepared V) :=
  _prepare_data (data self) (mask self) (box_size self) (edge_method self)
                (exclude_percentile self).

(** The mask table of the resized array: one row per mesh. *)
Definition mesh_mask_table (self : attributes V) (data_ma : masked_array V)
    (nyboxes nxboxes : nat) : list (list bool) :=
  mesh_table nyboxes (box_size self).1 nxboxes (box_size self).2 (ma_mask data_ma).

(** A sigma clipper that returns a mask of the length of the row. *)
Definition keeps_length (sc : option (SigmaClip V)) : Prop :=
  ∀ c vals m, sc = Some c → length vals = length m → length (c vals m) = length m.

End Requests.

(** The computation returned a value. *)
Definition is_Ok {A : Type} (r : result A) : bool :=
  match r with
  | Ok _ => true
  | Err _ => false
  end.

Section Requests_more.
Context {V : Type} `{Numeric V}.

(** The request with another [mask] argument. *)
Definition set_mask (rq : request V) (mask : option (list (list bool)))
  : request V :=
  {| arg_data := arg_data rq;
     arg_box_size := arg_box_size rq;
     arg_mask := mask;
     arg_coverage_mask := arg_coverage_mask rq;
     arg_fill_value := arg_fill_value rq;
     arg_exclude_percentile := arg_exclude_percentile rq;
     arg_filter_size := arg_filter_size rq;
     arg_filter_threshold := arg_filter_threshold rq;
     arg_edge_method := arg_edge_method rq;
     arg_sigma_clip := arg_sigma_clip rq;
     arg_bkg_estimator := arg_bkg_estimator rq;
     arg_bkgrms_estimator := arg_bkgrms_estimator rq |}.

(** The request with another [edge_method] argument. *)
Definition set_edge_method (rq : request V) (edge_method : string) : request V :=
  {| arg_data := arg_data rq;
     arg_box_size := arg_box_size rq;
     arg_mask := arg_mask rq;
     arg_coverage_mask := arg_coverage_mask rq;
     arg_fill_value := arg_fill_value rq;
     arg_exclude_percentile := arg_exclude_percentile rq;
     arg_filter_size := arg_filter_size rq;
     arg_filter_threshold := arg_filter_threshold rq;
     arg_edge_method := edge_method;
     arg_sigma_clip := arg_sigma_clip rq;
     arg_bkg_estimator := arg_bkg_estimator rq;
     arg_bkgrms_estimator := arg_bkgrms_estimator rq |}.

(** The mesh index of the constructed object, when the constructor
    returns one. *)
Definition final_mesh_index (rq : request V) : option (list nat) :=
  match __init__ rq with
  | Ok self => Some (mesh_idx (self_meshes self))
  | Err _ => None
  end.

(** The mesh index of the first pass, when it succeeds. *)
Definition first_mesh_index (rq : request V) : option (list nat) :=
  match prepare (init_attributes rq) with
  | Ok pr => Some (p_mesh_idx pr)
  | Err _ => None
  end.

End Requests_more.

(** Every pixel that [m1] masks, [m2] masks too. *)
Definition mask_subset (m1 m2 : option (list (list bool))) : Prop :=
  ∀ i j, mask_at m1 i j = true → mask_at m2 i j = true.

Section Surfaces.
Context {V : Type} `{Numeric V}.
Variable interpolator : list (list V) → Background2D V → list (list V).

(** Modelled from the spec: the default interpolator [BkgZoomInterpolator]
    is not among the sources.  The one property the specification requires
    of an interpolator: for a grid of a single mesh it returns the constant
    image, of the shape of the data, of that mesh's value.  It is stated
    for the calls on one object. *)
Definition constant_on_single_mesh (self : Background2D V) : Prop :=
  ∀ v : V,
    interpolator [[v]] self
    = full (length (data (self_attributes self)))
           (ncols (data (self_attributes self))) v.

(** The values of the two estimators and the two final surfaces of a
    request, when the constructor and both properties succeed. *)
Definition final_surfaces (rq : request V)
  : option (list V * list V * list (list V) * list (list V)) :=
  match __init__ rq with
  | Ok self =>
      match background interpolator self, background_rms interpolator self with
      | Ok bkg, Ok rms =>
          Some (_bkg1d (self_meshes self), _bkgrms1d (self_meshes self), bkg, rms)
      | _, _ => None
      end
  | Err _ => None
  end.

End Surfaces.

(** The medians of a single value are that value. *)
Definition median_laws (V : Type) `{Numeric V} : Prop :=
  ∀ v : V, median [v] = v ∧ nanmedian [v] = v.

Section Stores.
Context {V : Type} `{Numeric V}.


(** The store after the constructor call. *)
Definition store_after (σ : store V) (args : arguments V) : store V :=
  match construct σ args with
  | Some (σ', _) => σ'
  | None => σ
  end.

(** What the constructor call returned. *)
Definition call_result (σ : store V) (args : arguments V)
  : result (Background2D V) :=
  match construct σ args with
  | Some (_, r) => r
  | None => Err IndexError
  end.

(** Whether the arguments denote objects of the right kinds. *)
Definition well_typed_call (σ : store V) (args : arguments V) : bool :=
  match load_request σ args with
  | Some _ => true
  | None => false
  end.


End Stores.

(** ** The mesh properties of a constructed object *)

(** [_make_2d_array] on a 1D array of any dtype whose zero is [z]:
    [np.zeros(shape).astype(data.dtype)] takes the dtype of the data. *)
Definition _make_2d_array_of {T : Type} (z : T)
    (mesh_idx mesh_yidx mesh_xidx : list nat) (nyboxes nxboxes nboxes : nat)
    (data : list T) : result (list (list T) * option (list (list bool))) :=
  if decide (length data ≠ length mesh_idx) then
    Err (ValueError Msg_mesh_idx_shape)
  else
    let data2d := scatter mesh_yidx mesh_xidx data (full nyboxes nxboxes z) in
    if decide (length mesh_idx = nboxes) then
      Ok (data2d, None)
    else
      let mask2d :=
        scatter mesh_yidx mesh_xidx (replicate (length mesh_idx) false)
                (full nyboxes nxboxes true) in
      Ok (data2d, Some mask2d).

Section Properties.
Context {V : Type} `{Numeric V}.

(** [self._make_2d_array(data)] on a constructed object *)
Definition make_2d_array_on {T : Type} (z : T) (self : Background2D V)
    (data : list T) : result (list (list T) * option (list (list bool))) :=
  _make_2d_array_of z (mesh_idx (self_meshes self)) (mesh_yidx (self_meshes self))
    (mesh_xidx (self_meshes self)) (p_nyboxes (self_prepared self))
    (p_nxboxes (self_prepared self)) (p_nboxes (self_prepared self)) data.

(** The [mesh_nmasked] property: the number of masked pixels of each mesh
    that is used, as a 2D array that is masked when meshes were excluded. *)
Definition mesh_nmasked (self : Background2D V)
  : result (list (list nat) * option (list (list bool))) :=
  make_2d_array_on 0 self (count_masked <$> ma_mask (_data_sigclip (self_meshes self))).



(** The [background_median] and [background_rms_median] properties, for
    data without a unit: [np.median] of the flattened mesh. *)
Definition background_median (self : Background2D V) : V :=
  median (concat (background_mesh (self_meshes self))).

Definition background_rms_median (self : Background2D V) : V :=
  median (concat (background_rms_mesh (self_meshes self))).

(** The request with another [box_size] argument. *)
Definition set_box_size (rq : request V) (box_size : size_arg) : request V :=
  {| arg_data := arg_data rq;
     arg_box_size := box_size;
     arg_mask := arg_mask rq;
     arg_coverage_mask := arg_coverage_mask rq;
     arg_fill_value := arg_fill_value rq;
     arg_exclude_percentile := arg_exclude_percentile rq;
     arg_filter_size := arg_filter_size rq;
     arg_filter_threshold := arg_filter_threshold rq;
     arg_edge_method := arg_edge_method rq;
     arg_sigma_clip := arg_sigma_clip rq;
     arg_bkg_estimator := arg_bkg_estimator rq;
     arg_bkgrms_estimator := arg_bkgrms_estimator rq |}.

(** The request with other pixel values in [data]. *)
Definition set_data (rq : request V) (data : list (list V)) : request V :=
  {| arg_data := data;
     arg_box_size := arg_box_size rq;
     arg_mask := arg_mask rq;
     arg_coverage_mask := arg_coverage_mask rq;
     arg_fill_value := arg_fill_value rq;
     arg_exclude_percentile := arg_exclude_percentile rq;
     arg_filter_size := arg_filter_size rq;
     arg_filter_threshold := arg_filter_threshold rq;
     arg_edge_method := arg_edge_method rq;
     arg_sigma_clip := arg_sigma_clip rq;
     arg_bkg_estimator := arg_bkg_estimator rq;
     arg_bkgrms_estimator := arg_bkgrms_estimator rq |}.

(** The request with other [sigma_clip] attributes on the two estimators. *)
Definition set_estimator_clips (rq : request V) (c1 c2 : option (SigmaClip V))
  : request V :=
  {| arg_data := arg_data rq;
     arg_box_size := arg_box_size rq;
     arg_mask := arg_mask rq;
     arg_coverage_mask := arg_coverage_mask rq;
     arg_fill_value := arg_fill_value rq;
     arg_exclude_percentile := arg_exclude_percentile rq;
     arg_filter_size := arg_filter_size rq;
     arg_filter_threshold := arg_filter_threshold rq;
     arg_edge_method := arg_edge_method rq;
     arg_sigma_clip := arg_sigma_clip rq;
     arg_bkg_estimator :=
       {| sigma_clip_attr := c1; estimate := estimate (arg_bkg_estimator rq) |};
     arg_bkgrms_estimator :=
       {| sigma_clip_attr := c2; estimate := estimate (arg_bkgrms_estimator rq) |} |}.

(** The request with another [exclude_percentile] argument. *)
Definition set_exclude_percentile (rq : request V) (p : float64) : request V :=
  {| arg_data := arg_data rq;
     arg_box_size := arg_box_size rq;
     arg_mask := arg_mask rq;
     arg_coverage_mask := arg_coverage_mask rq;
     arg_fill_value := arg_fill_value rq;
     arg_exclude_percentile := p;
     arg_filter_size := arg_filter_size rq;
     arg_filter_threshold := arg_filter_threshold rq;
     arg_edge_method := arg_edge_method rq;
     arg_sigma_clip := arg_sigma_clip rq;
     arg_bkg_estimator := arg_bkg_estimator rq;
     arg_bkgrms_estimator := arg_bkgrms_estimator rq |}.

(** The mesh that holds the pixel [(i, j)] of the resized image, and the
    place of the pixel in the row of that mesh. *)
Definition mesh_of_pixel (bh bw nxboxes : nat) (i j : nat) : nat * nat :=
  (i / bh * nxboxes + j / bw, i mod bh * bw + j mod bw).

(** The pixel of the resized image at place [m] of the row of mesh [k]. *)
Definition pixel_of_mesh (bh bw nxboxes : nat) (k m : nat) : nat * nat :=
  (k / nxboxes * bh + m / bw, k mod nxboxes * bw + m mod bw).

End Properties.

(** ** Vocabulary of the further properties *)

(** The optional mask is given and its shape is not that of the image. *)
Definition wrong_shape {T : Type} (m : option (list (list bool)))
    (data : list (list T)) : Prop :=
  ∃ a, m = Some a ∧ shape a ≠ shape data.

(** [exclude_percentile < 0 or exclude_percentile > 100] *)
Definition out_of_range (p : float64) : Prop :=
  F64.ltb p (F64.of_Z 0) = true ∨ F64.ltb (F64.of_Z 100) p = true.

(** The errors that the argument checks of [__init__] raise. *)
Definition is_argument_error (e : error) : bool :=
  match e with
  | ValueError Msg_mask_shape
  | ValueError Msg_coverage_mask_shape
  | ValueError Msg_exclude_percentile => true
  | _ => false
  end.

(** The first and one past the last index, along one axis, of the filter
    window about the index [i] that lie inside an array of [n] entries:
    [max(i - fs // 2, 0)] and [min(i - fs // 2 + fs, n)]. *)
Definition window_rows (fs n i : nat) : nat * nat :=
  (i - fs / 2, (i + fs - fs / 2) `min` n).

Section Requests_shape.
Context {V : Type} `{Numeric V}.

(** A request with an [h] by [w] image of at least one pixel, masks of the
    shape of the image and a positive box size; nothing is assumed of
    [exclude_percentile]. *)
Definition shaped_request (h w : nat) (rq : request V) : Prop :=
  rect h w (arg_data rq) ∧ 0 < h ∧ 0 < w
  ∧ mask_rect h w (arg_mask rq) ∧ mask_rect h w (arg_coverage_mask rq)
  ∧ 0 < (as_pair (arg_box_size rq)).1 ∧ 0 < (as_pair (arg_box_size rq)).2.

End Requests_shape.

(** ** Concrete instances

    Integer pixel values, two simple estimators, a sigma clipper and a
    nearest-mesh interpolator, on which the definitions are evaluated. *)

Module Examples.

Local Open Scope Z_scope.

Definition sorted_Z (l : list Z) : list Z := merge_sort Z.le l.

(** The median, rounded down to an integer for an even number of values. *)
Definition median_Z (l : list Z) : Z :=
  let s := sorted_Z l in
  let n := length s in
  if Nat.even n
  then (default 0 (s !! (n / 2 - 1)%nat) + default 0 (s !! (n / 2)%nat)) / 2
  else default 0 (s !! (n / 2)%nat).

Definition sum_Z (l : list Z) : Z := foldr Z.add 0 l.

#[export] Instance Numeric_Z : Numeric Z := {|
  zero := 0;
  pad_constant := 10 ^ 10;
  gt := Z.gtb;
  median := median_Z;
  nanmedian := median_Z;
  idw_weight := λ _ _ d2, 1000000 / d2;
  idw_average := λ wv, sum_Z ((λ x, x.1 * x.2) <$> wv) / sum_Z (fst <$> wv)
|}.

(** [row.compressed()]: the values that are not masked. *)
Definition unmasked (vals : list Z) (m : list bool) : list Z :=
  fst <$> filter (λ x, x.2 = false) (zip vals m).

(** One iteration of sigma clipping about the median at three standard
    deviations, in exact arithmetic: with [n] unmasked values of sum [S]
    and sum of squares [Q], the value [v] is clipped when
    [|v - median| > 3 * sqrt (Q / n - (S / n) ^ 2)], that is when
    [(2 v - 2 median) ^ 2 * n ^ 2 > 36 * (n Q - S ^ 2)]. *)
Definition clip_once (vals : list Z) (m : list bool) : list bool :=
  let u := unmasked vals m in
  let s := sorted_Z u in
  let n := length u in
  let median2 :=
    if Nat.even n
    then default 0 (s !! (n / 2 - 1)%nat) + default 0 (s !! (n / 2)%nat)
    else 2 * default 0 (s !! (n / 2)%nat) in
  let S := sum_Z u in
  let Q := sum_Z ((λ v, v * v) <$> u) in
  let var_n2 := Z.of_nat n * Q - S * S in
  zip_with (λ v (b : bool),
              b || bool_decide ((2 * v - median2) ^ 2 * Z.of_nat n ^ 2 > 36 * var_n2))
           vals m.

Fixpoint clip_iter (maxiters : nat) (vals : list Z) (m : list bool) : list bool :=
  match maxiters with
  | O => m
  | S k =>
      let m' := clip_once vals m in
      if decide (m' = m) then m else clip_iter k vals m'
  end.

(** [SigmaClip(sigma=3.0, maxiters=10)] on integer pixel values. *)
Definition SIGMA_CLIP : SigmaClip Z := clip_iter 10.

(** An estimator object whose call clips with its [sigma_clip] attribute,
    when it has one, and returns the median of what is left. *)
Definition MedianBackground (sigma_clip : option (SigmaClip Z)) : estimator Z :=
  {| sigma_clip_attr := sigma_clip;
     estimate := λ sc vals m,
       median_Z (unmasked vals (match sc with Some c => c vals m | None => m end)) |}.

(** An estimator object that returns the range of the values left. *)
Definition RangeBackgroundRMS (sigma_clip : option (SigmaClip Z)) : estimator Z :=
  {| sigma_clip_attr := sigma_clip;
     estimate := λ sc vals m,
       let s := sorted_Z
                  (unmasked vals (match sc with Some c => c vals m | None => m end)) in
       default 0 (last s) - default 0 (head s) |}.

(** An interpolator that gives every pixel the value of the mesh it lies
    in (the last mesh, for a pixel beyond the grid). *)
Definition nearest_mesh (mesh : list (list Z)) (self : Background2D Z)
  : list (list Z) :=
  let bs := box_size (self_attributes self) in
  let d := data (self_attributes self) in
  (λ i, (λ j, default 0 (pixel mesh ((i / bs.1) `min` (length mesh - 1))%nat
                                    ((j / bs.2) `min` (ncols mesh - 1))%nat))
          <$> seq 0 (ncols d))
    <$> seq 0 (length d).

(** A request with the integer estimators. *)
Definition make_request (data : list (list Z)) (box_size : size_arg)
    (mask coverage_mask : option (list (list bool))) (fill_value : Z)
    (exclude_percentile : Z) (edge_method : string)
    (sigma_clip : option (SigmaClip Z)) : request Z :=
  {| arg_data := data;
     arg_box_size := box_size;
     arg_mask := mask;
     arg_coverage_mask := coverage_mask;
     arg_fill_value := fill_value;
     arg_exclude_percentile := F64.of_Z exclude_percentile;
     arg_filter_size := Pair 3 3;
     arg_filter_threshold := None;
     arg_edge_method := edge_method;
     arg_sigma_clip := sigma_clip;
     arg_bkg_estimator := MedianBackground None;
     arg_bkgrms_estimator := RangeBackgroundRMS None |}.

(** A request with the defaults of the constructor. *)
Definition default_request (data : list (list Z)) (box_size : size_arg)
  : request Z :=
  make_request data box_size None None 0 10 "pad" (Some SIGMA_CLIP).

(** A table of two meshes of four pixels: one masked pixel in the first,
    all pixels masked in the second. *)
Definition two_meshes : masked_array Z :=
  {| ma_data := [[1; 2; 3; 4]; [5; 6; 7; 8]];
     ma_mask := [[false; true; false; false]; [true; true; true; true]] |}.

(** A 3 by 5 image. *)
Definition image_3x5 : list (list Z) :=
  [[1; 2; 3; 4; 5]; [6; 7; 8; 9; 10]; [11; 12; 13; 14; 15]].

Definition mask_3x5 : list (list bool) :=
  [[false; false; false; false; false];
   [false; true; false; false; false];
   [false; false; false; false; true]].

(** A 4 by 4 image, a whole number of 2 by 2 boxes. *)
Definition image_4x4 : list (list Z) :=
  [[1; 2; 3; 4]; [5; 6; 7; 8]; [9; 10; 11; 12]; [13; 14; 15; 16]].

(** A 1 by 38 image of two meshes of 19 pixels: the first holds 17 zeros
    and the values 3 and -3, the second holds zeros. *)
Definition image_1x38 : list (list Z) :=
  [replicate 17 0 ++ [3; -3] ++ replicate 19 0].

(** No pixel masked, and the first pixel masked. *)
Definition mask_none_1x38 : list (list bool) := [replicate 38 false].
Definition mask_first_1x38 : list (list bool) := [true :: replicate 37 false].

(** The defaults on that image with a box of 1 by 19 pixels. *)
Definition request_1x38 : request Z := default_request image_1x38 (Pair 1 19).

(** The 3 by 5 image with every pixel masked. *)
Definition request_masked : request Z :=
  make_request image_3x5 (Scalar 2) (Some (full 3 5 true)) None 0 10 "pad"
               (Some SIGMA_CLIP).

(** The two images with an edge method that the class does not know. *)
Definition request_wrap_3x5 : request Z :=
  make_request image_3x5 (Scalar 2) None None 0 10 "wrap" (Some SIGMA_CLIP).
Definition request_wrap_4x4 : request Z :=
  make_request image_4x4 (Scalar 2) None None 0 10 "wrap" (Some SIGMA_CLIP).

(** The 4 by 4 image with the pixels of its first mesh masked. *)
Definition mask_first_mesh : list (list bool) :=
  [[true; true; false; false]; [true; true; false; false];
   [false; false; false; false]; [false; false; false; false]].
Definition request_gap : request Z :=
  make_request image_4x4 (Scalar 2) (Some mask_first_mesh) None 0 10 "pad"
               (Some SIGMA_CLIP).

(** The 4 by 4 image with a coverage mask on its last column and the fill
    value -1. *)
Definition coverage_last_column : list (list bool) :=
  [[false; false; false; true]; [false; false; false; true];
   [false; false; false; true]; [false; false; false; true]].
Definition request_coverage : request Z :=
  make_request image_4x4 (Scalar 2) None (Some coverage_last_column) (-1) 50 "pad"
               (Some SIGMA_CLIP).

(** A 1 by 2 image in one box, the second pixel without coverage. *)
Definition image_1x2 : list (list Z) := [[5; 7]].
Definition request_single : request Z :=
  make_request image_1x2 (Pair 1 2) None (Some [[false; true]]) (-1) 50 "pad"
               (Some SIGMA_CLIP).

(** The 1 by 38 image without sigma clipping. *)
Definition request_1x38_noclip : request Z :=
  make_request image_1x38 (Pair 1 19) None None 0 10 "pad" None.

(** What the two stages of the constructor compute for a request, as
    values. *)
Definition no_prepared : prepared Z :=
  {| p_resized := MaskedArray [] []; p_nyboxes := 0; p_nxboxes := 0;
     p_nboxes := 0; p_mesh_idx := []; p_mesh_data := MaskedArray [] [] |}.

Definition no_meshes : meshes Z :=
  {| mesh_idx := []; _data_sigclip := MaskedArray [] []; mesh_yidx := [];
     mesh_xidx := []; _bkg1d := []; _bkgrms1d := [];
     _background_mesh_unfiltered := []; _background_rms_mesh_unfiltered := [];
     background_mesh := []; background_rms_mesh := [] |}.

Definition prepared_of (rq : request Z) : prepared Z :=
  match prepare (init_attributes rq) with
  | Ok pr => pr
  | Err _ => no_prepared
  end.

Definition meshes_of (rq : request Z) : meshes Z :=
  match _calc_bkg_bkgrms (init_attributes rq) (prepared_of rq) with
  | Ok ms => ms
  | Err _ => no_meshes
  end.

Definition object_of (rq : request Z) (pr : prepared Z) (ms : meshes Z)
  : Background2D Z :=
  {| self_attributes := init_attributes rq; self_prepared := pr; self_meshes := ms |}.

Definition gap_prepared : prepared Z := Eval vm_compute in prepared_of request_gap.
Definition gap_meshes : meshes Z := Eval vm_compute in meshes_of request_gap.

Definition clip_request : request Z :=
  set_mask request_1x38 (Some mask_none_1x38).
Definition clip_prepared : prepared Z := Eval vm_compute in prepared_of clip_request.
Definition clip_meshes : meshes Z := Eval vm_compute in meshes_of clip_request.

Definition coverage_prepared : prepared Z :=
  Eval vm_compute in prepared_of request_coverage.
Definition coverage_meshes : meshes Z :=
  Eval vm_compute in meshes_of request_coverage.
Definition coverage_object : Background2D Z :=
  object_of request_coverage coverage_prepared coverage_meshes.
Definition coverage_background : list (list Z) :=
  Eval vm_compute in
    match background nearest_mesh coverage_object with
    | Ok s => s
    | Err _ => []
    end.

Definition single_prepared : prepared Z :=
  Eval vm_compute in prepared_of request_single.
Definition single_meshes : meshes Z := Eval vm_compute in meshes_of request_single.
Definition single_object : Background2D Z :=
  object_of request_single single_prepared single_meshes.

(** A store with an image, a [SigmaClip] object and two estimators, the
    first of which has a [sigma_clip] of its own, and a call that passes
    them. *)
Definition caller_store : store Z :=
  <[1%positive := ObjArray image_4x4]>
    (<[2%positive := ObjSigmaClip SIGMA_CLIP]>
       (<[3%positive := ObjEstimator (MedianBackground (Some SIGMA_CLIP))]>
          (<[4%positive := ObjEstimator (RangeBackgroundRMS None)]> ∅))).


End Examples.

(** ** Further concrete cases *)

Module Cases.
Import Examples.

Local Open Scope Z_scope.

(** The object constructed from the 4 by 4 image with its first mesh
    masked. *)
Definition gap_object : Background2D Z :=
  object_of request_gap gap_prepared gap_meshes.

(** The defaults on the 4 by 4 image, with NaN as [exclude_percentile]. *)
Definition request_nan : request Z :=
  set_exclude_percentile (default_request image_4x4 (Scalar 2)) S754_nan.

(** The defaults on the 4 by 4 image with a box of 7 by 7 pixels. *)
Definition request_big_box : request Z := default_request image_4x4 (Scalar 7).

(** The 4 by 4 image with a mask of 3 by 5 pixels. *)
Definition request_bad_mask : request Z :=
  make_request image_4x4 (Scalar 2) (Some mask_3x5) None 0 10 "pad" None.

(** A call on the store of the caller with boxes of 3 by 3 pixels and an
    edge method that the class does not know. *)
Definition wrap_arguments : arguments Z :=
  {| ref_data := 1%positive;
     val_box_size := Scalar 3;
     ref_mask := None;
     ref_coverage_mask := None;
     val_fill_value := 0;
     val_exclude_percentile := F64.of_Z 10;
     val_filter_size := Pair 3 3;
     val_filter_threshold := None;
     val_edge_method := "wrap";
     ref_sigma_clip := Some 2%positive;
     ref_bkg_estimator := 3%positive;
     ref_bkgrms_estimator := 4%positive |}.

End Cases.

(** * Properties *)

(** ** Binary64 facts *)

Module F64Facts.
Import F64.
Local Open Scope Z_scope.

Lemma digits2_pos_iter_xO p k :
  digits2_pos (Pos.iter xO p k) = (digits2_pos p + k)%positive.
Proof.
  induction k using Pos.peano_ind.
  - simpl. lia.
  - rewrite Pos.iter_succ. simpl. rewrite IHk. lia.
Qed.

Lemma Zpos_iter_xO p k : Zpos (Pos.iter xO p k) = Zpos p * 2 ^ Zpos k.
Proof.
  induction k using Pos.peano_ind.
  - simpl. lia.
  - rewrite Pos.iter_succ, Pos2Z.inj_succ, Z.pow_succ_r by lia.
    rewrite Pos2Z.inj_xO, IHk. lia.
Qed.

Lemma digits2_pos_bounds p :
  2 ^ (Zpos (digits2_pos p) - 1) ≤ Zpos p < 2 ^ Zpos (digits2_pos p).
Proof.
  induction p as [p IH|p IH|]; simpl digits2_pos.
  - rewrite Pos2Z.inj_succ, Z.pow_succ_r by lia.
    replace (Z.succ (Zpos (digits2_pos p)) - 1)
      with (Z.succ (Zpos (digits2_pos p) - 1)) by lia.
    rewrite Z.pow_succ_r by lia. lia.
  - rewrite Pos2Z.inj_succ, Z.pow_succ_r by lia.
    replace (Z.succ (Zpos (digits2_pos p)) - 1)
      with (Z.succ (Zpos (digits2_pos p) - 1)) by lia.
    rewrite Z.pow_succ_r by lia. lia.
  - simpl. lia.
Qed.

Ltac fexp_lia := unfold fexp, emin, prec, emax in *; lia.

(** A positive integer of at most 53 bits converts exactly: the mantissa is
    the integer shifted to 53 bits. *)
Lemma of_Z_pos p :
  Zpos (digits2_pos p) ≤ prec →
  ∃ m, of_Z (Zpos p) = S754_finite false m (Zpos (digits2_pos p) - prec)
    ∧ Zpos m = Zpos p * 2 ^ (prec - Zpos (digits2_pos p))
    ∧ Zpos (digits2_pos m) = prec.
Proof.
  intros Hd. unfold of_Z, binary_normalize, binary_round.
  assert (Hf : fexp prec emax (Zpos (digits2_pos p) + 0) = Zpos (digits2_pos p) - prec)
    by fexp_lia.
  rewrite Hf. unfold shl_align.
  destruct (prec - Zpos (digits2_pos p)) as [|d|d] eqn:E; try lia.
  - exists p.
    replace (Zpos (digits2_pos p) - prec - 0) with 0 by lia.
    replace (Zpos (digits2_pos p) - prec) with 0 by lia.
    unfold binary_round_aux, shr_fexp. simpl Zdigits2.
    replace (fexp prec emax (Zpos (digits2_pos p) + 0) - 0) with 0 by fexp_lia.
    simpl.
    replace (fexp prec emax (Zpos (digits2_pos p) + 0) - 0) with 0 by fexp_lia.
    simpl. repeat split; lia.
  - exists (Pos.iter xO p d).
    replace (Zpos (digits2_pos p) - prec - 0) with (Zneg d) by lia.
    unfold binary_round_aux, shr_fexp. simpl Zdigits2.
    rewrite digits2_pos_iter_xO.
    replace (fexp prec emax (Zpos (digits2_pos p + d) + (Zpos (digits2_pos p) - prec))
             - (Zpos (digits2_pos p) - prec)) with 0 by fexp_lia.
    simpl.
    rewrite digits2_pos_iter_xO.
    replace (fexp prec emax (Zpos (digits2_pos p + d) + (Zpos (digits2_pos p) - prec))
             - (Zpos (digits2_pos p) - prec)) with 0 by fexp_lia.
    simpl.
    destruct (Z.leb_spec (Zpos (digits2_pos p) - prec) (emax - prec));
      [|unfold emax, prec in *; lia].
    split; [reflexivity|]. split; [apply Zpos_iter_xO|lia].
Qed.

Lemma small_pos z :
  0 < z < 2 ^ prec → ∃ p, z = Zpos p ∧ Zpos (digits2_pos p) ≤ prec.
Proof.
  intros [H0 H1]. destruct z as [|p|p]; try lia. exists p. split; [reflexivity|].
  pose proof (digits2_pos_bounds p) as B.
  destruct (Z.le_gt_cases (Zpos (digits2_pos p)) prec) as [?|G]; [assumption|].
  assert (2 ^ prec ≤ 2 ^ (Zpos (digits2_pos p) - 1)) by (apply Z.pow_le_mono_r; lia).
  lia.
Qed.

Lemma of_Z_normal z : 0 < z < 2 ^ prec → normal (of_Z z).
Proof.
  intros Hz. destruct (small_pos z Hz) as (p & -> & Hp).
  destruct (of_Z_pos p Hp) as (m & -> & _ & Hm). simpl.
  pose proof (Pos2Z.is_pos (digits2_pos p)). unfold prec in *. lia.
Qed.

Lemma compare_of_Z_pos p q :
  Zpos (digits2_pos p) ≤ prec → Zpos (digits2_pos q) ≤ prec →
  SFcompare (of_Z (Zpos p)) (of_Z (Zpos q)) = Some (Zpos p ?= Zpos q).
Proof.
  intros Hp Hq.
  destruct (of_Z_pos p Hp) as (mp & -> & Hmp & _).
  destruct (of_Z_pos q Hq) as (mq & -> & Hmq & _).
  pose proof (digits2_pos_bounds p) as Bp.
  pose proof (digits2_pos_bounds q) as Bq.
  simpl SFcompare. f_equal.
  destruct (Z.compare_spec (Zpos (digits2_pos p) - prec) (Zpos (digits2_pos q) - prec))
    as [E|E|E].
  - change (Pos.compare_cont Eq mp mq) with (Pos.compare mp mq).
    rewrite Pos2Z.inj_compare, Hmp, Hmq.
    replace (Zpos (digits2_pos q)) with (Zpos (digits2_pos p)) by lia.
    assert (0 < 2 ^ (prec - Zpos (digits2_pos p))) by (apply Z.pow_pos_nonneg; lia).
    destruct (Z.compare_spec (Zpos p) (Zpos q)) as [C|C|C].
    + rewrite C. apply Z.compare_refl.
    + apply Z.compare_lt_iff. nia.
    + apply Z.compare_gt_iff. nia.
  - symmetry. apply Z.compare_lt_iff.
    assert (2 ^ Zpos (digits2_pos p) ≤ 2 ^ (Zpos (digits2_pos q) - 1))
      by (apply Z.pow_le_mono_r; lia).
    lia.
  - symmetry. apply Z.compare_gt_iff.
    assert (2 ^ Zpos (digits2_pos q) ≤ 2 ^ (Zpos (digits2_pos p) - 1))
      by (apply Z.pow_le_mono_r; lia).
    lia.
Qed.

(** On integers below [2 ^ 53] the conversion is exact, so comparing the
    floats compares the integers. *)
Lemma compare_of_Z a b :
  0 ≤ a < 2 ^ prec → 0 ≤ b < 2 ^ prec →
  SFcompare (of_Z a) (of_Z b) = Some (a ?= b).
Proof.
  intros Ha Hb.
  destruct (Z.eq_dec a 0) as [->|Na], (Z.eq_dec b 0) as [->|Nb].
  - reflexivity.
  - destruct (small_pos b) as (q & -> & Hq); [lia|].
    destruct (of_Z_pos q Hq) as (mq & Eq & _). rewrite Eq. reflexivity.
  - destruct (small_pos a) as (p & -> & Hp); [lia|].
    destruct (of_Z_pos p Hp) as (mp & Ep & _). rewrite Ep. reflexivity.
  - destruct (small_pos a) as (p & -> & Hp); [lia|].
    destruct (small_pos b) as (q & -> & Hq); [lia|].
    by apply compare_of_Z_pos.
Qed.

Lemma leb_of_Z a b :
  0 ≤ a < 2 ^ prec → 0 ≤ b < 2 ^ prec →
  leb (of_Z a) (of_Z b) = bool_decide (a ≤ b).
Proof.
  intros Ha Hb. unfold leb, SFleb. rewrite compare_of_Z by assumption.
  destruct (Z.compare_spec a b); case_bool_decide; try reflexivity; lia.
Qed.

Lemma leb_of_nat a b :
  Z.of_nat a < 2 ^ prec → Z.of_nat b < 2 ^ prec →
  leb (of_nat a) (of_nat b) = bool_decide (a ≤ b)%nat.
Proof.
  intros Ha Hb. unfold of_nat. rewrite leb_of_Z by lia.
  apply bool_decide_ext. lia.
Qed.

Lemma leb_trans a b c : leb a b = true → leb b c = true → leb a c = true.
Proof.
  unfold leb, SFleb, SFcompare.
  destruct a as [[]|[]| |[] ma ea], b as [[]|[]| |[] mb eb], c as [[]|[]| |[] mc ec];
    try reflexivity; try discriminate;
    change (Pos.compare_cont Eq) with Pos.compare;
    rewrite ?Pos2Z.inj_compare;
    repeat match goal with
    | |- context [Z.compare ?x ?y] => destruct (Z.compare_spec x y)
    end; simpl; try reflexivity; try discriminate; try lia.
Qed.

Lemma leb_not_ltb a b : leb a b = true → ltb b a = false.
Proof.
  unfold leb, ltb, SFleb, SFltb, SFcompare.
  destruct a as [[]|[]| |[] ma ea], b as [[]|[]| |[] mb eb];
    try reflexivity; try discriminate;
    change (Pos.compare_cont Eq) with Pos.compare;
    rewrite ?Pos2Z.inj_compare;
    repeat match goal with
    | |- context [Z.compare ?x ?y] => destruct (Z.compare_spec x y)
    end; simpl; try reflexivity; try discriminate; try lia.
Qed.

Lemma iter_pos_shr_1_xO k : ∀ m,
  SpecFloat.iter_pos shr_1 k (Build_shr_record (Zpos (Pos.iter xO m k)) false false)
  = Build_shr_record (Zpos m) false false.
Proof.
  induction k as [k IH|k IH|]; intros m; simpl.
  - rewrite IH, IH. reflexivity.
  - rewrite IH, IH. reflexivity.
  - reflexivity.
Qed.

(** Multiplication by [1.0] is exact. *)
Lemma mul_one_l x : normal x → mul one x = x.
Proof.
  destruct x as [| | |s m e]; try (simpl; tauto).
  intros [Hd He]. unfold mul, one, SFmul. cbn [xorb].
  change (Pos.mul 4503599627370496 m) with (Pos.iter xO m 52).
  unfold binary_round_aux, shr_fexp. unfold Zdigits2.
  rewrite digits2_pos_iter_xO.
  replace (fexp prec emax (Zpos (digits2_pos m + 52) + (-52 + e)) - (-52 + e))
    with 52 by fexp_lia.
  unfold shr. cbn [shr_record_of_loc]. rewrite iter_pos_shr_1_xO.
  cbn [shr_record_of_loc shr_m loc_of_shr_record round_nearest_even Zdigits2].
  replace (fexp prec emax (Zpos (digits2_pos m) + (-52 + e + 52)) - (-52 + e + 52))
    with 0 by fexp_lia.
  cbn [shr_m]. replace (-52 + e + 52) with e by lia.
  destruct (Z.leb_spec e (emax - prec)); [reflexivity|unfold emax, prec in *; lia].
Qed.

(** [100 / 100.] is [1.0]. *)
Lemma div_100_100 : div (of_Z 100) (of_Z 100) = one.
Proof. vm_compute. reflexivity. Qed.

(** [0 / 100.] is [0.0], and the product of a zero with a number that is
    not an infinity or a NaN is a zero. *)
Lemma div_zero_100 s : div (S754_zero s) (of_Z 100) = S754_zero s.
Proof. destruct s; reflexivity. Qed.

Lemma leb_pos_zero_mul z s y :
  0 < z < 2 ^ prec → leb (of_Z z) (mul (S754_zero s) y) = false.
Proof.
  intros Hz. destruct (small_pos z Hz) as (p & -> & Hp).
  destruct (of_Z_pos p Hp) as (m & -> & _).
  destruct y as [[]|[]| |[] my ey], s; reflexivity.
Qed.

End F64Facts.

(** ** Array facts *)

Section ArrayFacts.
Context {T : Type}.
Implicit Types (a : list (list T)) (c : T).

Lemma rect_ncols h w a : rect h w a → 0 < h → ncols a = w.
Proof.
  intros [Hh Hw] Hpos. destruct a as [|r a]; simpl in *; [lia|].
  by apply Forall_cons in Hw as [? _].
Qed.

Lemma rect_shape h w a : rect h w a → 0 < h → shape a = (h, w).
Proof.
  intros Ha Hpos. unfold shape. rewrite (rect_ncols h w a) by done.
  by destruct Ha as [-> _].
Qed.

Lemma rect_lookup h w a i r : rect h w a → a !! i = Some r → length r = w.
Proof.
  intros [_ Hw] Hi. rewrite Forall_forall in Hw. apply Hw.
  by eapply list_elem_of_lookup_2.
Qed.

Lemma rect_pixel_is_Some h w a i j :
  rect h w a → i < h → j < w → is_Some (pixel a i j).
Proof.
  intros Ha Hi Hj. unfold pixel.
  destruct (lookup_lt_is_Some_2 a i) as [r Hr]; [destruct Ha; lia|].
  rewrite Hr. simpl. apply lookup_lt_is_Some_2.
  by rewrite (rect_lookup h w a i r).
Qed.

Lemma rect_pixel_ext h w a b :
  rect h w a → rect h w b →
  (∀ i j, i < h → j < w → pixel a i j = pixel b i j) → a = b.
Proof.
  intros Ha Hb Hpix. apply list_eq_same_length with h; try apply Ha; try apply Hb.
  intros i r1 r2 Hi H1 H2. f_equal.
  apply list_eq_same_length with w;
    [exact (rect_lookup h w b i r2 Hb H2)|exact (rect_lookup h w a i r1 Ha H1)|].
  intros j x y Hj Hx Hy. specialize (Hpix i j Hi Hj).
  unfold pixel in Hpix. rewrite H1, H2 in Hpix. simpl in Hpix. congruence.
Qed.

Lemma rect_full h w c : rect h w (full h w c).
Proof.
  split; [apply length_replicate|].
  apply Forall_replicate, length_replicate.
Qed.

Lemma pixel_full h w c i j : i < h → j < w → pixel (full h w c) i j = Some c.
Proof.
  intros Hi Hj. unfold pixel, full.
  rewrite lookup_replicate_2 by done. simpl. by apply lookup_replicate_2.
Qed.

Lemma rect_np_pad h w a c ypad xpad :
  rect h w a → 0 < h → rect (h + ypad) (w + xpad) (np_pad c ypad xpad a).
Proof.
  intros Ha Hpos. pose proof (rect_ncols _ _ _ Ha Hpos) as Hn.
  destruct Ha as [Hh Hw]. unfold np_pad. split.
  - rewrite length_app, length_fmap, length_replicate. lia.
  - apply Forall_app. split.
    + apply Forall_fmap. eapply Forall_impl; [exact Hw|].
      intros r Hr. simpl in *. rewrite length_app, length_replicate. lia.
    + apply Forall_replicate. rewrite length_replicate. lia.
Qed.

Lemma pixel_np_pad h w a c ypad xpad i j :
  rect h w a → 0 < h → i < h + ypad → j < w + xpad →
  pixel (np_pad c ypad xpad a) i j
  = if decide (i < h ∧ j < w) then pixel a i j else Some c.
Proof.
  intros Ha Hpos Hi Hj. pose proof (rect_ncols _ _ _ Ha Hpos) as Hn.
  unfold pixel, np_pad. destruct (decide (i < h)) as [Hih|Hih].
  - destruct (lookup_lt_is_Some_2 a i) as [r Hr]; [destruct Ha; lia|].
    rewrite lookup_app_l by (rewrite length_fmap; destruct Ha; lia).
    rewrite list_lookup_fmap, Hr. simpl.
    pose proof (rect_lookup _ _ _ _ _ Ha Hr) as Hlen.
    destruct (decide (j < w)) as [Hjw|Hjw].
    + rewrite decide_True by done. apply lookup_app_l. lia.
    + rewrite decide_False by tauto.
      rewrite lookup_app_r by lia. apply lookup_replicate_2. lia.
  - rewrite decide_False by tauto.
    rewrite lookup_app_r by (rewrite length_fmap; destruct Ha; lia).
    rewrite lookup_replicate_2 by (rewrite length_fmap; destruct Ha; lia).
    simpl. apply lookup_replicate_2. lia.
Qed.

Lemma rect_assign_rows_from h w a y c :
  rect h w a → rect h w (assign_rows_from y c a).
Proof.
  intros [Hh Hw]. unfold assign_rows_from. split.
  - rewrite length_app, length_fmap, length_take, length_drop. lia.
  - apply Forall_app. split; [by apply Forall_take|].
    apply Forall_fmap, Forall_drop. eapply Forall_impl; [exact Hw|].
    intros r Hr. simpl in *. by rewrite length_replicate.
Qed.

Lemma pixel_assign_rows_from h w a y c i j :
  rect h w a → i < h → j < w →
  pixel (assign_rows_from y c a) i j = if decide (y ≤ i) then Some c else pixel a i j.
Proof.
  intros Ha Hi Hj. unfold pixel, assign_rows_from.
  destruct (lookup_lt_is_Some_2 a i) as [r Hr]; [destruct Ha; lia|].
  pose proof (rect_lookup _ _ _ _ _ Ha Hr) as Hlen.
  destruct (decide (y ≤ i)) as [Hy|Hy].
  - rewrite lookup_app_r by (rewrite length_take; lia).
    rewrite length_take, list_lookup_fmap, lookup_drop.
    replace (y + (i - y `min` length a)) with i by (destruct Ha; lia).
    rewrite Hr. simpl. apply lookup_replicate_2. lia.
  - rewrite lookup_app_l by (rewrite length_take; destruct Ha; lia).
    rewrite lookup_take_lt by lia. done.
Qed.

Lemma rect_assign_cols_from h w a x c :
  rect h w a → rect h w (assign_cols_from x c a).
Proof.
  intros [Hh Hw]. unfold assign_cols_from. split.
  - by rewrite length_fmap.
  - apply Forall_fmap. eapply Forall_impl; [exact Hw|].
    intros r Hr. simpl in *. rewrite length_app, length_take, length_replicate. lia.
Qed.

Lemma pixel_assign_cols_from h w a x c i j :
  rect h w a → i < h → j < w →
  pixel (assign_cols_from x c a) i j = if decide (x ≤ j) then Some c else pixel a i j.
Proof.
  intros Ha Hi Hj. unfold pixel, assign_cols_from.
  destruct (lookup_lt_is_Some_2 a i) as [r Hr]; [destruct Ha; lia|].
  pose proof (rect_lookup _ _ _ _ _ Ha Hr) as Hlen.
  rewrite list_lookup_fmap, Hr. simpl.
  destruct (decide (x ≤ j)) as [Hx|Hx].
  - rewrite lookup_app_r by (rewrite length_take; lia).
    apply lookup_replicate_2. rewrite length_take. lia.
  - rewrite lookup_app_l by (rewrite length_take; lia).
    apply lookup_take_lt. lia.
Qed.

Lemma rect_crop h w a ny nx :
  rect h w a → ny ≤ h → nx ≤ w → rect ny nx (crop ny nx a).
Proof.
  intros [Hh Hw] Hny Hnx. unfold crop. split.
  - rewrite length_fmap, length_take. lia.
  - apply Forall_fmap, Forall_take. eapply Forall_impl; [exact Hw|].
    intros r Hr. simpl in *. rewrite length_take. lia.
Qed.

Lemma pixel_crop a ny nx i j :
  i < ny → j < nx → pixel (crop ny nx a) i j = pixel a i j.
Proof.
  intros Hi Hj. unfold pixel, crop.
  rewrite list_lookup_fmap, lookup_take_lt by done.
  destruct (a !! i) as [r|]; simpl; [|done]. by apply lookup_take_lt.
Qed.

End ArrayFacts.

Lemma rect_logical_or h w (a b : list (list bool)) :
  rect h w a → rect h w b → rect h w (logical_or a b).
Proof.
  intros [Ha Hwa] [Hb Hwb]. unfold logical_or. split.
  - rewrite length_zip_with. lia.
  - apply Forall_forall. intros r Hr.
    apply list_elem_of_lookup in Hr as [i Hr].
    apply lookup_zip_with_Some in Hr as (ra & rb & -> & Hra & Hrb).
    rewrite length_zip_with.
    rewrite Forall_forall in Hwa, Hwb.
    rewrite (Hwa ra), (Hwb rb) by (by eapply list_elem_of_lookup_2). lia.
Qed.

Lemma pixel_logical_or (a b : list (list bool)) i j x y :
  pixel a i j = Some x → pixel b i j = Some y →
  pixel (logical_or a b) i j = Some (x || y).
Proof.
  unfold pixel, logical_or. intros Ha Hb.
  destruct (a !! i) as [ra|] eqn:Era; [|done].
  destruct (b !! i) as [rb|] eqn:Erb; [|done]. simpl in *.
  rewrite lookup_zip_with, Era. simpl. rewrite Erb. simpl.
  rewrite lookup_zip_with, Ha. simpl. by rewrite Hb.
Qed.

(** ** Index arrays *)

Lemma elem_of_np_where (c : list bool) (i : nat) :
  i ∈ np_where c ↔ c !! i = Some true.
Proof.
  unfold np_where. rewrite list_elem_of_filter, elem_of_seq.
  split; [tauto|]. intros Hi. split; [done|].
  apply lookup_lt_Some in Hi. lia.
Qed.

Lemma StronglySorted_seq (start len : nat) : StronglySorted lt (seq start len).
Proof.
  revert start. induction len as [|len IH]; intros start; simpl.
  - constructor.
  - constructor; [apply IH|].
    apply Forall_forall. intros x Hx. apply elem_of_seq in Hx. lia.
Qed.

Lemma StronglySorted_filter {A : Type} (R : relation A) (P : A → Prop)
    `{∀ x, Decision (P x)} (l : list A) :
  StronglySorted R l → StronglySorted R (filter P l).
Proof.
  induction 1 as [|x l Hl IH Hx]; [constructor|].
  rewrite filter_cons. case_decide; [|done].
  constructor; [done|].
  apply Forall_forall. intros y Hy. apply list_elem_of_filter in Hy as [_ Hy].
  rewrite Forall_forall in Hx. auto.
Qed.

Lemma np_where_sorted (c : list bool) : StronglySorted lt (np_where c).
Proof. apply StronglySorted_filter, StronglySorted_seq. Qed.

Lemma np_where_lt (c : list bool) (i : nat) : i ∈ np_where c → i < length c.
Proof. rewrite elem_of_np_where. apply lookup_lt_Some. Qed.

Lemma fancy_index_Ok {A : Type} (a : list A) (idx : list nat) (r : list A) :
  fancy_index a idx = Ok r ↔ Forall2 (λ i x, a !! i = Some x) idx r.
Proof.
  unfold fancy_index. destruct (mapM _ idx) as [l'|] eqn:E.
  - apply mapM_Some in E. split.
    + intros [= <-]. done.
    + intros Hr. f_equal. revert r Hr. induction E as [|i x idx l' Hx _ IH];
        intros r Hr; inversion Hr; simplify_eq; [done|]. f_equal. eauto.
  - split; [done|]. intros Hr. apply mapM_None in E.
    apply Exists_exists in E as (i & Hi & Hn).
    apply list_elem_of_lookup in Hi as [k Hk].
    destruct (Forall2_lookup_l _ _ _ _ _ Hr Hk) as (x & _ & Hx). congruence.
Qed.

Lemma fancy_index_in_range {A : Type} (a : list A) (idx : list nat) :
  Forall (λ i, i < length a) idx → ∃ r, fancy_index a idx = Ok r.
Proof.
  intros Hidx. unfold fancy_index. destruct (mapM _ idx) as [l'|] eqn:E; [eauto|].
  apply mapM_None in E. apply Exists_exists in E as (i & Hi & Hn).
  rewrite Forall_forall in Hidx. apply Hidx in Hi.
  apply lookup_ge_None in Hn. lia.
Qed.

(** ** Mesh selection *)

Section Selection.
Context {V : Type} `{Numeric V}.
Implicit Types (p : float64) (data : masked_array V).

Lemma good_mesh_iff p (A n : nat) :
  good_mesh p A n = true
  ↔ F64.leb (F64.of_nat n) (threshold_npixels p A) = true ∧ n ≠ A.
Proof.
  unfold good_mesh. rewrite andb_true_iff, negb_true_iff, Nat.eqb_neq. done.
Qed.

Lemma _select_meshes_Ok p A data idx :
  _select_meshes p A data = Ok idx ↔
  idx = np_where (good_mesh p A <$> (count_masked <$> ma_mask data)) ∧ idx ≠ [].
Proof.
  unfold _select_meshes.
  destruct (np_where _) as [|i l] eqn:E; simpl.
  - split; [done|]. intros [-> ?]. done.
  - split; [intros [= <-]; done|]. intros [-> _]. done.
Qed.

Lemma _select_meshes_Err p A data e :
  _select_meshes p A data = Err e ↔
  np_where (good_mesh p A <$> (count_masked <$> ma_mask data)) = []
  ∧ e = AllMeshesExcluded (threshold_npixels p A) p.
Proof.
  unfold _select_meshes.
  destruct (np_where _) as [|i l] eqn:E; simpl.
  - split; [intros [= <-]; done|]. intros [_ ->]. done.
  - split; [done|]. intros [? _]. done.
Qed.

Lemma elem_of_select_meshes p A data idx i :
  _select_meshes p A data = Ok idx →
  i ∈ idx ↔ ∃ row, ma_mask data !! i = Some row
                   ∧ good_mesh p A (count_masked row) = true.
Proof.
  rewrite _select_meshes_Ok. intros [-> _].
  rewrite elem_of_np_where, !list_lookup_fmap.
  destruct (ma_mask data !! i) as [row|]; simpl.
  - split; [intros [= Hg]; eauto|]. intros (row' & [= <-] & Hg). by f_equal.
  - split; [done|]. intros (? & ? & _). done.
Qed.

Lemma select_meshes_sorted p A data idx :
  _select_meshes p A data = Ok idx → StronglySorted lt idx.
Proof. rewrite _select_meshes_Ok. intros [-> _]. apply np_where_sorted. Qed.

Lemma select_meshes_lt p A data idx :
  _select_meshes p A data = Ok idx →
  Forall (λ i, i < length (ma_mask data)) idx.
Proof.
  rewrite _select_meshes_Ok. intros [-> _]. apply Forall_forall. intros i Hi.
  apply np_where_lt in Hi. by rewrite !length_fmap in Hi.
Qed.

Lemma selected_iff p A data i row :
  ma_mask data !! i = Some row →
  selected p A data i ↔ good_mesh p A (count_masked row) = true.
Proof.
  intros Hrow. split.
  - intros (idx & Hsel & Hi).
    apply (elem_of_select_meshes _ _ _ _ i) in Hsel. apply Hsel in Hi.
    destruct Hi as (row' & ? & ?). by simplify_eq.
  - intros Hgood.
    assert (Hi : i ∈ np_where (good_mesh p A <$> (count_masked <$> ma_mask data))).
    { rewrite elem_of_np_where, !list_lookup_fmap, Hrow. simpl. by f_equal. }
    exists (np_where (good_mesh p A <$> (count_masked <$> ma_mask data))).
    split; [|done]. apply _select_meshes_Ok. split; [done|].
    intros E. rewrite E in Hi. by apply not_elem_of_nil in Hi.
Qed.

Lemma good_mesh_full p (A : nat) : good_mesh p A A = false.
Proof. unfold good_mesh. rewrite Nat.eqb_refl. apply andb_false_r. Qed.


Lemma threshold_percentile_100 (A : nat) :
  0 < A → (Z.of_nat A < 2 ^ 53)%Z →
  threshold_npixels (F64.of_Z 100) A = F64.of_nat A.
Proof.
  intros HA Hlt. unfold threshold_npixels.
  rewrite F64Facts.div_100_100. apply F64Facts.mul_one_l.
  apply F64Facts.of_Z_normal. unfold F64.prec. lia.
Qed.


(** Fewer masked pixels never turn a good mesh into a bad one. *)
Lemma good_mesh_mono p (A n1 n2 : nat) :
  (Z.of_nat A < 2 ^ 53)%Z → n1 ≤ n2 → n2 ≤ A →
  good_mesh p A n2 = true → good_mesh p A n1 = true.
Proof.
  intros HA H12 H2A. rewrite !good_mesh_iff. intros [Hle Hne]. split; [|lia].
  eapply F64Facts.leb_trans; [|exact Hle].
  rewrite F64Facts.leb_of_nat by (unfold F64.prec; lia).
  by apply bool_decide_eq_true_2.
Qed.

End Selection.

(** ** Resizing to a whole number of meshes *)

Lemma ceil_div_mul (a b : nat) :
  0 < b →
  ceil_div a b * b = a + (if decide (0 < a mod b) then b - a mod b else 0).
Proof.
  intros Hb. unfold ceil_div.
  pose proof (Nat.div_mod_eq a b) as Ha.
  pose proof (Nat.mod_upper_bound a b ltac:(lia)) as Hr.
  case_decide as Hpos.
  - rewrite <- (Nat.div_unique (a + b - 1) b (S (a / b)) (a mod b - 1)); lia.
  - rewrite <- (Nat.div_unique (a + b - 1) b (a / b) (b - 1)); lia.
Qed.

Lemma ceil_div_exact (a b : nat) : 0 < b → a mod b = 0 → ceil_div a b = a / b.
Proof.
  intros Hb Hmod. pose proof (ceil_div_mul a b Hb) as Hc.
  rewrite Hmod in Hc. rewrite decide_False in Hc by lia.
  pose proof (Nat.div_mod_eq a b) as Ha. nia.
Qed.

Lemma floor_div_mul_le (a b : nat) : a / b * b ≤ a.
Proof. pose proof (Nat.div_mod_eq a b). lia. Qed.

Section Resize.
Context {V : Type} `{Numeric V}.
Implicit Types (data : list (list V)) (mask : option (list (list bool))).

Lemma rect_no_mask h w data : rect h w data → rect h w (no_mask data).
Proof.
  intros [Hh Hw]. unfold no_mask. split; [by rewrite length_fmap|].
  apply Forall_fmap. eapply Forall_impl; [exact Hw|].
  intros r Hr. simpl in *. by rewrite length_replicate.
Qed.

Lemma pixel_no_mask h w data i j :
  rect h w data → i < h → j < w → pixel (no_mask data) i j = Some false.
Proof.
  intros Hd Hi Hj. unfold pixel, no_mask.
  destruct (lookup_lt_is_Some_2 data i) as [r Hr]; [destruct Hd; lia|].
  rewrite list_lookup_fmap, Hr. simpl. apply lookup_replicate_2.
  by rewrite (rect_lookup h w data i r).
Qed.

Lemma pixel_mask_at h w mask i j :
  mask_rect h w mask → i < h → j < w →
  ∀ m, mask = Some m → pixel m i j = Some (mask_at mask i j).
Proof.
  intros Hm Hi Hj m ->. simpl in *.
  by destruct (rect_pixel_is_Some h w m i j Hm Hi Hj) as [b ->].
Qed.

(** The padded array and its mask. *)
Lemma _pad_data_spec data mask (h w bh bw : nat) :
  rect h w data → mask_rect h w mask → 0 < h → 0 < bh → 0 < bw →
  let ma := _pad_data data mask (bh, bw) (h mod bh) (w mod bw) in
  let h' := ceil_div h bh * bh in
  let w' := ceil_div w bw * bw in
  rect h' w' (ma_data ma) ∧ rect h' w' (ma_mask ma)
  ∧ (∀ i j, i < h' → j < w' →
       pixel (ma_data ma) i j
       = if decide (i < h ∧ j < w) then pixel data i j else Some pad_constant)
  ∧ (∀ i j, i < h' → j < w' →
       pixel (ma_mask ma) i j
       = Some (if decide (i < h ∧ j < w) then mask_at mask i j else true)).
Proof.
  intros Hd Hm Hh Hbh Hbw ma h' w'.
  subst ma h' w'. rewrite !ceil_div_mul by done. unfold _pad_data. cbn [fst snd ma_data ma_mask].
  set (ypad := if decide (0 < h mod bh) then bh - h mod bh else 0).
  set (xpad := if decide (0 < w mod bw) then bw - w mod bw else 0).
  pose proof (rect_np_pad h w data pad_constant ypad xpad Hd Hh) as Hd'.
  assert (Hlen : length (np_pad pad_constant ypad xpad data) = h + ypad) by apply Hd'.
  assert (Hnc : ncols (np_pad pad_constant ypad xpad data) = w + xpad)
    by (apply (rect_ncols (h + ypad)); [done|lia]).
  rewrite Hlen, Hnc.
  replace (h + ypad - ypad) with h by lia.
  replace (w + xpad - xpad) with w by lia.
  set (pad_mask := assign_cols_from w true
                     (assign_rows_from h true (full (h + ypad) (w + xpad) false))).
  assert (Hpm : rect (h + ypad) (w + xpad) pad_mask)
    by apply rect_assign_cols_from, rect_assign_rows_from, rect_full.
  assert (Hpix : ∀ i j, i < h + ypad → j < w + xpad →
            pixel pad_mask i j = Some (bool_decide (h ≤ i ∨ w ≤ j))).
  { intros i j Hi Hj. unfold pad_mask.
    rewrite (pixel_assign_cols_from (h + ypad) (w + xpad))
      by (try apply rect_assign_rows_from, rect_full; done).
    rewrite (pixel_assign_rows_from (h + ypad) (w + xpad)) by (try apply rect_full; done).
    rewrite pixel_full by done.
    repeat case_decide; case_bool_decide; try done; lia. }
  split; [done|]. split; [|split].
  - destruct mask as [m|]; [|done].
    apply rect_logical_or; [|done]. by apply rect_np_pad.
  - intros i j Hi Hj. by apply pixel_np_pad.
  - intros i j Hi Hj. destruct mask as [m|].
    + simpl in Hm.
      rewrite (pixel_logical_or _ _ i j
                 (if decide (i < h ∧ j < w) then mask_at (Some m) i j else true)
                 (bool_decide (h ≤ i ∨ w ≤ j))).
      * f_equal. case_decide; case_bool_decide; try done; try lia.
        apply orb_false_r.
      * rewrite (pixel_np_pad h w) by done. case_decide as Hin; [|done].
        apply (pixel_mask_at h w); [done|lia|lia|done].
      * by apply Hpix.
    + rewrite Hpix by done. f_equal. simpl.
      case_decide; case_bool_decide; try done; lia.
Qed.

(** The cropped array and its mask. *)
Lemma _crop_data_spec data mask (h w bh bw : nat) :
  rect h w data → mask_rect h w mask →
  let ma := _crop_data data mask (bh, bw) (h / bh) (w / bw) in
  let h' := h / bh * bh in
  let w' := w / bw * bw in
  rect h' w' (ma_data ma) ∧ rect h' w' (ma_mask ma)
  ∧ (∀ i j, i < h' → j < w' → pixel (ma_data ma) i j = pixel data i j)
  ∧ (∀ i j, i < h' → j < w' → pixel (ma_mask ma) i j = Some (mask_at mask i j)).
Proof.
  intros Hd Hm ma h' w'. subst ma h' w'.
  unfold _crop_data. cbn [fst snd ma_data ma_mask].
  pose proof (floor_div_mul_le h bh) as Hh'.
  pose proof (floor_div_mul_le w bw) as Hw'.
  assert (Hd' : rect (h / bh * bh) (w / bw * bw) (crop (h / bh * bh) (w / bw * bw) data))
    by by apply (rect_crop h w).
  split; [done|]. split; [|split].
  - destruct mask as [m|]; [by apply (rect_crop h w)|by apply rect_no_mask].
  - intros i j Hi Hj. by apply pixel_crop.
  - intros i j Hi Hj. destruct mask as [m|].
    + rewrite pixel_crop by done.
      apply (pixel_mask_at h w); [done|lia|lia|done].
    + by apply (pixel_no_mask (h / bh * bh) (w / bw * bw)).
Qed.

(** What [pad_or_crop] returns, by edge method. *)
Lemma resize_aligned data mask (h w bh bw : nat) (edge_method : string) :
  rect h w data → 0 < h → h mod bh = 0 → w mod bw = 0 →
  pad_or_crop data mask (bh, bw) edge_method
  = Ok ({| ma_data := data; ma_mask := default (no_mask data) mask |},
        h / bh, w / bw).
Proof.
  intros Hd Hh Hy Hx. unfold pad_or_crop. cbn [fst snd].
  rewrite (rect_ncols h w data) by done.
  destruct Hd as [-> _]. rewrite Hy, Hx. simpl. by destruct mask.
Qed.

Lemma resize_pad data mask (h w bh bw : nat) :
  rect h w data → 0 < h → 0 < bh → 0 < bw →
  ¬ (h mod bh = 0 ∧ w mod bw = 0) →
  pad_or_crop data mask (bh, bw) "pad"
  = Ok (_pad_data data mask (bh, bw) (h mod bh) (w mod bw),
        ceil_div h bh, ceil_div w bw).
Proof.
  intros Hd Hh Hbh Hbw Hextra. unfold pad_or_crop. cbn [fst snd].
  rewrite (rect_ncols h w data) by done.
  pose proof Hd as [Hlen _]. rewrite Hlen.
  rewrite decide_False by lia. rewrite decide_True by done.
  destruct (_pad_data_spec data None h w bh bw Hd I Hh Hbh Hbw) as (Hd' & _).
  assert (Hpos : 0 < ceil_div h bh * bh) by (rewrite ceil_div_mul by done; lia).
  unfold _pad_data in *. cbn [ma_data fst snd] in *.
  rewrite (rect_ncols _ _ _ Hd' Hpos). destruct Hd' as [-> _].
  by rewrite !Nat.div_mul by lia.
Qed.

Lemma resize_crop data mask (h w bh bw : nat) :
  rect h w data → 0 < h →
  ¬ (h mod bh = 0 ∧ w mod bw = 0) →
  pad_or_crop data mask (bh, bw) "crop"
  = Ok (_crop_data data mask (bh, bw) (h / bh) (w / bw), h / bh, w / bw).
Proof.
  intros Hd Hh Hextra. unfold pad_or_crop. cbn [fst snd].
  rewrite (rect_ncols h w data) by done.
  destruct Hd as [-> _].
  rewrite decide_False by lia. rewrite decide_False by done.
  by rewrite decide_True by done.
Qed.

Lemma resize_invalid data mask (h w bh bw : nat) (edge_method : string) :
  rect h w data → 0 < h →
  ¬ (h mod bh = 0 ∧ w mod bw = 0) →
  edge_method ≠ "pad"%string → edge_method ≠ "crop"%string →
  pad_or_crop data mask (bh, bw) edge_method = Err InvalidEdgePolicy.
Proof.
  intros Hd Hh Hextra Hpad Hcrop. unfold pad_or_crop. cbn [fst snd].
  rewrite (rect_ncols h w data) by done.
  destruct Hd as [-> _].
  rewrite decide_False by lia. by rewrite !decide_False by done.
Qed.

End Resize.

(** ** The mesh table *)

Section Grid.
Context {A : Type}.

Lemma flat_map_seq_length (g : nat → nat → A) (nx s ny : nat) :
  length (flat_map (λ r, g r <$> seq 0 nx) (seq s ny)) = ny * nx.
Proof.
  revert s. induction ny as [|ny IH]; intros s; simpl; [done|].
  rewrite length_app, length_fmap, length_seq, IH. done.
Qed.

Lemma flat_map_seq_lookup (g : nat → nat → A) (nx s ny r c : nat) :
  r < ny → c < nx →
  flat_map (λ r, g r <$> seq 0 nx) (seq s ny) !! (r * nx + c) = Some (g (s + r) c).
Proof.
  revert s r. induction ny as [|ny IH]; intros s r Hr Hc; [lia|]. simpl.
  destruct r as [|r].
  - rewrite lookup_app_l by (rewrite length_fmap, length_seq; lia).
    rewrite list_lookup_fmap, lookup_seq_lt by lia. simpl. do 2 f_equal. lia.
  - rewrite lookup_app_r by (rewrite length_fmap, length_seq; lia).
    rewrite length_fmap, length_seq.
    replace (S r * nx + c - nx) with (r * nx + c) by lia.
    rewrite IH by lia. do 2 f_equal. lia.
Qed.

Lemma length_grid (ny nx : nat) (g : nat → nat → A) : length (grid ny nx g) = ny * nx.
Proof. apply flat_map_seq_length. Qed.

Lemma lookup_grid (ny nx : nat) (g : nat → nat → A) (r c : nat) :
  r < ny → c < nx → grid ny nx g !! (r * nx + c) = Some (g r c).
Proof. intros. unfold grid. by rewrite flat_map_seq_lookup. Qed.

Lemma lookup_grid_flat (ny nx : nat) (g : nat → nat → A) (k : nat) :
  k < ny * nx → grid ny nx g !! k = Some (g (k / nx) (k mod nx)).
Proof.
  intros Hk. assert (0 < nx) by nia.
  rewrite <- (lookup_grid ny nx g (k / nx) (k mod nx)).
  - f_equal. pose proof (Nat.div_mod_eq k nx). lia.
  - apply Nat.Div0.div_lt_upper_bound. lia.
  - apply Nat.mod_upper_bound. lia.
Qed.

Lemma elem_of_grid (ny nx : nat) (g : nat → nat → A) (x : A) :
  x ∈ grid ny nx g ↔ ∃ r c, r < ny ∧ c < nx ∧ x = g r c.
Proof.
  split.
  - intros Hx. apply list_elem_of_lookup in Hx as [k Hk].
    assert (k < ny * nx) as Hlt
      by (rewrite <- (length_grid ny nx g); by eapply lookup_lt_Some).
    assert (0 < nx) by nia.
    rewrite lookup_grid_flat in Hk by done. injection Hk as <-.
    exists (k / nx), (k mod nx). split; [|split; [|done]].
    + apply Nat.Div0.div_lt_upper_bound. lia.
    + apply Nat.mod_upper_bound. lia.
  - intros (r & c & Hr & Hc & ->). eapply list_elem_of_lookup_2.
    by apply lookup_grid.
Qed.

Lemma length_concat_uniform (ll : list (list A)) (w : nat) :
  Forall (λ l, length l = w) ll → length (concat ll) = length ll * w.
Proof.
  induction 1 as [|l ll Hl _ IH]; simpl; [done|].
  rewrite length_app, IH, Hl. done.
Qed.

Lemma Forall_concat (P : A → Prop) (ll : list (list A)) :
  Forall (Forall P) ll → Forall P (concat ll).
Proof. induction 1; simpl; [constructor|]. by apply Forall_app. Qed.

End Grid.

Lemma Forall2_concat {A B : Type} (R : A → B → Prop) (l1 : list (list A))
    (l2 : list (list B)) :
  Forall2 (Forall2 R) l1 l2 → Forall2 R (concat l1) (concat l2).
Proof. induction 1; simpl; [constructor|]. by apply Forall2_app. Qed.

Section MeshTable.
Context {T : Type}.
Implicit Types (a : list (list T)).

Lemma length_mesh_table ny bh nx bw a :
  length (mesh_table ny bh nx bw a) = ny * nx.
Proof. apply length_grid. Qed.

Lemma length_mesh_row h w a bh bw r c :
  rect h w a → r * bh + bh ≤ h → c * bw + bw ≤ w →
  length (mesh_row bh bw r c a) = bh * bw.
Proof.
  intros [Hh Hw] Hr Hc. unfold mesh_row.
  rewrite (length_concat_uniform _ bw).
  - rewrite length_fmap, length_take, length_drop, Nat.min_l by lia. done.
  - apply Forall_fmap, Forall_take, Forall_drop.
    eapply Forall_impl; [exact Hw|]. intros row Hrow. simpl in *.
    rewrite length_take, length_drop. lia.
Qed.

(** Every row of the mesh table of an array of [ny * bh] by [nx * bw]
    pixels holds [bh * bw] pixels. *)
Lemma mesh_table_rows ny bh nx bw a :
  rect (ny * bh) (nx * bw) a →
  Forall (λ row, length row = bh * bw) (mesh_table ny bh nx bw a).
Proof.
  intros Ha. apply Forall_forall. intros row Hrow.
  apply elem_of_grid in Hrow as (r & c & Hr & Hc & ->).
  apply (length_mesh_row (ny * bh) (nx * bw)); [done|nia|nia].
Qed.

Lemma Forall_mesh_row (P : T → Prop) a bh bw r c :
  Forall (Forall P) a → Forall P (mesh_row bh bw r c a).
Proof.
  intros Ha. unfold mesh_row. apply Forall_concat, Forall_fmap, Forall_take, Forall_drop.
  eapply Forall_impl; [exact Ha|]. intros row Hrow. simpl.
  by apply Forall_take, Forall_drop.
Qed.

Lemma Forall_mesh_table (P : T → Prop) ny bh nx bw a :
  Forall (Forall P) a → Forall (Forall P) (mesh_table ny bh nx bw a).
Proof.
  intros Ha. apply Forall_forall. intros row Hrow.
  apply elem_of_grid in Hrow as (r & c & Hr & Hc & ->).
  by apply Forall_mesh_row.
Qed.

Lemma rect_Forall (P : T → Prop) h w a :
  rect h w a →
  (∀ i j, i < h → j < w → ∃ x, pixel a i j = Some x ∧ P x) →
  Forall (Forall P) a.
Proof.
  intros Ha Hpix. apply Forall_lookup. intros i row Hrow.
  apply Forall_lookup. intros j x Hx.
  assert (i < h) as Hi by (destruct Ha as [<- _]; by eapply lookup_lt_Some).
  assert (j < w) as Hj
    by (rewrite <- (rect_lookup h w a i row Ha Hrow); by eapply lookup_lt_Some).
  destruct (Hpix i j Hi Hj) as (x' & Hx' & HP).
  unfold pixel in Hx'. rewrite Hrow in Hx'. simpl in Hx'. congruence.
Qed.

End MeshTable.

Lemma Forall2_mesh_row {T U : Type} (R : T → U → Prop)
    (a : list (list T)) (b : list (list U)) bh bw r c :
  Forall2 (Forall2 R) a b →
  Forall2 R (mesh_row bh bw r c a) (mesh_row bh bw r c b).
Proof.
  intros Hab. unfold mesh_row.
  apply Forall2_concat, Forall2_fmap, Forall2_take, Forall2_drop.
  eapply Forall2_impl; [exact Hab|]. intros ra rb Hr. simpl.
  by apply Forall2_take, Forall2_drop.
Qed.

Lemma Forall2_mesh_table {T U : Type} (R : T → U → Prop)
    (a : list (list T)) (b : list (list U)) ny bh nx bw :
  Forall2 (Forall2 R) a b →
  Forall2 (Forall2 R) (mesh_table ny bh nx bw a) (mesh_table ny bh nx bw b).
Proof.
  intros Hab. apply Forall2_same_length_lookup. split.
  - by rewrite !length_mesh_table.
  - intros k ra rb Hra Hrb.
    assert (k < ny * nx) as Hk
      by (rewrite <- (length_mesh_table ny bh nx bw a); by eapply lookup_lt_Some).
    unfold mesh_table in *.
    rewrite lookup_grid_flat in Hra by done. rewrite lookup_grid_flat in Hrb by done.
    injection Hra as <-. injection Hrb as <-. by apply Forall2_mesh_row.
Qed.

Lemma rect_Forall2 {T U : Type} (R : T → U → Prop) h w
    (a : list (list T)) (b : list (list U)) :
  rect h w a → rect h w b →
  (∀ i j, i < h → j < w →
     ∃ x y, pixel a i j = Some x ∧ pixel b i j = Some y ∧ R x y) →
  Forall2 (Forall2 R) a b.
Proof.
  intros Ha Hb Hpix. apply Forall2_same_length_lookup.
  split; [destruct Ha as [-> _], Hb as [-> _]; done|].
  intros i ra rb Hra Hrb.
  assert (i < h) as Hi by (destruct Ha as [<- _]; by eapply lookup_lt_Some).
  pose proof (rect_lookup h w a i ra Ha Hra) as Hla.
  pose proof (rect_lookup h w b i rb Hb Hrb) as Hlb.
  apply Forall2_same_length_lookup. split; [lia|].
  intros j x y Hx Hy.
  assert (j < w) as Hj by (rewrite <- Hla; by eapply lookup_lt_Some).
  destruct (Hpix i j Hi Hj) as (x' & y' & Hx' & Hy' & HR).
  unfold pixel in Hx', Hy'. rewrite Hra in Hx'. rewrite Hrb in Hy'.
  simpl in *. congruence.
Qed.

(** ** Counting masked pixels *)

Lemma count_masked_le (row : list bool) : count_masked row ≤ length row.
Proof. apply length_filter. Qed.

Lemma count_masked_all (row : list bool) :
  count_masked row = length row ↔ Forall (λ b, b = true) row.
Proof.
  unfold count_masked. induction row as [|b row IH]; simpl; [by split|].
  rewrite filter_cons. pose proof (length_filter (λ b, b = true) row).
  case_decide as Hb; simpl.
  - rewrite Forall_cons. split; [intros [= ?]; tauto|]. intros [_ ?]. f_equal. tauto.
  - split; [lia|]. intros [? _]%Forall_cons. done.
Qed.

Lemma count_masked_mono (row1 row2 : list bool) :
  Forall2 (λ a b : bool, a = true → b = true) row1 row2 →
  count_masked row1 ≤ count_masked row2.
Proof.
  unfold count_masked. induction 1 as [|a b r1 r2 Hab _ IH]; simpl; [done|].
  rewrite !filter_cons. repeat case_decide; simpl; try lia. tauto.
Qed.

(** ** Results *)

Lemma bind_Ok {A B : Type} (m : result A) (f : A → result B) (b : B) :
  m ≫= f = Ok b ↔ ∃ a, m = Ok a ∧ f a = Ok b.
Proof.
  destruct m as [a|e]; simpl.
  - split; [eauto|]. by intros (a' & [= <-] & ?).
  - split; [done|]. by intros (? & ? & _).
Qed.

Lemma bind_Err {A B : Type} (m : result A) (f : A → result B) (e : error) :
  m ≫= f = Err e ↔ m = Err e ∨ ∃ a, m = Ok a ∧ f a = Err e.
Proof.
  destruct m as [a|e']; simpl.
  - split; [eauto|]. intros [?|(a' & [= <-] & ?)]; done.
  - split; [intros [= ->]; eauto|]. intros [[= ->]|(? & ? & _)]; done.
Qed.

(** ** Preparing the mesh data *)

Section Prepare.
Context {V : Type} `{Numeric V}.
Implicit Types (data : list (list V)) (mask : option (list (list bool)))
  (p : float64).

Lemma _select_meshes_good p A (tbl : masked_array V) :
  _select_meshes p A tbl
  = if decide (good_meshes p A (ma_mask tbl) = [])
    then Err (AllMeshesExcluded (threshold_npixels p A) p)
    else Ok (good_meshes p A (ma_mask tbl)).
Proof.
  unfold _select_meshes, good_meshes.
  destruct (np_where _) as [|i l]; by repeat case_decide.
Qed.

(** In all three cases the resized array is made of whole meshes, and its
    mask is the input mask inside the image and [True] outside of it. *)
Lemma resize_Ok data mask (h w bh bw : nat) (edge_method : string) ma ny nx :
  rect h w data → mask_rect h w mask → 0 < h → 0 < w →
  0 < bh ≤ h → 0 < bw ≤ w →
  pad_or_crop data mask (bh, bw) edge_method = Ok (ma, ny, nx) →
  0 < ny ∧ 0 < nx
  ∧ rect (ny * bh) (nx * bw) (ma_data ma) ∧ rect (ny * bh) (nx * bw) (ma_mask ma)
  ∧ (∀ i j, i < ny * bh → j < nx * bw →
       pixel (ma_mask ma) i j
       = Some (if decide (i < h ∧ j < w) then mask_at mask i j else true)).
Proof.
  intros Hd Hm Hh Hw Hbh Hbw Hres.
  assert (Hfy : 0 < h / bh) by (apply Nat.div_str_pos; lia).
  assert (Hfx : 0 < w / bw) by (apply Nat.div_str_pos; lia).
  destruct (decide (h mod bh = 0 ∧ w mod bw = 0)) as [[Hy Hx]|Hextra].
  - rewrite (resize_aligned data mask h w bh bw) in Hres by done.
    injection Hres as <- <- <-. cbn [ma_data ma_mask].
    pose proof (Nat.div_mod_eq h bh). pose proof (Nat.div_mod_eq w bw).
    replace (h / bh * bh) with h by lia. replace (w / bw * bw) with w by lia.
    split; [done|]. split; [done|]. split; [done|]. split.
    + destruct mask; simpl; [done|by apply rect_no_mask].
    + intros i j Hi Hj. rewrite decide_True by done. destruct mask as [m|]; simpl.
      * by apply (pixel_mask_at h w (Some m)).
      * by apply (pixel_no_mask h w).
  - destruct (decide (edge_method = "pad"%string)) as [->|Hpad];
      [|destruct (decide (edge_method = "crop"%string)) as [->|Hcrop]].
    + rewrite (resize_pad data mask h w bh bw) in Hres by (done || lia).
      injection Hres as <- <- <-.
      destruct (_pad_data_spec data mask h w bh bw) as (Hd' & Hm' & _ & Hpix);
        try done; try lia.
      pose proof (ceil_div_mul h bh ltac:(lia)).
      pose proof (ceil_div_mul w bw ltac:(lia)).
      split; [nia|]. split; [nia|]. done.
    + rewrite (resize_crop data mask h w bh bw) in Hres by done.
      injection Hres as <- <- <-.
      destruct (_crop_data_spec data mask h w bh bw) as (Hd' & Hm' & _ & Hpix);
        try done.
      split; [done|]. split; [done|]. split; [done|]. split; [done|].
      intros i j Hi Hj. rewrite Hpix by done.
      pose proof (floor_div_mul_le h bh). pose proof (floor_div_mul_le w bw).
      by rewrite decide_True by lia.
    + by rewrite (resize_invalid data mask h w bh bw) in Hres.
Qed.

(** [pad_or_crop] succeeds unless the edge method is invalid and needed. *)
Lemma resize_succeeds data mask (h w bh bw : nat) (edge_method : string) :
  rect h w data → 0 < h → 0 < bh → 0 < bw →
  edge_method = "pad"%string ∨ edge_method = "crop"%string ∨ aligned h w (bh, bw) →
  ∃ ma, pad_or_crop data mask (bh, bw) edge_method
        = Ok (ma, (grid_shape h w (bh, bw) edge_method).1,
                  (grid_shape h w (bh, bw) edge_method).2).
Proof.
  intros Hd Hh Hbh Hbw Hem. unfold grid_shape. cbn [fst snd].
  destruct (decide (h mod bh = 0 ∧ w mod bw = 0)) as [[Hy Hx]|Hextra].
  - rewrite (resize_aligned data mask h w bh bw) by done.
    rewrite !ceil_div_exact by done. case_decide; eauto.
  - destruct Hem as [->|[->|?]]; [| |done].
    + rewrite (resize_pad data mask h w bh bw) by done. eauto.
    + rewrite (resize_crop data mask h w bh bw) by done. eauto.
Qed.

Lemma ma_index_Ok (tbl : masked_array V) (idx : list nat) (r : masked_array V) :
  ma_index tbl idx = Ok r ↔
  Forall2 (λ i x, ma_data tbl !! i = Some x) idx (ma_data r)
  ∧ Forall2 (λ i x, ma_mask tbl !! i = Some x) idx (ma_mask r).
Proof.
  unfold ma_index. rewrite bind_Ok. setoid_rewrite bind_Ok.
  setoid_rewrite fancy_index_Ok. split.
  - intros (d & Hd & m & Hm & [= <-]). done.
  - intros [Hd Hm]. exists (ma_data r). split; [done|].
    exists (ma_mask r). split; [done|]. by destruct r.
Qed.

Lemma ma_index_succeeds (tbl : masked_array V) (idx : list nat) :
  length (ma_data tbl) = length (ma_mask tbl) →
  Forall (λ i, i < length (ma_mask tbl)) idx →
  ∃ r, ma_index tbl idx = Ok r.
Proof.
  intros Hlen Hidx. unfold ma_index.
  destruct (fancy_index_in_range (ma_data tbl) idx) as [d ->];
    [by rewrite Hlen|].
  destruct (fancy_index_in_range (ma_mask tbl) idx) as [m ->]; [done|].
  simpl. eauto.
Qed.

End Prepare.

(** ** The constructor's checks and attributes *)

Section Init.
Context {V : Type} `{Numeric V}.
Implicit Types (rq : request V).

Lemma shape_differs_rect (h w : nat) m (data : list (list V)) :
  rect h w data → 0 < h → mask_rect h w m → shape_differs m data = false.
Proof.
  intros Hd Hh Hm. destruct m as [m|]; [|done]. simpl in *.
  rewrite (rect_shape h w m), (rect_shape h w data) by done.
  apply bool_decide_eq_false_2. intros Hne. by apply Hne.
Qed.

Lemma valid_request_check h w rq :
  valid_request h w rq → check_arguments rq = Ok ().
Proof.
  intros (Hd & Hh & Hw & Hm & Hc & _ & _ & Hp0 & Hp100). unfold check_arguments.
  rewrite !(shape_differs_rect h w) by done.
  by rewrite (F64Facts.leb_not_ltb _ _ Hp0), (F64Facts.leb_not_ltb _ _ Hp100).
Qed.

Lemma mask_at_combine h w (m c : option (list (list bool))) i j :
  mask_rect h w m → mask_rect h w c → i < h → j < w →
  mask_at (_combine_masks m c) i j = mask_at m i j || mask_at c i j.
Proof.
  intros Hm Hc Hi Hj. destruct m as [m|], c as [c|]; simpl in *;
    rewrite ?orb_false_r; try done.
  destruct (rect_pixel_is_Some h w m i j Hm Hi Hj) as [x Hx].
  destruct (rect_pixel_is_Some h w c i j Hc Hi Hj) as [y Hy].
  by rewrite (pixel_logical_or m c i j x y Hx Hy), Hx, Hy.
Qed.

Lemma mask_rect_combine h w (m c : option (list (list bool))) :
  mask_rect h w m → mask_rect h w c → mask_rect h w (_combine_masks m c).
Proof.
  intros Hm Hc. destruct m as [m|], c as [c|]; simpl in *; try done.
  by apply rect_logical_or.
Qed.

(** The clamped box size of a valid request. *)
Lemma valid_request_box h w rq :
  valid_request h w rq →
  let self := init_attributes rq in
  (0 < (box_size self).1 ≤ h) ∧ (0 < (box_size self).2 ≤ w)
  ∧ box_npixels self = (box_size self).1 * (box_size self).2
  ∧ rect h w (data self) ∧ mask_rect h w (mask self).
Proof.
  intros (Hd & Hh & Hw & Hm & Hc & Hb1 & Hb2 & _). simpl.
  rewrite (rect_ncols h w (arg_data rq)) by done.
  pose proof Hd as [Hlen _]. rewrite Hlen.
  repeat split; try lia; try apply Hd. by apply mask_rect_combine.
Qed.

Lemma __init___Ok rq (b : Background2D V) :
  __init__ rq = Ok b ↔
  check_arguments rq = Ok ()
  ∧ self_attributes b = init_attributes rq
  ∧ prepare (init_attributes rq) = Ok (self_prepared b)
  ∧ _calc_bkg_bkgrms (init_attributes rq) (self_prepared b) = Ok (self_meshes b).
Proof.
  unfold __init__.
  change (_prepare_data _ _ _ _ _) with (prepare (init_attributes rq)).
  destruct (check_arguments rq) as [[]|e]; simpl; [|by split; [|intros (? & _)]].
  destruct (prepare (init_attributes rq)) as [pr|e]; simpl;
    [|by split; [|intros (_ & _ & ? & _)]].
  destruct (_calc_bkg_bkgrms (init_attributes rq) pr) as [ms|e] eqn:Hms; simpl.
  - split.
    + intros [= <-]. done.
    + intros (_ & Ha & [= Hpr] & Hms'). destruct b as [a pr' ms']. simpl in *.
      subst. rewrite Hms in Hms'. by injection Hms' as ->.
  - split; [done|]. intros (_ & _ & [= Hpr] & Hms'). subst. congruence.
Qed.

Lemma prepare_Ok (self : attributes V) (pr : prepared V) :
  prepare self = Ok pr ↔
  ∃ data_ma,
    pad_or_crop (data self) (mask self) (box_size self) (edge_method self)
      = Ok (data_ma, p_nyboxes pr, p_nxboxes pr)
    ∧ p_resized pr = data_ma
    ∧ p_nboxes pr = p_nxboxes pr * p_nyboxes pr
    ∧ _select_meshes (exclude_percentile self)
        ((box_size self).1 * (box_size self).2)
        {| ma_data := mesh_table (p_nyboxes pr) (box_size self).1 (p_nxboxes pr)
                        (box_size self).2 (ma_data data_ma);
           ma_mask := mesh_mask_table self data_ma (p_nyboxes pr) (p_nxboxes pr) |}
        = Ok (p_mesh_idx pr)
    ∧ ma_index
        {| ma_data := mesh_table (p_nyboxes pr) (box_size self).1 (p_nxboxes pr)
                        (box_size self).2 (ma_data data_ma);
           ma_mask := mesh_mask_table self data_ma (p_nyboxes pr) (p_nxboxes pr) |}
        (p_mesh_idx pr) = Ok (p_mesh_data pr).
Proof.
  unfold prepare, _prepare_data. rewrite bind_Ok. split.
  - intros ([[data_ma ny] nx] & Hres & Hrest).
    apply bind_Ok in Hrest as (idx & Hsel & Hrest).
    apply bind_Ok in Hrest as (md & Hmd & [= <-]). simpl. eauto 10.
  - intros (data_ma & Hres & Hma & Hnb & Hsel & Hmd).
    exists (data_ma, p_nyboxes pr, p_nxboxes pr). split; [done|].
    apply bind_Ok. exists (p_mesh_idx pr). split; [done|].
    apply bind_Ok. exists (p_mesh_data pr). split; [done|].
    destruct pr. simpl in *. by subst.
Qed.

End Init.

(** ** When every mesh is excluded *)

Lemma is_Ok_true {A : Type} (r : result A) : is_Ok r = true ↔ ∃ a, r = Ok a.
Proof.
  destruct r as [a|e]; simpl.
  - split; [eauto|done].
  - split; [done|]. by intros [? ?].
Qed.

Lemma good_meshes_nil p A (tbl : list (list bool)) :
  Forall (λ row, good_mesh p A (count_masked row) = false) tbl →
  good_meshes p A tbl = [].
Proof.
  intros Hall. unfold good_meshes.
  destruct (np_where _) as [|i l] eqn:E; [done|].
  assert (Hi : i ∈ np_where (good_mesh p A <$> (count_masked <$> tbl)))
    by (rewrite E; left).
  apply elem_of_np_where in Hi. rewrite !list_lookup_fmap in Hi.
  destruct (tbl !! i) as [row|] eqn:Hrow; [|done]. simpl in Hi.
  rewrite Forall_lookup in Hall. specialize (Hall i row Hrow). simpl in Hall.
  congruence.
Qed.

Lemma elem_of_good_meshes p A (tbl : list (list bool)) i :
  i ∈ good_meshes p A tbl
  ↔ ∃ row, tbl !! i = Some row ∧ good_mesh p A (count_masked row) = true.
Proof.
  unfold good_meshes. rewrite elem_of_np_where, !list_lookup_fmap.
  destruct (tbl !! i) as [row|]; simpl.
  - split; [intros [= Hg]; eauto|]. intros (row' & [= <-] & Hg). by f_equal.
  - split; [done|]. intros (? & ? & _). done.
Qed.

Lemma good_meshes_lt p A (tbl : list (list bool)) :
  Forall (λ i, i < length tbl) (good_meshes p A tbl).
Proof.
  apply Forall_forall. intros i Hi. apply elem_of_good_meshes in Hi as (row & Hrow & _).
  by eapply lookup_lt_Some.
Qed.

Lemma good_meshes_sorted p A (tbl : list (list bool)) :
  StronglySorted lt (good_meshes p A tbl).
Proof. apply np_where_sorted. Qed.

Section Excluded.
Context {V : Type} `{Numeric V}.
Implicit Types (rq : request V) (self : attributes V).

Lemma prepare_excluded self data_ma ny nx :
  pad_or_crop (data self) (mask self) (box_size self) (edge_method self)
    = Ok (data_ma, ny, nx) →
  good_meshes (exclude_percentile self) ((box_size self).1 * (box_size self).2)
              (mesh_mask_table self data_ma ny nx) = [] →
  prepare self
  = Err (AllMeshesExcluded
           (threshold_npixels (exclude_percentile self)
                              ((box_size self).1 * (box_size self).2))
           (exclude_percentile self)).
Proof.
  intros Hres Hnil. unfold prepare, _prepare_data. rewrite Hres.
  unfold mbind, result_bind. cbv zeta. rewrite _select_meshes_good.
  cbn [ma_mask]. unfold mesh_mask_table in Hnil. by rewrite decide_True by done.
Qed.

Lemma calc_excluded self (pr : prepared V) :
  good_meshes (exclude_percentile self) (box_npixels self)
    (ma_mask (sigma_clipped (sigma_clip self) (p_mesh_data pr))) = [] →
  _calc_bkg_bkgrms self pr
  = Err (AllMeshesExcluded
           (threshold_npixels (exclude_percentile self) (box_npixels self))
           (exclude_percentile self)).
Proof.
  intros Hnil. unfold _calc_bkg_bkgrms. cbv zeta. rewrite _select_meshes_good.
  by rewrite decide_True by done.
Qed.

(** The resized mask of a fully masked image is [True] everywhere, so each
    mesh has all of its pixels masked. *)
Lemma fully_masked_meshes h w rq data_ma ny nx :
  valid_request h w rq → fully_masked h w rq →
  let self := init_attributes rq in
  pad_or_crop (data self) (mask self) (box_size self) (edge_method self)
    = Ok (data_ma, ny, nx) →
  Forall (λ row, count_masked row = (box_size self).1 * (box_size self).2)
         (mesh_mask_table self data_ma ny nx).
Proof.
  intros Hv Hfull self Hres.
  destruct (valid_request_box h w rq Hv) as (Hb1 & Hb2 & _ & Hd & Hm).
  fold self in Hb1, Hb2, Hd, Hm.
  pose proof Hv as (_ & Hh & Hw & _).
  destruct (box_size self) as [bh bw] eqn:Hbs. cbn [fst snd] in *.
  destruct (resize_Ok _ _ h w bh bw _ _ _ _ Hd Hm Hh Hw Hb1 Hb2 Hres)
    as (Hny & Hnx & _ & Hm' & Hpix).
  assert (Hall : Forall (Forall (λ b, b = true)) (ma_mask data_ma)).
  { apply (rect_Forall _ (ny * bh) (nx * bw)); [done|].
    intros i j Hi Hj. eexists. split; [by apply Hpix|].
    case_decide as Hin; [|done]. apply Hfull; lia. }
  unfold mesh_mask_table. rewrite Hbs. cbn [fst snd].
  pose proof (mesh_table_rows ny bh nx bw _ Hm') as Hlen.
  pose proof (Forall_mesh_table _ ny bh nx bw _ Hall) as Htrue.
  apply Forall_forall. intros row Hrow.
  rewrite Forall_forall in Hlen, Htrue.
  rewrite <- (Hlen row Hrow). apply count_masked_all. by apply Htrue.
Qed.

End Excluded.

(** ** Index selection keeps the order *)

Lemma sublist_fancy_index_from {A : Type} (l : list A) (idx : list nat) (r : list A)
    (n : nat) :
  Forall2 (λ i x, l !! i = Some x) idx r →
  StronglySorted lt idx → Forall (λ i, n ≤ i) idx →
  r `sublist_of` drop n l.
Proof.
  intros Hr. revert n. induction Hr as [|i x idx r Hx _ IH]; intros n Hs Hn.
  - apply sublist_nil_l.
  - apply StronglySorted_inv in Hs as [Hs Hi].
    apply Forall_cons in Hn as [Hni _].
    assert (Hr' : r `sublist_of` drop (S i) l).
    { apply IH; [done|]. eapply Forall_impl; [exact Hi|]. intros j Hj. simpl in *. lia. }
    replace (drop n l) with (take (i - n) (drop n l) ++ drop i l).
    + apply sublist_inserts_l. rewrite (drop_S l x i Hx). by apply sublist_skip.
    + rewrite <- (take_drop (i - n) (drop n l)) at 2. f_equal.
      rewrite drop_drop. f_equal. lia.
Qed.

Lemma sublist_fancy_index {A : Type} (l : list A) (idx : list nat) (r : list A) :
  fancy_index l idx = Ok r → StronglySorted lt idx → r `sublist_of` l.
Proof.
  intros Hr Hs. apply fancy_index_Ok in Hr.
  apply (sublist_fancy_index_from l idx r 0 Hr Hs).
  apply Forall_forall. intros. lia.
Qed.

Lemma StronglySorted_sublist {A : Type} (R : relation A) (l1 l2 : list A) :
  l1 `sublist_of` l2 → StronglySorted R l2 → StronglySorted R l1.
Proof.
  induction 1 as [|x l1 l2 Hsub IH|x l1 l2 Hsub IH]; intros Hs.
  - constructor.
  - apply StronglySorted_inv in Hs as [Hs Hx]. constructor; [by apply IH|].
    apply Forall_forall. intros y Hy. rewrite Forall_forall in Hx.
    apply Hx. by eapply elem_of_sublist.
  - apply StronglySorted_inv in Hs as [Hs _]. by apply IH.
Qed.

Lemma StronglySorted_lt_NoDup (l : list nat) : StronglySorted lt l → NoDup l.
Proof.
  induction 1 as [|x l _ IH Hx]; constructor; [|done].
  intros Hin. rewrite Forall_forall in Hx. specialize (Hx x Hin). lia.
Qed.

Lemma fancy_index_seq {A : Type} (l : list A) :
  fancy_index l (seq 0 (length l)) = Ok l.
Proof.
  apply fancy_index_Ok. apply Forall2_same_length_lookup. split.
  - by rewrite length_seq.
  - intros i j x Hj Hx. apply lookup_seq in Hj as [-> _]. done.
Qed.

Lemma fancy_index_length {A : Type} (l : list A) (idx : list nat) (r : list A) :
  fancy_index l idx = Ok r → length r = length idx.
Proof. intros Hr%fancy_index_Ok. symmetry. by eapply Forall2_length. Qed.

Lemma fancy_index_Forall {A : Type} (P : A → Prop) (l : list A) (idx : list nat)
    (r : list A) :
  fancy_index l idx = Ok r → Forall P l → Forall P r.
Proof.
  intros Hr%fancy_index_Ok Hl. apply Forall_forall. intros x Hx.
  apply list_elem_of_lookup in Hx as [k Hk].
  destruct (Forall2_lookup_r _ _ _ _ _ Hr Hk) as (i & _ & Hi).
  rewrite Forall_forall in Hl. apply Hl. by eapply list_elem_of_lookup_2.
Qed.

Lemma count_masked_not_all (row : list bool) :
  count_masked row ≠ length row → ∃ j, row !! j = Some false.
Proof.
  intros Hne. rewrite count_masked_all in Hne.
  apply not_Forall_Exists in Hne; [|apply _].
  apply Exists_exists in Hne as (b & Hb & Hnb).
  apply list_elem_of_lookup in Hb as [j Hj]. exists j. simpl in Hnb.
  by destruct b.
Qed.

(** ** The two passes of the selection *)

Section Calc.
Context {V : Type} `{Numeric V}.
Implicit Types (rq : request V) (self : attributes V) (pr : prepared V)
  (ms : meshes V).

(** What a successful [_prepare_data] of a valid request gives. *)
Lemma prepare_valid h w rq pr :
  valid_request h w rq →
  let self := init_attributes rq in
  let A := box_npixels self in
  prepare self = Ok pr →
  0 < p_nyboxes pr ∧ 0 < p_nxboxes pr
  ∧ p_nboxes pr = p_nxboxes pr * p_nyboxes pr
  ∧ p_mesh_idx pr
    = good_meshes (exclude_percentile self) A
        (mesh_mask_table self (p_resized pr) (p_nyboxes pr) (p_nxboxes pr))
  ∧ p_mesh_idx pr ≠ []
  ∧ Forall (λ i, i < p_nboxes pr) (p_mesh_idx pr)
  ∧ fancy_index (mesh_mask_table self (p_resized pr) (p_nyboxes pr) (p_nxboxes pr))
                (p_mesh_idx pr) = Ok (ma_mask (p_mesh_data pr))
  ∧ length (ma_data (p_mesh_data pr)) = length (p_mesh_idx pr)
  ∧ length (ma_mask (p_mesh_data pr)) = length (p_mesh_idx pr)
  ∧ Forall (λ r, length r = A) (ma_data (p_mesh_data pr))
  ∧ Forall (λ r, length r = A) (ma_mask (p_mesh_data pr)).
Proof.
  intros Hv self A Hpr.
  destruct (valid_request_box h w rq Hv) as (Hb1 & Hb2 & _ & Hd & Hm).
  fold self in Hb1, Hb2, Hd, Hm.
  pose proof Hv as (_ & Hh & Hw & _).
  apply prepare_Ok in Hpr as (data_ma & Hres & Hma & Hnb & Hsel & Hidx).
  subst data_ma.
  rewrite (surjective_pairing (box_size self)) in Hres.
  destruct (resize_Ok _ _ h w _ _ _ _ _ _ Hd Hm Hh Hw Hb1 Hb2 Hres)
    as (Hny & Hnx & Hd' & Hm' & _).
  rewrite _select_meshes_good in Hsel. cbn [ma_mask] in Hsel.
  case_decide as Hnil; [done|]. injection Hsel as Hsel.
  change ((box_size self).1 * (box_size self).2) with A in *.
  apply ma_index_Ok in Hidx as [Hid Him]. cbn [ma_data ma_mask] in Hid, Him.
  split; [done|]. split; [done|]. split; [done|]. split; [done|].
  split; [by rewrite <- Hsel|]. split.
  { rewrite <- Hsel, Hnb. eapply Forall_impl; [apply good_meshes_lt|].
    intros i Hi. simpl in Hi. unfold mesh_mask_table in Hi.
    rewrite length_mesh_table in Hi. lia. }
  split; [by apply fancy_index_Ok|].
  split; [symmetry; by eapply Forall2_length|].
  split; [symmetry; by eapply Forall2_length|].
  split.
  - eapply (fancy_index_Forall _ _ (p_mesh_idx pr)); [by apply fancy_index_Ok|].
    by apply mesh_table_rows.
  - eapply (fancy_index_Forall _ _ (p_mesh_idx pr)); [by apply fancy_index_Ok|].
    by apply mesh_table_rows.
Qed.

(** The table after sigma clipping has the rows and the row length of the
    table before. *)
Lemma sigma_clipped_rows (sc : option (SigmaClip V)) (tbl : masked_array V) (A : nat) :
  keeps_length sc →
  length (ma_data tbl) = length (ma_mask tbl) →
  Forall (λ r, length r = A) (ma_data tbl) →
  Forall (λ r, length r = A) (ma_mask tbl) →
  ma_data (sigma_clipped sc tbl) = ma_data tbl
  ∧ length (ma_mask (sigma_clipped sc tbl)) = length (ma_mask tbl)
  ∧ Forall (λ r, length r = A) (ma_mask (sigma_clipped sc tbl)).
Proof.
  intros Hk Hlen Hd Hm. destruct sc as [c|]; simpl; [|done].
  split; [done|]. split; [rewrite length_zip_with; lia|].
  apply Forall_forall. intros r Hr. apply list_elem_of_lookup in Hr as [k Hr].
  apply lookup_zip_with_Some in Hr as (vals & m & -> & Hvals & Hmk).
  rewrite Forall_forall in Hd. rewrite Forall_forall in Hm.
  assert (length vals = A) by (apply Hd; by eapply list_elem_of_lookup_2).
  assert (length m = A) by (apply Hm; by eapply list_elem_of_lookup_2).
  rewrite (Hk c vals m); [done|done|lia].
Qed.

(** What a successful [_calc_bkg_bkgrms] computed. *)
Lemma _calc_bkg_bkgrms_Ok self pr ms :
  _calc_bkg_bkgrms self pr = Ok ms →
  let clipped := sigma_clipped (sigma_clip self) (p_mesh_data pr) in
  ∃ idx,
    _select_meshes (exclude_percentile self) (box_npixels self) clipped = Ok idx
    ∧ fancy_index (p_mesh_idx pr) idx = Ok (mesh_idx ms)
    ∧ ma_index clipped idx = Ok (_data_sigclip ms)
    ∧ unravel_index (mesh_idx ms) (p_nyboxes pr) (p_nxboxes pr)
      = Ok (mesh_yidx ms, mesh_xidx ms)
    ∧ _bkg1d ms = call_estimator (bkg_estimator self) (_data_sigclip ms)
    ∧ _bkgrms1d ms = call_estimator (bkgrms_estimator self) (_data_sigclip ms)
    ∧ (if decide (length (_bkg1d ms) = p_nboxes pr) then
         (∃ mk, _make_2d_array (mesh_idx ms) (mesh_yidx ms) (mesh_xidx ms)
                  (p_nyboxes pr) (p_nxboxes pr) (p_nboxes pr) (_bkg1d ms)
                = Ok (_background_mesh_unfiltered ms, mk))
         ∧ (∃ mk, _make_2d_array (mesh_idx ms) (mesh_yidx ms) (mesh_xidx ms)
                  (p_nyboxes pr) (p_nxboxes pr) (p_nboxes pr) (_bkgrms1d ms)
                = Ok (_background_rms_mesh_unfiltered ms, mk))
       else
         _background_mesh_unfiltered ms
         = _interpolate_meshes (mesh_yidx ms) (mesh_xidx ms) (p_nyboxes pr)
             (p_nxboxes pr) (_bkg1d ms) default_n_neighbors default_power default_reg
         ∧ _background_rms_mesh_unfiltered ms
           = _interpolate_meshes (mesh_yidx ms) (mesh_xidx ms) (p_nyboxes pr)
               (p_nxboxes pr) (_bkgrms1d ms) default_n_neighbors default_power
               default_reg)
    ∧ (background_mesh ms, background_rms_mesh ms)
      = if decide (filter_size self ≠ (1, 1))
        then _filter_meshes (filter_size self) (filter_threshold self)
               (_background_mesh_unfiltered ms) (_background_rms_mesh_unfiltered ms)
        else (_background_mesh_unfiltered ms, _background_rms_mesh_unfiltered ms).
Proof.
  unfold _calc_bkg_bkgrms. cbv zeta. intros Hms.
  apply bind_Ok in Hms as (idx & Hsel & Hms). exists idx. split; [done|].
  apply bind_Ok in Hms as (midx & Hmidx & Hms).
  apply bind_Ok in Hms as (dsc & Hdsc & Hms).
  apply bind_Ok in Hms as ([yidx xidx] & Hun & Hms).
  apply bind_Ok in Hms as ([bkg bkgrms] & Hbkg & Hms).
  injection Hms as <-. cbn [mesh_idx _data_sigclip mesh_yidx mesh_xidx _bkg1d
    _bkgrms1d _background_mesh_unfiltered _background_rms_mesh_unfiltered
    background_mesh background_rms_mesh].
  repeat (split; [done|]). split.
  - case_decide as Hlen.
    + apply bind_Ok in Hbkg as ([b mb] & Hb & Hbkg).
      apply bind_Ok in Hbkg as ([r mr] & Hr & Hbkg).
      injection Hbkg as <- <-. eauto.
    + by injection Hbkg as <- <-.
  - by destruct (if decide (filter_size self ≠ (1, 1)) then _ else _).
Qed.

(** The final mesh index of a valid request: a part of the first index, in
    increasing order, with one row of clipped data and one value of each
    estimator per mesh. *)
Lemma calc_valid h w rq pr ms :
  valid_request h w rq →
  let self := init_attributes rq in
  prepare self = Ok pr → _calc_bkg_bkgrms self pr = Ok ms →
  mesh_idx ms `sublist_of` p_mesh_idx pr
  ∧ StronglySorted lt (mesh_idx ms)
  ∧ Forall (λ i, i < p_nboxes pr) (mesh_idx ms)
  ∧ length (ma_data (_data_sigclip ms)) = length (mesh_idx ms)
  ∧ length (ma_mask (_data_sigclip ms)) = length (mesh_idx ms)
  ∧ length (_bkg1d ms) = length (mesh_idx ms)
  ∧ length (_bkgrms1d ms) = length (mesh_idx ms).
Proof.
  intros Hv self Hpr Hms.
  destruct (prepare_valid h w rq pr Hv Hpr)
    as (_ & _ & _ & Hidx1 & _ & Hlt & _).
  fold self in Hidx1.
  apply _calc_bkg_bkgrms_Ok in Hms
    as (idx & Hsel & Hmidx & Hdsc & _ & Hb & Hr & _).
  pose proof (select_meshes_sorted _ _ _ _ Hsel) as Hsorted.
  assert (Hsub : mesh_idx ms `sublist_of` p_mesh_idx pr)
    by by eapply sublist_fancy_index.
  assert (Hs1 : StronglySorted lt (p_mesh_idx pr))
    by (rewrite Hidx1; apply good_meshes_sorted).
  apply ma_index_Ok in Hdsc as [Hdd Hdm].
  assert (Hl1 : length (ma_data (_data_sigclip ms)) = length (mesh_idx ms)).
  { rewrite <- (Forall2_length _ _ _ Hdd). symmetry. by eapply fancy_index_length. }
  assert (Hl2 : length (ma_mask (_data_sigclip ms)) = length (mesh_idx ms)).
  { rewrite <- (Forall2_length _ _ _ Hdm). symmetry. by eapply fancy_index_length. }
  split; [done|]. split; [by eapply StronglySorted_sublist|].
  split.
  { apply Forall_forall. intros i Hi. rewrite Forall_forall in Hlt.
    apply Hlt. by eapply elem_of_sublist. }
  split; [done|]. split; [done|].
  rewrite Hb, Hr. unfold call_estimator. rewrite !length_zip_with. lia.
Qed.

End Calc.

(** ** Scattering values into the mesh grid *)

Section Scatter.
Context {T : Type}.
Implicit Types (a : list (list T)).

Lemma rect_set_pixel h w a y x (v : T) : rect h w a → rect h w (set_pixel y x v a).
Proof.
  intros [Hh Hw]. unfold set_pixel. split; [by rewrite length_alter|].
  apply Forall_lookup. intros i r Hr. rewrite Forall_lookup in Hw.
  rewrite list_lookup_alter in Hr. case_decide as Hiy.
  - subst i. destruct (a !! y) as [r'|] eqn:Hr'; [|done]. simpl in Hr.
    injection Hr as <-. rewrite length_insert. by apply (Hw y).
  - by apply (Hw i).
Qed.

Lemma pixel_set_pixel_eq h w a y x (v : T) :
  rect h w a → y < h → x < w → pixel (set_pixel y x v a) y x = Some v.
Proof.
  intros Ha Hy Hx. unfold pixel, set_pixel.
  destruct (lookup_lt_is_Some_2 a y) as [r Hr]; [destruct Ha; lia|].
  rewrite list_lookup_alter_eq, Hr. simpl.
  apply list_lookup_insert_eq. by rewrite (rect_lookup h w a y r).
Qed.

Lemma pixel_set_pixel_ne a y x (v : T) i j :
  (i, j) ≠ (y, x) → pixel (set_pixel y x v a) i j = pixel a i j.
Proof.
  intros Hne. unfold pixel, set_pixel.
  destruct (decide (i = y)) as [->|Hi].
  - rewrite list_lookup_alter_eq. destruct (a !! y) as [r|]; [|done]. simpl.
    apply list_lookup_insert_ne. congruence.
  - by rewrite list_lookup_alter_ne.
Qed.

Lemma rect_foldl_scatter h w (l : list (nat * nat * T)) a :
  rect h w a → rect h w (foldl scatter_step a l).
Proof.
  revert a. induction l as [|[[y x] v] l IH]; intros a Ha; [done|].
  simpl. apply IH. by apply rect_set_pixel.
Qed.

Lemma pixel_foldl_scatter_other (l : list (nat * nat * T)) a i j :
  (i, j) ∉ l.*1 → pixel (foldl scatter_step a l) i j = pixel a i j.
Proof.
  revert a. induction l as [|[[y x] v] l IH]; intros a Hnot; [done|].
  simpl in *. apply not_elem_of_cons in Hnot as [Hne Hnot].
  rewrite IH by done. by apply pixel_set_pixel_ne.
Qed.

Lemma pixel_foldl_scatter h w (l : list (nat * nat * T)) a i j v :
  rect h w a → i < h → j < w → NoDup (l.*1) → (i, j, v) ∈ l →
  pixel (foldl scatter_step a l) i j = Some v.
Proof.
  revert a. induction l as [|[[y x] v'] l IH]; intros a Ha Hi Hj Hnd Hin.
  - by apply not_elem_of_nil in Hin.
  - simpl in *. apply NoDup_cons in Hnd as [Hnot Hnd].
    apply elem_of_cons in Hin as [[= <- <- <-]|Hin].
    + rewrite pixel_foldl_scatter_other by done.
      by apply (pixel_set_pixel_eq h w).
    + apply IH; try done. by apply rect_set_pixel.
Qed.

Lemma scatter_foldl (yidx xidx : list nat) (values : list T) a :
  scatter yidx xidx values a
  = foldl scatter_step a (zip (zip yidx xidx) values).
Proof. done. Qed.

(** After [a[yidx, xidx] = values] with distinct coordinates inside the
    array, the pixel at the [k]-th coordinate holds the [k]-th value. *)
Lemma pixel_scatter h w (yidx xidx : list nat) (values : list T) a k y x v :
  rect h w a → NoDup (zip yidx xidx) → length values = length yidx →
  length xidx = length yidx →
  yidx !! k = Some y → xidx !! k = Some x → values !! k = Some v →
  y < h → x < w →
  pixel (scatter yidx xidx values a) y x = Some v.
Proof.
  intros Ha Hnd Hlv Hlx Hy Hx Hv Hyh Hxw. rewrite scatter_foldl.
  apply (pixel_foldl_scatter h w); try done.
  - rewrite fst_zip; [done|]. rewrite length_zip_with. lia.
  - apply list_elem_of_lookup. exists k.
    apply lookup_zip_Some. split; [|done]. by apply lookup_zip_Some.
Qed.

Lemma rect_scatter h w (yidx xidx : list nat) (values : list T) a :
  rect h w a → rect h w (scatter yidx xidx values a).
Proof. intros Ha. rewrite scatter_foldl. by apply rect_foldl_scatter. Qed.

Lemma rect_reshape_2d ny nx (l : list T) :
  length l = ny * nx → rect ny nx (reshape_2d ny nx l).
Proof.
  intros Hlen. unfold reshape_2d. split; [by rewrite length_fmap, length_seq|].
  apply Forall_fmap, Forall_forall. intros r Hr. apply elem_of_seq in Hr. simpl.
  rewrite length_take, length_drop. nia.
Qed.

Lemma pixel_reshape_2d ny nx (l : list T) y x :
  y < ny → x < nx → pixel (reshape_2d ny nx l) y x = l !! (y * nx + x).
Proof.
  intros Hy Hx. unfold pixel, reshape_2d.
  rewrite list_lookup_fmap, lookup_seq_lt by done. simpl.
  by rewrite lookup_take_lt, lookup_drop by done.
Qed.

End Scatter.

(** ** Unravelled mesh indices *)

Lemma unravel_index_Ok (idx : list nat) (ny nx : nat) (yidx xidx : list nat) :
  unravel_index idx ny nx = Ok (yidx, xidx) ↔
  Forall (λ i, i < ny * nx) idx
  ∧ yidx = (λ i, i / nx) <$> idx ∧ xidx = (λ i, i mod nx) <$> idx.
Proof.
  unfold unravel_index. case_decide as Hall.
  - split; [by intros [= <- <-]|]. by intros (_ & -> & ->).
  - split; [done|]. by intros [? _].
Qed.

Lemma zip_unravel (idx : list nat) (nx : nat) :
  zip ((λ i, i / nx) <$> idx) ((λ i, i mod nx) <$> idx)
  = (λ i, (i / nx, i mod nx)) <$> idx.
Proof. induction idx as [|i idx IH]; [done|]. csimpl. by rewrite IH. Qed.

Lemma NoDup_unravel (idx : list nat) (nx : nat) :
  NoDup idx → NoDup (zip ((λ i, i / nx) <$> idx) ((λ i, i mod nx) <$> idx)).
Proof.
  intros Hnd. rewrite zip_unravel. apply NoDup_fmap_2_strong; [|done].
  intros i j _ _ [= Hd Hm].
  rewrite (Nat.div_mod_eq i nx), (Nat.div_mod_eq j nx). by rewrite Hd, Hm.
Qed.

Lemma sorted_below_length (l : list nat) (n : nat) :
  StronglySorted lt l → Forall (λ i, i < n) l → length l ≤ n.
Proof.
  intros Hs Hlt. apply StronglySorted_lt_NoDup in Hs.
  assert (Hle : length l ≤ length (seq 0 n)); [|by rewrite length_seq in Hle].
  apply submseteq_length, NoDup_submseteq; [done|].
  intros i Hi. rewrite Forall_forall in Hlt. apply elem_of_seq.
  specialize (Hlt i Hi). lia.
Qed.

Lemma sorted_full (l : list nat) (n : nat) :
  StronglySorted lt l → Forall (λ i, i < n) l → length l = n → l = seq 0 n.
Proof.
  intros Hs Hlt Hlen.
  apply (StronglySorted_unique_strong lt);
    [intros; lia|done|apply StronglySorted_seq|].
  pose proof (StronglySorted_lt_NoDup l Hs) as Hnd.
  apply submseteq_length_Permutation; [|rewrite length_seq; lia].
  apply NoDup_submseteq; [done|].
  intros i Hi. rewrite Forall_forall in Hlt. apply elem_of_seq.
  specialize (Hlt i Hi). lia.
Qed.

(** ** Inverse-distance interpolation *)

Section IDW.
Context {V : Type} `{Numeric V}.

Lemma dist2_nonneg (a b : nat * nat) : (0 ≤ dist2 a b)%Z.
Proof. unfold dist2. nia. Qed.

Lemma dist2_refl (a : nat * nat) : dist2 a a = 0%Z.
Proof. unfold dist2. lia. Qed.

Lemma dist2_zero (a b : nat * nat) : dist2 a b = 0%Z → b = a.
Proof.
  destruct a as [a1 a2], b as [b1 b2]. unfold dist2. simpl. intros Hd.
  assert (Z.of_nat a1 - Z.of_nat b1 = 0)%Z by nia.
  assert (Z.of_nat a2 - Z.of_nat b2 = 0)%Z by nia.
  f_equal; lia.
Qed.

#[local] Instance nearer_trans (t : nat * nat) : Transitive (nearer (V:=V) t).
Proof. intros a b c. unfold nearer. lia. Qed.

#[local] Instance nearer_total (t : nat * nat) : Total (nearer (V:=V) t).
Proof. intros a b. unfold nearer. lia. Qed.

(** At a known coordinate the interpolator returns the value known there. *)
Lemma ShepardIDWInterpolator_exact (coordinates : list (nat * nat))
    (values : list V) (n_neighbors : nat) (power reg : float64)
    (k : nat) (t : nat * nat) (v : V) :
  0 < n_neighbors → NoDup coordinates →
  coordinates !! k = Some t → values !! k = Some v →
  ShepardIDWInterpolator coordinates values n_neighbors power reg t = v.
Proof.
  intros Hn Hnd Ht Hv. unfold ShepardIDWInterpolator.
  set (known := zip coordinates values).
  assert (Hin : (t, v) ∈ known).
  { apply list_elem_of_lookup. exists k. by apply lookup_zip_Some. }
  pose proof (StronglySorted_merge_sort (nearer t) known) as Hsorted.
  pose proof (merge_sort_Permutation (nearer t) known) as Hperm.
  rewrite <- Hperm in Hin.
  destruct (merge_sort (nearer t) known) as [|[c v'] rest] eqn:E.
  { by apply not_elem_of_nil in Hin. }
  destruct n_neighbors as [|n]; [lia|]. simpl.
  assert (Hc : dist2 t c = 0%Z).
  { apply StronglySorted_inv in Hsorted as [_ Hmin].
    apply elem_of_cons in Hin as [[= <- <-]|Hin]; [apply dist2_refl|].
    rewrite Forall_forall in Hmin. specialize (Hmin _ Hin).
    unfold nearer in Hmin. simpl in Hmin. rewrite dist2_refl in Hmin.
    pose proof (dist2_nonneg t c). lia. }
  rewrite decide_True by done.
  apply dist2_zero in Hc as ->.
  assert (Hin' : (t, v') ∈ known) by (rewrite <- Hperm; left).
  apply list_elem_of_lookup in Hin' as [k' Hk'].
  apply lookup_zip_Some in Hk' as [Ht' Hv'].
  assert (k' = k) as -> by by eapply NoDup_lookup. congruence.
Qed.

Lemma length_product_range ny nx : length (product_range ny nx) = ny * nx.
Proof. apply length_grid. Qed.

Lemma pixel__interpolate_meshes (mesh_yidx mesh_xidx : list nat) (ny nx : nat)
    (values : list V) (n_neighbors : nat) (power reg : float64) (y x : nat) :
  y < ny → x < nx →
  pixel (_interpolate_meshes mesh_yidx mesh_xidx ny nx values n_neighbors power reg)
        y x
  = Some (ShepardIDWInterpolator (zip mesh_yidx mesh_xidx) values
            n_neighbors power reg (y, x)).
Proof.
  intros Hy Hx. unfold _interpolate_meshes.
  rewrite pixel_reshape_2d by done.
  rewrite list_lookup_fmap. unfold product_range. by rewrite lookup_grid.
Qed.

End IDW.

(** ** The unfiltered mesh arrays *)

Section MeshArrays.
Context {V : Type} `{Numeric V}.

(** With every mesh in the index, [_make_2d_array] lays the values out in
    raster order and returns a plain array. *)
Lemma _make_2d_array_full (mesh_idx mesh_yidx mesh_xidx : list nat)
    (ny nx : nat) (values : list V) :
  StronglySorted lt mesh_idx →
  unravel_index mesh_idx ny nx = Ok (mesh_yidx, mesh_xidx) →
  length mesh_idx = nx * ny → length values = length mesh_idx →
  _make_2d_array mesh_idx mesh_yidx mesh_xidx ny nx (nx * ny) values
  = Ok (reshape_2d ny nx values, None).
Proof.
  intros Hs Hun Hlen Hlv. unfold _make_2d_array.
  rewrite decide_False by lia. rewrite decide_True by done. do 2 f_equal.
  apply unravel_index_Ok in Hun as (Hlt & -> & ->).
  assert (mesh_idx = seq 0 (ny * nx)) as ->
    by (apply sorted_full; [done|done|lia]).
  apply (rect_pixel_ext ny nx).
  - apply rect_scatter, rect_full.
  - apply rect_reshape_2d. rewrite length_seq in Hlv. lia.
  - intros y x Hy Hx. rewrite pixel_reshape_2d by done.
    assert (y * nx + x < ny * nx) as Hk by nia.
    destruct (lookup_lt_is_Some_2 values (y * nx + x)) as [v Hv];
      [rewrite length_seq in Hlv; lia|].
    rewrite Hv.
    apply (pixel_scatter ny nx _ _ _ _ (y * nx + x)); try done.
    + apply rect_full.
    + apply NoDup_unravel, NoDup_seq.
    + by rewrite length_fmap.
    + by rewrite !length_fmap.
    + rewrite list_lookup_fmap, lookup_seq_lt by done. simpl. f_equal.
      rewrite Nat.div_add_l by lia. rewrite Nat.div_small by done. lia.
    + rewrite list_lookup_fmap, lookup_seq_lt by done. simpl. f_equal.
      rewrite Nat.add_comm, Nat.Div0.mod_add. by apply Nat.mod_small.
Qed.

End MeshArrays.

(** ** Masking more pixels *)

Lemma sublist_filter_impl {A : Type} (P Q : A → Prop)
    `{∀ x, Decision (P x)} `{∀ x, Decision (Q x)} (l : list A) :
  (∀ x, x ∈ l → P x → Q x) → filter P l `sublist_of` filter Q l.
Proof.
  induction l as [|x l IH]; intros Himp; [done|].
  rewrite !filter_cons.
  assert (IH' : filter P l `sublist_of` filter Q l).
  { apply IH. intros y Hy. apply Himp. by right. }
  destruct (decide (P x)) as [HP|HP].
  - rewrite decide_True by (apply Himp; [left|done]). by apply sublist_skip.
  - destruct (decide (Q x)); [by apply sublist_cons|done].
Qed.

Lemma filter_all {A : Type} (P : A → Prop) `{∀ x, Decision (P x)} (l : list A) :
  Forall P l → filter P l = l.
Proof.
  induction 1 as [|x l Hx _ IH]; [done|].
  rewrite filter_cons, decide_True by done. by f_equal.
Qed.

(** A table with more masked pixels in every row has fewer good meshes. *)
Lemma good_meshes_mono p (A : nat) (tbl1 tbl2 : list (list bool)) :
  (Z.of_nat A < 2 ^ 53)%Z →
  Forall (λ row, length row = A) tbl2 →
  Forall2 (Forall2 (λ a b : bool, a = true → b = true)) tbl1 tbl2 →
  good_meshes p A tbl2 `sublist_of` good_meshes p A tbl1.
Proof.
  intros HA Hrows Hle. unfold good_meshes, np_where.
  rewrite !length_fmap, (Forall2_length _ _ _ Hle).
  apply sublist_filter_impl. intros i _.
  rewrite !list_lookup_fmap.
  destruct (tbl2 !! i) as [row2|] eqn:H2; [|done].
  destruct (Forall2_lookup_r _ _ _ _ _ Hle H2) as (row1 & H1 & Hrow).
  rewrite H1. simpl. intros [= Hg]. f_equal.
  apply (good_mesh_mono p A _ (count_masked row2)); try done.
  - by apply count_masked_mono.
  - rewrite Forall_forall in Hrows.
    rewrite <- (Hrows row2) by (by eapply list_elem_of_lookup_2).
    apply count_masked_le.
Qed.

Lemma good_meshes_all p (A : nat) (tbl : list (list bool)) :
  Forall (λ row, good_mesh p A (count_masked row) = true) tbl →
  good_meshes p A tbl = seq 0 (length tbl).
Proof.
  intros Hall. unfold good_meshes, np_where. rewrite !length_fmap.
  apply filter_all, Forall_forall. intros i Hi. apply elem_of_seq in Hi.
  destruct (lookup_lt_is_Some_2 tbl i) as [row Hrow]; [lia|].
  rewrite !list_lookup_fmap, Hrow. simpl. f_equal.
  rewrite Forall_forall in Hall. apply Hall. by eapply list_elem_of_lookup_2.
Qed.

Section Monotone.
Context {V : Type} `{Numeric V}.
Implicit Types (rq : request V) (data : list (list V))
  (mask : option (list (list bool))).

(** The mask plays no part in whether and to what grid the data are
    resized. *)
Lemma resize_any_mask data mask mask' (h w bh bw : nat) (edge_method : string)
    ma ny nx :
  rect h w data → 0 < h → 0 < bh → 0 < bw →
  pad_or_crop data mask (bh, bw) edge_method = Ok (ma, ny, nx) →
  ∃ ma', pad_or_crop data mask' (bh, bw) edge_method = Ok (ma', ny, nx).
Proof.
  intros Hd Hh Hbh Hbw Hres.
  destruct (decide (h mod bh = 0 ∧ w mod bw = 0)) as [[Hy Hx]|Hextra].
  - rewrite (resize_aligned data mask h w bh bw) in Hres by done.
    injection Hres as _ <- <-.
    rewrite (resize_aligned data mask' h w bh bw) by done. eauto.
  - destruct (decide (edge_method = "pad"%string)) as [->|Hpad];
      [|destruct (decide (edge_method = "crop"%string)) as [->|Hcrop]].
    + rewrite (resize_pad data mask h w bh bw) in Hres by done.
      injection Hres as _ <- <-.
      rewrite (resize_pad data mask' h w bh bw) by done. eauto.
    + rewrite (resize_crop data mask h w bh bw) in Hres by done.
      injection Hres as _ <- <-.
      rewrite (resize_crop data mask' h w bh bw) by done. eauto.
    + by rewrite (resize_invalid data mask h w bh bw) in Hres.
Qed.

(** The first mesh index under a mask is a part of the first mesh index
    under any mask that masks fewer pixels. *)
Lemma prepare_mono (h w : nat) rq (m1 m2 : option (list (list bool))) pr2 :
  valid_request h w (set_mask rq m1) → valid_request h w (set_mask rq m2) →
  (∀ i j, i < h → j < w → mask_at m1 i j = true → mask_at m2 i j = true) →
  (Z.of_nat (h * w) < 2 ^ 53)%Z →
  prepare (init_attributes (set_mask rq m2)) = Ok pr2 →
  ∃ pr1, prepare (init_attributes (set_mask rq m1)) = Ok pr1
         ∧ p_mesh_idx pr2 `sublist_of` p_mesh_idx pr1.
Proof.
  intros Hv1 Hv2 Hle Hsmall Hpr2.
  destruct (valid_request_box h w _ Hv1) as (Hb1 & Hb2 & _ & Hd & Hm1).
  destruct (valid_request_box h w _ Hv2) as (_ & _ & _ & _ & Hm2).
  set (self1 := init_attributes (set_mask rq m1)) in *.
  set (self2 := init_attributes (set_mask rq m2)) in *.
  pose proof Hv1 as (_ & Hh & Hw & Hr1 & Hc & _).
  pose proof Hv2 as (_ & _ & _ & Hr2 & _).
  simpl in Hr1, Hr2, Hc.
  destruct (prepare_valid h w _ pr2 Hv2 Hpr2)
    as (_ & _ & _ & Hidx2 & Hne2 & _).
  fold self2 in Hidx2.
  apply prepare_Ok in Hpr2 as (ma2 & Hres2 & Hma2 & _). subst ma2.
  change (data self2) with (data self1) in Hres2.
  change (box_size self2) with (box_size self1) in Hres2.
  change (edge_method self2) with (edge_method self1) in Hres2.
  destruct (box_size self1) as [bh bw] eqn:Hbs. cbn [fst snd] in *.
  destruct (resize_any_mask _ _ (mask self1) h w bh bw _ _ _ _ Hd Hh
              ltac:(lia) ltac:(lia) Hres2) as [ma1 Hres1].
  destruct (resize_Ok _ _ h w bh bw _ _ _ _ Hd Hm1 Hh Hw Hb1 Hb2 Hres1)
    as (Hny & Hnx & Hd1 & Hmk1 & Hpix1).
  destruct (resize_Ok _ _ h w bh bw _ _ _ _ Hd Hm2 Hh Hw Hb1 Hb2 Hres2)
    as (_ & _ & Hd2 & Hmk2 & Hpix2).
  set (ny := p_nyboxes pr2) in *. set (nx := p_nxboxes pr2) in *.
  assert (Hmono : Forall2 (Forall2 (λ a b : bool, a = true → b = true))
                    (ma_mask ma1) (ma_mask (p_resized pr2))).
  { apply (rect_Forall2 _ (ny * bh) (nx * bw)); [done|done|].
    intros i j Hi Hj. do 2 eexists.
    split; [by apply Hpix1|]. split; [by apply Hpix2|].
    case_decide as Hin; [|done]. destruct Hin as [Hih Hjw].
    change (mask self1) with (_combine_masks m1 (arg_coverage_mask rq)).
    change (mask self2) with (_combine_masks m2 (arg_coverage_mask rq)).
    rewrite !(mask_at_combine h w) by done.
    rewrite !orb_true_iff. intros [?|?]; [left; by apply Hle|by right]. }
  assert (HA : (Z.of_nat (bh * bw) < 2 ^ 53)%Z) by nia.
  set (tbl1 := mesh_table ny bh nx bw (ma_mask ma1)).
  set (tbl2 := mesh_table ny bh nx bw (ma_mask (p_resized pr2))).
  assert (Hsub : good_meshes (exclude_percentile self1) (bh * bw) tbl2
                 `sublist_of` good_meshes (exclude_percentile self1) (bh * bw) tbl1).
  { apply good_meshes_mono; [done|by apply mesh_table_rows|].
    by apply Forall2_mesh_table. }
  change (box_npixels self2)
    with ((box_size self1).1 * (box_size self1).2) in Hidx2.
  unfold mesh_mask_table in Hidx2.
  change (box_size self2) with (box_size self1) in Hidx2.
  rewrite Hbs in Hidx2. cbn [fst snd] in Hidx2. fold ny nx tbl2 in Hidx2.
  change (exclude_percentile self2) with (exclude_percentile self1) in Hidx2.
  rewrite <- Hidx2 in Hsub.
  set (mesh_data1 := {| ma_data := mesh_table ny bh nx bw (ma_data ma1);
                        ma_mask := tbl1 |}).
  destruct (ma_index_succeeds mesh_data1
              (good_meshes (exclude_percentile self1) (bh * bw) tbl1))
    as [md1 Hmd1].
  { unfold mesh_data1, tbl1. cbn [ma_data ma_mask]. by rewrite !length_mesh_table. }
  { apply good_meshes_lt. }
  exists {| p_resized := ma1; p_nyboxes := ny; p_nxboxes := nx;
            p_nboxes := nx * ny;
            p_mesh_idx := good_meshes (exclude_percentile self1) (bh * bw) tbl1;
            p_mesh_data := md1 |}.
  split; [|done].
  apply prepare_Ok. exists ma1. cbn [p_resized p_nyboxes p_nxboxes p_nboxes
    p_mesh_idx p_mesh_data]. rewrite Hbs.
  split; [done|]. split; [done|]. split; [done|].
  unfold mesh_mask_table. rewrite Hbs. cbn [fst snd]. fold tbl1 mesh_data1.
  split; [|done].
  rewrite _select_meshes_good. cbn [ma_mask].
  rewrite decide_False; [done|].
  intros Hnil. change (ma_mask mesh_data1) with tbl1 in Hnil.
  rewrite Hnil in Hsub. apply sublist_nil_r in Hsub. done.
Qed.

(** Without sigma clipping the second pass keeps every mesh of the first,
    and the calculation succeeds. *)
Lemma calc_no_clip (h w : nat) rq pr :
  valid_request h w rq → arg_sigma_clip rq = None →
  prepare (init_attributes rq) = Ok pr →
  ∃ ms, _calc_bkg_bkgrms (init_attributes rq) pr = Ok ms
        ∧ mesh_idx ms = p_mesh_idx pr.
Proof.
  intros Hv Hsc Hpr. set (self := init_attributes rq) in *.
  destruct (prepare_valid h w rq pr Hv Hpr)
    as (_ & _ & Hnb & Hidx & Hne & Hlt & Hrows & Hld & Hlm & _).
  fold self in Hidx, Hrows.
  assert (Hgood : good_meshes (exclude_percentile self) (box_npixels self)
                    (ma_mask (p_mesh_data pr)) = seq 0 (length (p_mesh_idx pr))).
  { rewrite <- Hlm. apply good_meshes_all, Forall_forall. intros row Hrow.
    apply list_elem_of_lookup in Hrow as [k Hk].
    apply fancy_index_Ok in Hrows.
    destruct (Forall2_lookup_r _ _ _ _ _ Hrows Hk) as (i & Hi & Hrow).
    assert (i ∈ p_mesh_idx pr) as Hin by by eapply list_elem_of_lookup_2.
    rewrite Hidx in Hin. apply elem_of_good_meshes in Hin as (row' & Hrow' & Hg).
    congruence. }
  unfold _calc_bkg_bkgrms. cbv zeta.
  change (sigma_clip self) with (arg_sigma_clip rq). rewrite Hsc. cbn [sigma_clipped].
  rewrite _select_meshes_good, Hgood.
  rewrite decide_False
    by (destruct (p_mesh_idx pr); [done|simpl; discriminate]).
  cbn [mbind result_bind]. rewrite fancy_index_seq. cbn [mbind result_bind].
  assert (Hmd : ma_index (p_mesh_data pr) (seq 0 (length (p_mesh_idx pr)))
                = Ok (p_mesh_data pr)).
  { unfold ma_index. rewrite <- Hld at 1. rewrite fancy_index_seq.
    cbn [mbind result_bind]. rewrite <- Hlm. rewrite fancy_index_seq.
    cbn [mbind result_bind]. by destruct (p_mesh_data pr). }
  rewrite Hmd. cbn [mbind result_bind].
  unfold unravel_index. rewrite decide_True by (rewrite Nat.mul_comm, <- Hnb; done).
  cbn [mbind result_bind].
  set (bkg1d := call_estimator (bkg_estimator self) (p_mesh_data pr)).
  set (rms1d := call_estimator (bkgrms_estimator self) (p_mesh_data pr)).
  assert (Hlb : length bkg1d = length (p_mesh_idx pr))
    by (unfold bkg1d, call_estimator; rewrite length_zip_with; lia).
  assert (Hlr : length rms1d = length (p_mesh_idx pr))
    by (unfold rms1d, call_estimator; rewrite length_zip_with; lia).
  destruct (decide (length bkg1d = p_nboxes pr)) as [Hfull|Hfull].
  - unfold _make_2d_array.
    rewrite (decide_False (P := length bkg1d ≠ _)) by lia.
    rewrite (decide_False (P := length rms1d ≠ _)) by lia.
    destruct (decide (length (p_mesh_idx pr) = p_nboxes pr));
      cbn [mbind result_bind]; eauto.
  - cbn [mbind result_bind]. eauto.
Qed.

End Monotone.

(** ** A grid of a single mesh *)

Section SingleMesh.
Context {V : Type} `{Numeric V}.

Lemma window_single (fs : nat * nat) (v : V) :
  0 < fs.1 → 0 < fs.2 → window fs [[v]] 0 0 = [v].
Proof.
  destruct fs as [yfs xfs]. cbn [fst snd]. intros Hy Hx. unfold window.
  pose proof (Nat.div_lt yfs 2 Hy ltac:(lia)).
  pose proof (Nat.div_lt xfs 2 Hx ltac:(lia)).
  change (length [[v]]) with 1. change (ncols [[v]]) with 1.
  replace (0 - yfs / 2) with 0 by lia.
  replace (0 - xfs / 2) with 0 by lia.
  replace ((0 + yfs - yfs / 2) `min` 1 - 0) with 1 by lia.
  replace ((0 + xfs - xfs / 2) `min` 1 - 0) with 1 by lia.
  done.
Qed.

#[local] Arguments window : simpl never.

Lemma _filter_meshes_single (fs : nat * nat) (threshold : option V) (b r : V) :
  median_laws V → 0 < fs.1 → 0 < fs.2 →
  _filter_meshes fs threshold [[b]] [[r]] = ([[b]], [[r]]).
Proof.
  intros Hlaws Hy Hx. unfold _filter_meshes. destruct threshold as [thr|].
  - assert (Hnz : nonzero_gt [[b]] thr = if gt b thr then [(0, 0)] else [])
      by (unfold nonzero_gt, np_where; simpl; by destruct (gt b thr)).
    rewrite Hnz. destruct (gt b thr); [|done].
    unfold _selective_filter. cbn [foldl].
    rewrite !window_single by done.
    by rewrite (proj1 (Hlaws b)), (proj1 (Hlaws r)).
  - unfold generic_filter_nanmedian. simpl. rewrite !window_single by done.
    by rewrite (proj2 (Hlaws b)), (proj2 (Hlaws r)).
Qed.

(** With a box of the shape of the image there is one mesh, and the
    low-resolution arrays hold its two statistics. *)
Lemma single_mesh_arrays (h w : nat) (rq : request V) (self : Background2D V) :
  valid_request h w rq → as_pair (arg_box_size rq) = (h, w) →
  median_laws V →
  0 < (as_pair (arg_filter_size rq)).1 → 0 < (as_pair (arg_filter_size rq)).2 →
  __init__ rq = Ok self →
  p_nboxes (self_prepared self) = 1
  ∧ mesh_idx (self_meshes self) = [0]
  ∧ ∃ b r, _bkg1d (self_meshes self) = [b] ∧ _bkgrms1d (self_meshes self) = [r]
           ∧ background_mesh (self_meshes self) = [[b]]
           ∧ background_rms_mesh (self_meshes self) = [[r]].
Proof.
  intros Hv Hbox Hlaws Hfy Hfx Hself.
  apply __init___Ok in Hself as (_ & _ & Hpr & Hms).
  set (pr := self_prepared self) in *. set (ms := self_meshes self) in *.
  destruct (calc_valid h w rq pr ms Hv Hpr Hms)
    as (_ & Hsorted & Hlt & _ & _ & Hlb & Hlr).
  destruct (prepare_valid h w rq pr Hv Hpr) as (_ & _ & Hnb & _).
  pose proof Hv as (Hd & Hh & Hw & _).
  assert (Hbs : box_size (init_attributes rq) = (h, w)).
  { simpl. rewrite Hbox. simpl. rewrite (rect_ncols h w _ Hd Hh).
    destruct Hd as [-> _]. f_equal; lia. }
  apply prepare_Ok in Hpr as (data_ma & Hres & _).
  rewrite Hbs in Hres.
  rewrite (resize_aligned _ _ h w h w) in Hres
    by (done || apply Nat.Div0.mod_same).
  rewrite !Nat.div_same in Hres by lia. injection Hres as _ Hny Hnx.
  rewrite <- Hny, <- Hnx in Hnb. simpl in Hnb.
  pose proof (sorted_below_length _ _ Hsorted Hlt) as Hle.
  apply _calc_bkg_bkgrms_Ok in Hms
    as (idx & Hsel & Hmidx & _ & Hun & _ & _ & Hgrid & Hfilt).
  apply _select_meshes_Ok in Hsel as [_ Hne].
  apply fancy_index_length in Hmidx.
  assert (Hlen : length (mesh_idx ms) = 1)
    by (destruct idx; [done|simpl in Hmidx; lia]).
  assert (Hidx : mesh_idx ms = [0]).
  { apply (sorted_full _ 1); [done|by rewrite <- Hnb|done]. }
  split; [done|]. split; [done|].
  rewrite decide_True in Hgrid by lia.
  destruct Hgrid as [[mk Hb] [mk' Hr]].
  rewrite Hnb in Hb, Hr. rewrite <- Hny, <- Hnx in Hb, Hr, Hun.
  rewrite (_make_2d_array_full _ _ _ 1 1) in Hb by (done || lia).
  rewrite (_make_2d_array_full _ _ _ 1 1) in Hr by (done || lia).
  injection Hb as Hb _. injection Hr as Hr _.
  destruct (_bkg1d ms) as [|b [|? ?]] eqn:Eb; simpl in Hlb; try lia.
  destruct (_bkgrms1d ms) as [|r [|? ?]] eqn:Er; simpl in Hlr; try lia.
  exists b, r. split; [done|]. split; [done|].
  rewrite <- Hb, <- Hr in Hfilt. cbn in Hfilt.
  change (filter_size (init_attributes rq)) with (as_pair (arg_filter_size rq)) in Hfilt.
  case_decide.
  - rewrite _filter_meshes_single in Hfilt by done. by injection Hfilt as -> ->.
  - by injection Hfilt as -> ->.
Qed.

End SingleMesh.

(** * The claims *)

Section Claims.
Context {V : Type} `{Numeric V}.


(** C3. For an image of shape [(h, w)] and a clamped box size [(bh, bw)]:
    with [edge_method='pad'] the resized array has shape
    [(ceil(h / bh) * bh, ceil(w / bw) * bw)] and its mask is the combined
    mask inside the image and [True] over exactly the padded trailing
    region; with [edge_method='crop'] the resized array has shape
    [(floor(h / bh) * bh, floor(w / bw) * bw)]; and when [h] and [w] are
    multiples of [bh] and [bw] the data and the mask are not resized. *)
Theorem resize_exact (data : list (list V)) (mask : option (list (list bool)))
    (h w bh bw : nat) (edge_method : string) :
  rect h w data → mask_rect h w mask → 0 < h → 0 < w →
  0 < bh ≤ h → 0 < bw ≤ w →
  (∃ ma, pad_or_crop data mask (bh, bw) "pad"%string
           = Ok (ma, ceil_div h bh, ceil_div w bw)
     ∧ shape (ma_data ma) = (ceil_div h bh * bh, ceil_div w bw * bw)
     ∧ rect (ceil_div h bh * bh) (ceil_div w bw * bw) (ma_data ma)
     ∧ rect (ceil_div h bh * bh) (ceil_div w bw * bw) (ma_mask ma)
     ∧ ∀ i j, i < ceil_div h bh * bh → j < ceil_div w bw * bw →
         pixel (ma_mask ma) i j
         = Some (if decide (i < h ∧ j < w) then mask_at mask i j else true))
  ∧ (∃ ma, pad_or_crop data mask (bh, bw) "crop"%string = Ok (ma, h / bh, w / bw)
     ∧ shape (ma_data ma) = (h / bh * bh, w / bw * bw)
     ∧ rect (h / bh * bh) (w / bw * bw) (ma_data ma)
     ∧ rect (h / bh * bh) (w / bw * bw) (ma_mask ma))
  ∧ (h mod bh = 0 → w mod bw = 0 →
     pad_or_crop data mask (bh, bw) edge_method
     = Ok ({| ma_data := data; ma_mask := default (no_mask data) mask |},
           h / bh, w / bw)).
Proof.
  intros Hd Hm Hh Hw Hbh Hbw. split; [|split].
  - destruct (resize_succeeds data mask h w bh bw "pad"%string) as [ma Hma];
      try done; try lia; [by left|].
    unfold grid_shape in Hma. rewrite decide_True in Hma by done.
    cbn [fst snd] in Hma. exists ma. split; [done|].
    destruct (resize_Ok data mask h w bh bw "pad"%string ma _ _ Hd Hm Hh Hw Hbh Hbw Hma)
      as (Hny & Hnx & Hd' & Hm' & Hpix).
    split; [|done]. apply rect_shape; [done|]. nia.
  - destruct (resize_succeeds data mask h w bh bw "crop"%string) as [ma Hma];
      try done; try lia; [by right; left|].
    unfold grid_shape in Hma. rewrite decide_False in Hma by done.
    cbn [fst snd] in Hma. exists ma. split; [done|].
    destruct (resize_Ok data mask h w bh bw "crop"%string ma _ _ Hd Hm Hh Hw Hbh Hbw Hma)
      as (Hny & Hnx & Hd' & Hm' & Hpix).
    split; [|done]. apply rect_shape; [done|]. nia.
  - intros Hy Hx. by apply (resize_aligned data mask h w bh bw).
Qed.

(** C9, as amended.  When the image shape is not a multiple of the box
    size on both axes and [edge_method] is neither ['pad'] nor ['crop'], the
    resize step and the constructor fail with InvalidEdgePolicy.  When the
    shape is a multiple of the box size, nothing is resized and
    [edge_method] is not looked at. *)
Theorem invalid_edge_method (h w : nat) (rq : request V) :
  valid_request h w rq →
  arg_edge_method rq ≠ "pad"%string → arg_edge_method rq ≠ "crop"%string →
  let self := init_attributes rq in
  (¬ aligned h w (box_size self) →
     pad_or_crop (data self) (mask self) (box_size self) (edge_method self)
       = Err InvalidEdgePolicy
     ∧ __init__ rq = Err InvalidEdgePolicy)
  ∧ (aligned h w (box_size self) →
     pad_or_crop (data self) (mask self) (box_size self) (edge_method self)
     = Ok ({| ma_data := data self;
              ma_mask := default (no_mask (data self)) (mask self) |},
           h / (box_size self).1, w / (box_size self).2)).
Proof.
  intros Hv Hpad Hcrop self.
  destruct (valid_request_box h w rq Hv) as (Hb1 & Hb2 & _ & Hd & Hm).
  fold self in Hb1, Hb2, Hd, Hm.
  pose proof Hv as (_ & Hh & Hw & _).
  destruct (box_size self) as [bh bw] eqn:Hbs. cbn [fst snd] in *.
  split.
  - intros Hna. unfold aligned in Hna. cbn [fst snd] in Hna.
    assert (Hres : pad_or_crop (data self) (mask self) (bh, bw) (edge_method self)
                   = Err InvalidEdgePolicy)
      by by apply (resize_invalid _ _ h w).
    split; [done|]. unfold __init__.
    rewrite (valid_request_check h w rq Hv). unfold mbind, result_bind. cbv zeta.
    change (init_attributes rq) with self. unfold _prepare_data.
    rewrite Hbs, Hres. done.
  - intros [Hy Hx]. cbn [fst snd] in *. by apply (resize_aligned _ _ h w).
Qed.

End Claims.

Section Claims_excluded.
Context {V : Type} `{Numeric V}.

(** C2. Whenever mesh selection yields an empty mesh index, on the first
    pass or after sigma clipping, the constructor fails with
    AllMeshesExcluded; the error carries the pixel threshold
    [exclude_percentile / 100. * box_npixels] and [exclude_percentile]; the
    constructor returns no object, so no surface is computed.  In particular
    this is what happens for an image whose combined mask is [True]
    everywhere, for every [exclude_percentile] in [[0, 100]]. *)
Theorem all_meshes_excluded (h w : nat) (rq : request V) :
  valid_request h w rq →
  let self := init_attributes rq in
  let p := exclude_percentile self in
  let failure : result (Background2D V) :=
    Err (AllMeshesExcluded (threshold_npixels p (box_npixels self)) p) in
  (∀ data_ma ny nx,
     pad_or_crop (data self) (mask self) (box_size self) (edge_method self)
       = Ok (data_ma, ny, nx) →
     good_meshes p (box_npixels self) (mesh_mask_table self data_ma ny nx) = [] →
     __init__ rq = failure)
  ∧ (∀ pr,
     prepare self = Ok pr →
     good_meshes p (box_npixels self)
       (ma_mask (sigma_clipped (sigma_clip self) (p_mesh_data pr))) = [] →
     __init__ rq = failure)
  ∧ (fully_masked h w rq →
     valid_edge_method rq ∨ aligned h w (box_size self) →
     __init__ rq = failure).
Proof.
  intros Hv self p failure.
  assert (Hfirst : ∀ data_ma ny nx,
     pad_or_crop (data self) (mask self) (box_size self) (edge_method self)
       = Ok (data_ma, ny, nx) →
     good_meshes p (box_npixels self) (mesh_mask_table self data_ma ny nx) = [] →
     __init__ rq = failure).
  { intros data_ma ny nx Hres Hnil. unfold __init__.
    rewrite (valid_request_check h w rq Hv). unfold mbind, result_bind. cbv zeta.
    change (_prepare_data _ _ _ _ _) with (prepare self).
    by rewrite (prepare_excluded self data_ma ny nx Hres Hnil). }
  split; [done|]. split.
  - intros pr Hpr Hnil. unfold __init__.
    rewrite (valid_request_check h w rq Hv). unfold mbind, result_bind. cbv zeta.
    change (_prepare_data _ _ _ _ _) with (prepare self). rewrite Hpr.
    change (init_attributes rq) with self.
    by rewrite (calc_excluded self pr Hnil).
  - intros Hfull Hedge.
    destruct (valid_request_box h w rq Hv) as (Hb1 & Hb2 & _ & Hd & Hm).
    fold self in Hb1, Hb2, Hd, Hm.
    pose proof Hv as (_ & Hh & Hw & _).
    destruct (resize_succeeds (data self) (mask self) h w
                (box_size self).1 (box_size self).2 (edge_method self))
      as [data_ma Hres]; [done|done|lia|lia| |].
    { destruct Hedge as [[?|?]|?]; [by left|by right; left|].
      right; right. by destruct (box_size self). }
    rewrite <- surjective_pairing in Hres.
    eapply Hfirst; [exact Hres|].
    apply good_meshes_nil.
    eapply Forall_impl;
      [exact (fully_masked_meshes h w rq data_ma _ _ Hv Hfull Hres)|].
    intros row Hrow. simpl in Hrow. change (box_npixels self)
      with ((box_size self).1 * (box_size self).2).
    rewrite Hrow. apply good_mesh_full.
Qed.

End Claims_excluded.

Section Claims_two_passes.
Context {V : Type} `{Numeric V}.

(** C7. The mesh selector runs twice: on the mesh table of the resized
    mask, and on the sigma-clipped rows of the meshes that passed.  The mesh
    index after sigma clipping keeps a part of the index before it, in the
    same increasing order; a mesh whose pixels are all masked after clipping
    is dropped; and every row that the two estimators receive has a pixel
    that is not masked, one row and one value per mesh of the final index. *)
Theorem two_pass_selection (h w : nat) (rq : request V) (pr : prepared V)
    (ms : meshes V) :
  valid_request h w rq → keeps_length (arg_sigma_clip rq) →
  let self := init_attributes rq in
  let p := exclude_percentile self in
  let clipped := sigma_clipped (sigma_clip self) (p_mesh_data pr) in
  prepare self = Ok pr → _calc_bkg_bkgrms self pr = Ok ms →
  p_mesh_idx pr
    = good_meshes p (box_npixels self)
        (mesh_mask_table self (p_resized pr) (p_nyboxes pr) (p_nxboxes pr))
  ∧ fancy_index (p_mesh_idx pr) (good_meshes p (box_npixels self) (ma_mask clipped))
    = Ok (mesh_idx ms)
  ∧ mesh_idx ms `sublist_of` p_mesh_idx pr
  ∧ mesh_idx ms ⊆ p_mesh_idx pr
  ∧ StronglySorted lt (mesh_idx ms)
  ∧ (∀ k i row,
       p_mesh_idx pr !! k = Some i → ma_mask clipped !! k = Some row →
       Forall (λ b, b = true) row → i ∉ mesh_idx ms)
  ∧ Forall (λ row, ∃ j, row !! j = Some false) (ma_mask (_data_sigclip ms))
  ∧ _bkg1d ms = call_estimator (bkg_estimator self) (_data_sigclip ms)
  ∧ _bkgrms1d ms = call_estimator (bkgrms_estimator self) (_data_sigclip ms)
  ∧ length (_bkg1d ms) = length (mesh_idx ms)
  ∧ length (_bkgrms1d ms) = length (mesh_idx ms).
Proof.
  intros Hv Hk self p clipped Hpr Hms. pose proof Hms as Hms0.
  destruct (prepare_valid h w rq pr Hv Hpr)
    as (_ & _ & _ & Hidx1 & _ & _ & _ & Hld & Hlm & Hrd & Hrm).
  fold self in Hidx1, Hrd, Hrm.
  destruct (sigma_clipped_rows (sigma_clip self) (p_mesh_data pr) (box_npixels self))
    as (Hcd & Hcl & Hcr); [done|lia|done|done|]. fold clipped in Hcd, Hcl, Hcr.
  apply _calc_bkg_bkgrms_Ok in Hms
    as (idx & Hsel & Hmidx & Hdsc & _ & Hb & Hr & _).
  fold clipped in Hsel, Hdsc.
  rewrite _select_meshes_good in Hsel. case_decide as Hnil; [done|].
  injection Hsel as <-.
  pose proof (good_meshes_sorted p (box_npixels self) (ma_mask clipped)) as Hsorted.
  assert (Hsub : mesh_idx ms `sublist_of` p_mesh_idx pr)
    by by eapply sublist_fancy_index.
  assert (Hs1 : StronglySorted lt (p_mesh_idx pr))
    by (rewrite Hidx1; apply good_meshes_sorted).
  apply ma_index_Ok in Hdsc as [Hdd Hdm].
  assert (Hgood : Forall (λ row, count_masked row ≠ length row)
                         (ma_mask (_data_sigclip ms))).
  { apply Forall_forall. intros row Hrow.
    apply list_elem_of_lookup in Hrow as [k' Hk'].
    destruct (Forall2_lookup_r _ _ _ _ _ Hdm Hk') as (k & Hkidx & Hrow).
    assert (k ∈ good_meshes p (box_npixels self) (ma_mask clipped)) as Hin
      by by eapply list_elem_of_lookup_2.
    apply elem_of_good_meshes in Hin as (row' & Hrow' & Hg).
    assert (row' = row) as -> by congruence.
    apply good_mesh_iff in Hg as [_ Hne].
    rewrite Forall_forall in Hcr.
    rewrite (Hcr row) by by eapply list_elem_of_lookup_2. done. }
  split; [done|]. split; [done|]. split; [done|].
  split; [by apply sublist_subseteq|].
  split; [by eapply StronglySorted_sublist|].
  split; [|split; [|split; [done|split; [done|]]]].
  - intros k i row Hki Hrow Hall Hin.
    apply fancy_index_Ok in Hmidx.
    apply list_elem_of_lookup in Hin as [k' Hk'].
    destruct (Forall2_lookup_r _ _ _ _ _ Hmidx Hk') as (k2 & Hk2 & Hi2).
    assert (k2 = k) as ->.
    { eapply NoDup_lookup; [by apply StronglySorted_lt_NoDup| |]; done. }
    assert (k ∈ good_meshes p (box_npixels self) (ma_mask clipped)) as Hgk
      by by eapply list_elem_of_lookup_2.
    apply elem_of_good_meshes in Hgk as (row' & Hrow' & Hg).
    assert (row' = row) as -> by congruence.
    apply good_mesh_iff in Hg as [_ Hne]. apply Hne.
    rewrite Forall_forall in Hcr.
    rewrite <- (Hcr row) by by eapply list_elem_of_lookup_2.
    by apply count_masked_all.
  - eapply Forall_impl; [exact Hgood|]. intros row Hrow.
    by apply count_masked_not_all.
  - destruct (calc_valid h w rq pr ms Hv Hpr Hms0) as (_ & _ & _ & _ & _ & ? & ?).
    done.
Qed.

End Claims_two_passes.

Section Claims_surfaces.
Context {V : Type} `{Numeric V}.
Variable interpolator : list (list V) → Background2D V → list (list V).

Lemma pixel_assign_where (h w : nat) (a : list (list V)) (m : list (list bool))
    (c : V) (r : list (list V)) (i j : nat) :
  well_shaped a → rect h w m → 0 < h →
  assign_where a m c = Ok r → i < h → j < w →
  pixel r i j = (if default false (pixel m i j) then Some c else pixel a i j).
Proof.
  intros Ha Hm Hh Hr Hi Hj. unfold assign_where in Hr.
  case_decide as Hshape; [|done]. injection Hr as <-.
  rewrite (rect_shape h w m Hm Hh) in Hshape. injection Hshape as Hlen Hnc.
  unfold well_shaped in Ha. rewrite <- Hlen, <- Hnc in Ha.
  destruct (rect_pixel_is_Some h w a i j Ha Hi Hj) as [x Hx].
  destruct (rect_pixel_is_Some h w m i j Hm Hi Hj) as [b Hb].
  rewrite Hx, Hb. simpl. unfold pixel in *.
  destruct (a !! i) as [ra|] eqn:Era; [|done].
  destruct (m !! i) as [rm|] eqn:Erm; [|done]. simpl in *.
  rewrite lookup_zip_with, Era. simpl. rewrite Erm. simpl.
  rewrite lookup_zip_with, Hx. simpl. rewrite Hb. simpl. by destruct b.
Qed.

(** C4. In the background and the background RMS surfaces of a
    constructed object, every pixel at which the coverage mask is [True]
    holds [fill_value], whatever array the interpolator returned. *)
Theorem coverage_fill (h w : nat) (rq : request V) (self : Background2D V)
    (surface : list (list V)) :
  valid_request h w rq →
  __init__ rq = Ok self →
  well_shaped (interpolator (background_mesh (self_meshes self)) self) →
  well_shaped (interpolator (background_rms_mesh (self_meshes self)) self) →
  background interpolator self = Ok surface
  ∨ background_rms interpolator self = Ok surface →
  ∀ i j, i < h → j < w →
    mask_at (arg_coverage_mask rq) i j = true →
    pixel surface i j = Some (arg_fill_value rq).
Proof.
  intros Hv Hself Hwb Hwr Hsurf i j Hi Hj Hcov.
  apply __init___Ok in Hself as (_ & Hattr & _).
  destruct Hv as (_ & Hh & _ & _ & Hc & _).
  assert (Hfill : ∀ a, well_shaped (interpolator a self) →
                       fill_coverage self (interpolator a self) = Ok surface →
                       pixel surface i j = Some (arg_fill_value rq)).
  { intros a Harr. unfold fill_coverage. rewrite Hattr. simpl.
    destruct (arg_coverage_mask rq) as [cm|]; [|done]. simpl in Hc, Hcov.
    intros Hassign.
    rewrite (pixel_assign_where h w _ cm _ surface i j Harr Hc Hh Hassign Hi Hj).
    by rewrite Hcov. }
  destruct Hsurf as [Hs|Hs]; [exact (Hfill _ Hwb Hs)|exact (Hfill _ Hwr Hs)].
Qed.

End Claims_surfaces.

Section Claims_gap_filling.
Context {V : Type} `{Numeric V}.

(** C5. The low-resolution arrays are made by IDW interpolation exactly
    when the final mesh index has fewer entries than there are meshes; with
    every mesh in the index they are the values of the estimators laid out
    in raster order, without interpolation.  At the coordinate of a mesh of
    the index the IDW interpolator returns the value of that mesh, for every
    [power] and [reg]. *)
Theorem gap_filling (h w : nat) (rq : request V) (pr : prepared V) (ms : meshes V) :
  valid_request h w rq →
  let self := init_attributes rq in
  let ny := p_nyboxes pr in
  let nx := p_nxboxes pr in
  prepare self = Ok pr → _calc_bkg_bkgrms self pr = Ok ms →
  length (mesh_idx ms) ≤ p_nboxes pr
  ∧ (length (mesh_idx ms) < p_nboxes pr →
     _background_mesh_unfiltered ms
     = _interpolate_meshes (mesh_yidx ms) (mesh_xidx ms) ny nx (_bkg1d ms)
         default_n_neighbors default_power default_reg
     ∧ _background_rms_mesh_unfiltered ms
       = _interpolate_meshes (mesh_yidx ms) (mesh_xidx ms) ny nx (_bkgrms1d ms)
           default_n_neighbors default_power default_reg)
  ∧ (length (mesh_idx ms) = p_nboxes pr →
     _background_mesh_unfiltered ms = reshape_2d ny nx (_bkg1d ms)
     ∧ _background_rms_mesh_unfiltered ms = reshape_2d ny nx (_bkgrms1d ms))
  ∧ (∀ (values : list V) (n_neighbors : nat) (power reg : float64) k i v,
       0 < n_neighbors →
       mesh_idx ms !! k = Some i → values !! k = Some v →
       ShepardIDWInterpolator (zip (mesh_yidx ms) (mesh_xidx ms)) values
         n_neighbors power reg (i / nx, i mod nx) = v
       ∧ pixel (_interpolate_meshes (mesh_yidx ms) (mesh_xidx ms) ny nx values
                  n_neighbors power reg) (i / nx) (i mod nx) = Some v).
Proof.
  intros Hv self ny nx Hpr Hms.
  destruct (calc_valid h w rq pr ms Hv Hpr Hms)
    as (_ & Hsorted & Hlt & _ & _ & Hlb & Hlr).
  destruct (prepare_valid h w rq pr Hv Hpr) as (Hny & Hnx & Hnb & _).
  fold ny in Hny. fold nx in Hnx, Hnb. fold ny in Hnb.
  apply _calc_bkg_bkgrms_Ok in Hms
    as (idx & _ & _ & _ & Hun & _ & _ & Hgrid & _).
  fold ny nx in Hun, Hgrid.
  pose proof (sorted_below_length _ _ Hsorted Hlt) as Hle.
  split; [done|]. split; [|split].
  - intros Hfewer. rewrite decide_False in Hgrid by lia. done.
  - intros Hall. rewrite decide_True in Hgrid by lia.
    destruct Hgrid as [[mk Hb] [mk' Hr]]. rewrite Hnb in Hb, Hr.
    rewrite _make_2d_array_full in Hb by (done || lia).
    rewrite _make_2d_array_full in Hr by (done || lia).
    injection Hb as <- _. injection Hr as <- _. done.
  - intros values n_neighbors power reg k i v Hn Hi Hval.
    apply unravel_index_Ok in Hun as (Hrange & Hy & Hx).
    assert (Hexact : ShepardIDWInterpolator (zip (mesh_yidx ms) (mesh_xidx ms))
                       values n_neighbors power reg (i / nx, i mod nx) = v).
    { apply (ShepardIDWInterpolator_exact _ _ _ _ _ k); try done.
      - rewrite Hy, Hx. by apply NoDup_unravel, StronglySorted_lt_NoDup.
      - apply lookup_zip_Some. rewrite Hy, Hx, !list_lookup_fmap, Hi. done. }
    split; [done|].
    rewrite pixel__interpolate_meshes; [by rewrite Hexact| |].
    + apply Nat.Div0.div_lt_upper_bound. rewrite Forall_forall in Hrange.
      specialize (Hrange i ltac:(by eapply list_elem_of_lookup_2)). lia.
    + apply Nat.mod_upper_bound. lia.
Qed.

End Claims_gap_filling.

Section Claims_monotone.
Context {V : Type} `{Numeric V}.

Lemma first_mesh_index_Some (rq : request V) (idx : list nat) :
  first_mesh_index rq = Some idx
  ↔ ∃ pr, prepare (init_attributes rq) = Ok pr ∧ p_mesh_idx pr = idx.
Proof.
  unfold first_mesh_index. destruct (prepare _) as [pr|e].
  - split; [intros [= <-]; eauto|]. by intros (pr' & [= <-] & <-).
  - split; [done|]. by intros (? & ? & _).
Qed.

Lemma final_mesh_index_Some (rq : request V) (idx : list nat) :
  final_mesh_index rq = Some idx
  ↔ ∃ self, __init__ rq = Ok self ∧ mesh_idx (self_meshes self) = idx.
Proof.
  unfold final_mesh_index. destruct (__init__ rq) as [self|e].
  - split; [intros [= <-]; eauto|]. by intros (self' & [= <-] & <-).
  - split; [done|]. by intros (? & ? & _).
Qed.

(** C8, as amended.  For two masks of which the second masks every pixel
    that the first masks, all other arguments equal: the mesh index of the
    first pass (the selection on the combined mask) under the second mask is
    a part of the one under the first mask; and so is the final mesh index
    when sigma clipping is disabled ([sigma_clip=None]). *)
Theorem mask_monotonicity (h w : nat) (rq : request V)
    (m1 m2 : option (list (list bool))) :
  valid_request h w (set_mask rq m1) → valid_request h w (set_mask rq m2) →
  (∀ i j, i < h → j < w → mask_at m1 i j = true → mask_at m2 i j = true) →
  (Z.of_nat (h * w) < 2 ^ 53)%Z →
  (∀ idx2, first_mesh_index (set_mask rq m2) = Some idx2 →
     ∃ idx1, first_mesh_index (set_mask rq m1) = Some idx1
             ∧ idx2 `sublist_of` idx1 ∧ idx2 ⊆ idx1)
  ∧ (arg_sigma_clip rq = None →
     ∀ idx2, final_mesh_index (set_mask rq m2) = Some idx2 →
       ∃ idx1, final_mesh_index (set_mask rq m1) = Some idx1
               ∧ idx2 `sublist_of` idx1 ∧ idx2 ⊆ idx1).
Proof.
  intros Hv1 Hv2 Hle Hsmall. split.
  - intros idx2 (pr2 & Hpr2 & <-)%first_mesh_index_Some.
    destruct (prepare_mono h w rq m1 m2 pr2 Hv1 Hv2 Hle Hsmall Hpr2)
      as (pr1 & Hpr1 & Hsub).
    exists (p_mesh_idx pr1). split; [apply first_mesh_index_Some; eauto|].
    split; [done|by apply sublist_subseteq].
  - intros Hsc idx2 (self2 & Hself2 & <-)%final_mesh_index_Some.
    apply __init___Ok in Hself2 as (_ & _ & Hpr2 & Hms2).
    destruct (calc_no_clip h w _ _ Hv2 Hsc Hpr2) as (ms2 & Hms2' & Hidx2).
    rewrite Hms2 in Hms2'. injection Hms2' as <-. rewrite Hidx2.
    destruct (prepare_mono h w rq m1 m2 _ Hv1 Hv2 Hle Hsmall Hpr2)
      as (pr1 & Hpr1 & Hsub).
    destruct (calc_no_clip h w _ _ Hv1 Hsc Hpr1) as (ms1 & Hms1 & Hidx1).
    exists (p_mesh_idx pr1). split; [|split; [done|by apply sublist_subseteq]].
    apply final_mesh_index_Some.
    exists {| self_attributes := init_attributes (set_mask rq m1);
              self_prepared := pr1; self_meshes := ms1 |}.
    split; [|done]. apply __init___Ok. cbn [self_attributes self_prepared self_meshes].
    split; [by apply (valid_request_check h w)|done].
Qed.

End Claims_monotone.

Section Claims_single_mesh.
Context {V : Type} `{Numeric V}.
Variable interpolator : list (list V) → Background2D V → list (list V).

Lemma assign_where_rect (h w : nat) (a : list (list V)) (m : list (list bool))
    (c : V) :
  rect h w a → rect h w m → 0 < h →
  ∃ r, assign_where a m c = Ok r ∧ rect h w r.
Proof.
  intros Ha Hm Hh. unfold assign_where.
  rewrite (rect_shape h w a), (rect_shape h w m) by done.
  rewrite decide_True by done. eexists. split; [done|].
  destruct Ha as [Hla Hwa], Hm as [Hlm Hwm]. split.
  - rewrite length_zip_with. lia.
  - apply Forall_forall. intros r Hr.
    apply list_elem_of_lookup in Hr as [i Hr].
    apply lookup_zip_with_Some in Hr as (ra & rm & -> & Hra & Hrm).
    rewrite length_zip_with.
    rewrite Forall_forall in Hwa. rewrite Forall_forall in Hwm.
    rewrite (Hwa ra), (Hwm rm) by (by eapply list_elem_of_lookup_2). lia.
Qed.

Lemma fill_coverage_constant (h w : nat) (rq : request V) (self : Background2D V)
    (v : V) :
  valid_request h w rq → self_attributes self = init_attributes rq →
  ∃ s, fill_coverage self (full h w v) = Ok s ∧ rect h w s
       ∧ (∀ i j, i < h → j < w →
            pixel s i j = Some (if mask_at (arg_coverage_mask rq) i j
                                then arg_fill_value rq else v))
       ∧ (arg_coverage_mask rq = None → s = full h w v).
Proof.
  intros (_ & Hh & _ & _ & Hc & _) Hattr. unfold fill_coverage. rewrite Hattr.
  simpl. destruct (arg_coverage_mask rq) as [cm|]; simpl in *.
  - destruct (assign_where_rect h w (full h w v) cm (arg_fill_value rq))
      as (s & Hs & Hrect); [apply rect_full|done|done|].
    exists s. split; [done|]. split; [done|]. split; [|done].
    intros i j Hi Hj.
    rewrite (pixel_assign_where h w (full h w v) cm (arg_fill_value rq) s i j);
      try done.
    + rewrite pixel_full by done. by destruct (default false (pixel cm i j)).
    + unfold well_shaped, full. rewrite length_replicate.
      destruct h; [lia|]. simpl. rewrite length_replicate. apply (rect_full (S h) w).
  - exists (full h w v). split; [done|]. split; [apply rect_full|].
    split; [|done]. intros i j Hi Hj. by apply pixel_full.
Qed.

(** C6, as amended.  When [box_size] equals the shape of the image and
    the constructor succeeds, there is a single mesh; with an interpolator
    that returns the constant image for a grid of one mesh, each final
    surface holds the statistic of that mesh at every pixel that the
    coverage mask does not mask, and [fill_value] at the pixels that it
    masks.  Without a coverage mask the two surfaces are constant. *)
Theorem single_mesh_surfaces (h w : nat) (rq : request V) (self : Background2D V) :
  valid_request h w rq → as_pair (arg_box_size rq) = (h, w) →
  median_laws V →
  0 < (as_pair (arg_filter_size rq)).1 → 0 < (as_pair (arg_filter_size rq)).2 →
  constant_on_single_mesh interpolator self →
  __init__ rq = Ok self →
  ∃ b r sb sr,
    _bkg1d (self_meshes self) = [b] ∧ _bkgrms1d (self_meshes self) = [r]
    ∧ background interpolator self = Ok sb
    ∧ background_rms interpolator self = Ok sr
    ∧ rect h w sb ∧ rect h w sr
    ∧ (∀ i j, i < h → j < w →
         pixel sb i j = Some (if mask_at (arg_coverage_mask rq) i j
                              then arg_fill_value rq else b)
         ∧ pixel sr i j = Some (if mask_at (arg_coverage_mask rq) i j
                                then arg_fill_value rq else r))
    ∧ (arg_coverage_mask rq = None → sb = full h w b ∧ sr = full h w r).
Proof.
  intros Hv Hbox Hlaws Hfy Hfx Hinterp Hself.
  destruct (single_mesh_arrays h w rq self Hv Hbox Hlaws Hfy Hfx Hself)
    as (_ & _ & b & r & Hb & Hr & Hbm & Hrm).
  apply __init___Ok in Hself as (_ & Hattr & _).
  pose proof Hv as (Hd & Hh & _).
  assert (Hconst : ∀ v, interpolator [[v]] self = full h w v).
  { intros v. rewrite Hinterp, Hattr. simpl.
    rewrite (rect_ncols h w _ Hd Hh). by destruct Hd as [-> _]. }
  destruct (fill_coverage_constant h w rq self b Hv Hattr) as (sb & Hsb & Hrb & Hpb & Hnb).
  destruct (fill_coverage_constant h w rq self r Hv Hattr) as (sr & Hsr & Hrr & Hpr & Hnr).
  exists b, r, sb, sr. unfold background, background_rms.
  rewrite Hbm, Hrm, !Hconst.
  repeat (split; [done|]). split; [|by split; auto].
  intros i j Hi Hj. split; auto.
Qed.

End Claims_single_mesh.

Section Claims_store.
Context {V : Type} `{Numeric V}.
Implicit Types (σ : store V) (args : arguments V) (l : loc).

Lemma lookup_store_sigma_clip_None σ l l' :
  store_sigma_clip_None l σ !! l'
  = if decide (l = l') then clear_obj <$> σ !! l else σ !! l'.
Proof. unfold store_sigma_clip_None. by rewrite lookup_alter. Qed.

Lemma load_optional_Some {A : Type} (load : loc → option A) (r : option loc)
    (x : option A) l :
  load_optional load r = Some x → r = Some l → load l = x.
Proof.
  intros Hload ->. simpl in Hload. destruct (load l); simpl in Hload; congruence.
Qed.

Lemma load_request_Some σ args (rq : request V) :
  load_request σ args = Some rq →
  (∃ a, σ !! ref_data args = Some (ObjArray a))
  ∧ (∀ l, ref_mask args = Some l → ∃ m, σ !! l = Some (ObjBoolArray m))
  ∧ (∀ l, ref_coverage_mask args = Some l → ∃ m, σ !! l = Some (ObjBoolArray m))
  ∧ (∀ l, ref_sigma_clip args = Some l → ∃ sc, σ !! l = Some (ObjSigmaClip sc))
  ∧ σ !! ref_bkg_estimator args = Some (ObjEstimator (arg_bkg_estimator rq))
  ∧ σ !! ref_bkgrms_estimator args = Some (ObjEstimator (arg_bkgrms_estimator rq)).
Proof.
  unfold load_request. intros Hload.
  apply bind_Some in Hload as (a & Ha & Hload).
  apply bind_Some in Hload as (m & Hm & Hload).
  apply bind_Some in Hload as (c & Hc & Hload).
  apply bind_Some in Hload as (sc & Hsc & Hload).
  apply bind_Some in Hload as (e1 & He1 & Hload).
  apply bind_Some in Hload as (e2 & He2 & Hload).
  injection Hload as <-. simpl.
  assert (Hbool : ∀ l x, load_bool_array σ l = x → is_Some x →
                         ∃ m, σ !! l = Some (ObjBoolArray m)).
  { intros l x. unfold load_bool_array.
    destruct (σ !! l) as [[]|]; intros <- [? [=]]; eauto. }
  split; [|split; [|split; [|split; [|split]]]].
  - unfold load_array in Ha. destruct (σ !! ref_data args) as [[]|]; try done. eauto.
  - intros l Hl. rewrite Hl in Hm. simpl in Hm.
    destruct (load_bool_array σ l) eqn:E; [|done]. eapply Hbool; eauto.
  - intros l Hl. rewrite Hl in Hc. simpl in Hc.
    destruct (load_bool_array σ l) eqn:E; [|done]. eapply Hbool; eauto.
  - intros l Hl. rewrite Hl in Hsc. simpl in Hsc. unfold load_sigma_clip in Hsc.
    destruct (σ !! l) as [[]|]; try done. eauto.
  - unfold load_estimator in He1.
    destruct (σ !! ref_bkg_estimator args) as [[]|]; try done. congruence.
  - unfold load_estimator in He2.
    destruct (σ !! ref_bkgrms_estimator args) as [[]|]; try done. congruence.
Qed.


End Claims_store.

(** * The claims on concrete inputs *)

Section Example_facts.
Import Examples.

Lemma clip_once_length (vals : list Z) (m : list bool) :
  length vals = length m → length (clip_once vals m) = length m.
Proof. intros Hlen. unfold clip_once. rewrite length_zip_with. lia. Qed.

Lemma clip_iter_length (n : nat) (vals : list Z) (m : list bool) :
  length vals = length m → length (clip_iter n vals m) = length m.
Proof.
  revert m. induction n as [|n IH]; intros m Hlen; simpl; [done|].
  case_decide; [done|].
  rewrite IH by (by rewrite clip_once_length).
  by apply clip_once_length.
Qed.

Lemma SIGMA_CLIP_keeps_length : keeps_length (Some SIGMA_CLIP).
Proof. intros c vals m [= <-] Hlen. by apply clip_iter_length. Qed.

Lemma median_laws_Z : median_laws Z.
Proof. intros v. split; reflexivity. Qed.

Lemma pixel_replicate_false (n i j : nat) :
  pixel [replicate n false] i j ≠ Some true.
Proof.
  unfold pixel. destruct i as [|i]; simpl; [|done].
  intros Hj. by apply lookup_replicate in Hj as [? _].
Qed.

Lemma default_eq_true_Some (o : option bool) :
  default false o = true → o = Some true.
Proof. by destruct o as [[]|]. Qed.

Lemma construct_store_after {V : Type} `{Numeric V} (σ : store V)
    (args : arguments V) :
  well_typed_call σ args = true →
  construct σ args = Some (store_after σ args, call_result σ args).
Proof.
  unfold well_typed_call, store_after, call_result, construct.
  destruct (load_request σ args) as [rq|]; [intros _|done]. simpl.
  by destruct (check_arguments rq).
Qed.

End Example_facts.

Ltac solve_concrete :=
  repeat match goal with |- _ ∧ _ => split end;
  first [ reflexivity | lia | discriminate | exact I
        | by vm_compute | repeat constructor ].

Section Witnesses.
Import Examples.

Lemma valid_request_masked : valid_request 3 5 request_masked.
Proof. unfold valid_request. solve_concrete. Qed.

Lemma valid_request_wrap_3x5 : valid_request 3 5 request_wrap_3x5.
Proof. unfold valid_request. solve_concrete. Qed.

Lemma valid_request_wrap_4x4 : valid_request 4 4 request_wrap_4x4.
Proof. unfold valid_request. solve_concrete. Qed.

Lemma valid_request_gap : valid_request 4 4 request_gap.
Proof. unfold valid_request. solve_concrete. Qed.

Lemma valid_request_coverage : valid_request 4 4 request_coverage.
Proof. unfold valid_request. solve_concrete. Qed.

Lemma valid_request_single : valid_request 1 2 request_single.
Proof. unfold valid_request. solve_concrete. Qed.

Lemma valid_request_1x38 (m : list (list bool)) :
  rect 1 38 m → valid_request 1 38 (set_mask request_1x38 (Some m)).
Proof. intros Hm. unfold valid_request. split; [|solve_concrete]; solve_concrete. Qed.

Lemma valid_request_1x38_noclip (m : list (list bool)) :
  rect 1 38 m → valid_request 1 38 (set_mask request_1x38_noclip (Some m)).
Proof. intros Hm. unfold valid_request. split; [|solve_concrete]; solve_concrete. Qed.

Lemma rect_mask_none_1x38 : rect 1 38 mask_none_1x38.
Proof. solve_concrete. Qed.

Lemma rect_mask_first_1x38 : rect 1 38 mask_first_1x38.
Proof. solve_concrete. Qed.

Lemma __init___object_of (rq : request Z) (pr : prepared Z) (ms : meshes Z) :
  check_arguments rq = Ok () →
  prepare (init_attributes rq) = Ok pr →
  _calc_bkg_bkgrms (init_attributes rq) pr = Ok ms →
  __init__ rq = Ok (object_of rq pr ms).
Proof. intros. by apply __init___Ok. Qed.

Lemma coverage_init : __init__ request_coverage = Ok coverage_object.
Proof. apply __init___object_of; vm_compute; reflexivity. Qed.

Lemma coverage_background_Ok :
  background nearest_mesh coverage_object = Ok coverage_background.
Proof. vm_compute. reflexivity. Qed.

Lemma coverage_well_shaped_background :
  well_shaped (nearest_mesh (background_mesh (self_meshes coverage_object))
                 coverage_object).
Proof. vm_compute. split; [reflexivity|repeat constructor]. Qed.

Lemma coverage_well_shaped_background_rms :
  well_shaped (nearest_mesh (background_rms_mesh (self_meshes coverage_object))
                 coverage_object).
Proof. vm_compute. split; [reflexivity|repeat constructor]. Qed.

Lemma gap_prepare : prepare (init_attributes request_gap) = Ok gap_prepared.
Proof. vm_compute. reflexivity. Qed.

Lemma gap_calc :
  _calc_bkg_bkgrms (init_attributes request_gap) gap_prepared = Ok gap_meshes.
Proof. vm_compute. reflexivity. Qed.

Lemma gap_fewer : length (mesh_idx gap_meshes) < p_nboxes gap_prepared.
Proof. vm_compute. repeat constructor. Qed.

Lemma single_init : __init__ request_single = Ok single_object.
Proof. apply __init___object_of; vm_compute; reflexivity. Qed.

Lemma single_constant : constant_on_single_mesh nearest_mesh single_object.
Proof. intros v. reflexivity. Qed.

Lemma clip_prepare : prepare (init_attributes clip_request) = Ok clip_prepared.
Proof. vm_compute. reflexivity. Qed.

Lemma clip_calc :
  _calc_bkg_bkgrms (init_attributes clip_request) clip_prepared = Ok clip_meshes.
Proof. vm_compute. reflexivity. Qed.

Lemma mask_subset_1x38 :
  mask_subset (Some mask_none_1x38) (Some mask_first_1x38).
Proof.
  intros i j Hm. exfalso.
  by apply (pixel_replicate_false 38 i j), (default_eq_true_Some _ Hm).
Qed.

Lemma noclip_final_mesh_index :
  final_mesh_index (set_mask request_1x38_noclip (Some mask_first_1x38))
  = Some [0; 1].
Proof. vm_compute. reflexivity. Qed.

Lemma wrap_3x5_not_aligned :
  ¬ aligned 3 5 (as_pair (arg_box_size request_wrap_3x5)).
Proof. intros [Hy _]. vm_compute in Hy. discriminate. Qed.




(** C2 on the fully masked 3 by 5 image. *)
Lemma all_meshes_excluded_witness :
  valid_request 3 5 request_masked
  ∧ fully_masked 3 5 request_masked
  ∧ __init__ request_masked
    = Err (AllMeshesExcluded (threshold_npixels (F64.of_Z 10) 4) (F64.of_Z 10)).
Proof.
  assert (Hfull : fully_masked 3 5 request_masked).
  { intros i j Hi Hj.
    do 3 (destruct i as [|i]; [do 5 (destruct j as [|j]; [reflexivity|]); lia|]).
    lia. }
  split; [exact valid_request_masked|]. split; [exact Hfull|].
  destruct (all_meshes_excluded 3 5 request_masked valid_request_masked)
    as (_ & _ & H3).
  apply H3; [exact Hfull|]. left. left. reflexivity.
Defined.

(** C3 on the 3 by 5 image and boxes of 2 by 2 pixels. *)
Lemma resize_exact_witness :
  rect 3 5 image_3x5 ∧ mask_rect 3 5 (Some mask_3x5)
  ∧ (∃ ma, pad_or_crop image_3x5 (Some mask_3x5) (2, 2) "pad" = Ok (ma, 2, 3)
           ∧ shape (ma_data ma) = (4, 6))
  ∧ (∃ ma, pad_or_crop image_3x5 (Some mask_3x5) (2, 2) "crop" = Ok (ma, 1, 2)
           ∧ shape (ma_data ma) = (2, 4)).
Proof.
  assert (Hd : rect 3 5 image_3x5) by solve_concrete.
  assert (Hm : mask_rect 3 5 (Some mask_3x5)) by (simpl; solve_concrete).
  destruct (resize_exact image_3x5 (Some mask_3x5) 3 5 2 2 "pad" Hd Hm)
    as ((ma & Hma & Hs & _) & (ma' & Hma' & Hs' & _) & _); try lia.
  split; [exact Hd|]. split; [exact Hm|]. split; eauto.
Defined.

(** C4 on the 4 by 4 image without coverage in its last column. *)
Lemma coverage_fill_witness :
  valid_request 4 4 request_coverage
  ∧ __init__ request_coverage = Ok coverage_object
  ∧ background nearest_mesh coverage_object = Ok coverage_background
  ∧ ∀ i j, i < 4 → j < 4 →
      mask_at (Some coverage_last_column) i j = true →
      pixel coverage_background i j = Some (-1)%Z.
Proof.
  split; [exact valid_request_coverage|]. split; [exact coverage_init|].
  split; [exact coverage_background_Ok|].
  exact (coverage_fill nearest_mesh 4 4 request_coverage coverage_object
           coverage_background valid_request_coverage coverage_init
           coverage_well_shaped_background coverage_well_shaped_background_rms
           (or_introl coverage_background_Ok)).
Defined.

(** C5 on the 4 by 4 image with its first mesh masked. *)
Lemma gap_filling_witness :
  valid_request 4 4 request_gap
  ∧ prepare (init_attributes request_gap) = Ok gap_prepared
  ∧ _calc_bkg_bkgrms (init_attributes request_gap) gap_prepared = Ok gap_meshes
  ∧ length (mesh_idx gap_meshes) < p_nboxes gap_prepared
  ∧ _background_mesh_unfiltered gap_meshes
    = _interpolate_meshes (mesh_yidx gap_meshes) (mesh_xidx gap_meshes) 2 2
        (_bkg1d gap_meshes) default_n_neighbors default_power default_reg
  ∧ pixel (_interpolate_meshes (mesh_yidx gap_meshes) (mesh_xidx gap_meshes) 2 2
             (_bkg1d gap_meshes) default_n_neighbors default_power default_reg)
      1 0 = Some 11%Z.
Proof.
  split; [exact valid_request_gap|]. split; [exact gap_prepare|].
  split; [exact gap_calc|]. split; [exact gap_fewer|].
  destruct (gap_filling 4 4 request_gap gap_prepared gap_meshes
              valid_request_gap gap_prepare gap_calc) as (_ & Hfewer & _ & Hexact).
  split; [exact (proj1 (Hfewer gap_fewer))|].
  exact (proj2 (Hexact (_bkg1d gap_meshes) default_n_neighbors default_power
                  default_reg 1 2 11%Z (Nat.lt_0_succ _) eq_refl eq_refl)).
Defined.

(** C6, as amended, on the 1 by 2 image in one box. *)
Lemma single_mesh_surfaces_witness :
  valid_request 1 2 request_single
  ∧ __init__ request_single = Ok single_object
  ∧ ∃ b r sb sr,
      _bkg1d single_meshes = [b] ∧ _bkgrms1d single_meshes = [r]
      ∧ background nearest_mesh single_object = Ok sb
      ∧ background_rms nearest_mesh single_object = Ok sr
      ∧ pixel sb 0 0 = Some b ∧ pixel sr 0 0 = Some r
      ∧ pixel sb 0 1 = Some (-1)%Z ∧ pixel sr 0 1 = Some (-1)%Z.
Proof.
  split; [exact valid_request_single|]. split; [exact single_init|].
  destruct (single_mesh_surfaces nearest_mesh 1 2 request_single single_object
              valid_request_single eq_refl median_laws_Z (Nat.lt_0_succ _)
              (Nat.lt_0_succ _) single_constant single_init)
    as (b & r & sb & sr & Hb & Hr & Hsb & Hsr & _ & _ & Hpix & _).
  exists b, r, sb, sr.
  split; [exact Hb|]. split; [exact Hr|]. split; [exact Hsb|]. split; [exact Hsr|].
  split; [exact (proj1 (Hpix 0 0 (Nat.lt_0_succ 0) (Nat.lt_0_succ 1)))|].
  split; [exact (proj2 (Hpix 0 0 (Nat.lt_0_succ 0) (Nat.lt_0_succ 1)))|].
  split; [exact (proj1 (Hpix 0 1 (Nat.lt_0_succ 0) (le_n 2)))|].
  exact (proj2 (Hpix 0 1 (Nat.lt_0_succ 0) (le_n 2))).
Defined.

(** C6 fails on that image: its box has the shape of the image, the
    statistics of the single mesh are 5 and 0, and the second pixel of both
    surfaces holds the fill value -1, not the statistic. *)
Lemma single_mesh_counterexample :
  as_pair (arg_box_size request_single) = shape (arg_data request_single)
  ∧ valid_request 1 2 request_single
  ∧ final_surfaces nearest_mesh request_single
    = Some ([5], [0], [[5; -1]], [[0; -1]])%Z.
Proof.
  split; [reflexivity|]. split; [exact valid_request_single|].
  vm_compute. reflexivity.
Qed.

(** C7 on the 1 by 38 image, where sigma clipping drops the first mesh. *)
Lemma two_pass_selection_witness :
  valid_request 1 38 clip_request
  ∧ keeps_length (arg_sigma_clip clip_request)
  ∧ prepare (init_attributes clip_request) = Ok clip_prepared
  ∧ _calc_bkg_bkgrms (init_attributes clip_request) clip_prepared = Ok clip_meshes
  ∧ p_mesh_idx clip_prepared = [0; 1] ∧ mesh_idx clip_meshes = [1]
  ∧ mesh_idx clip_meshes `sublist_of` p_mesh_idx clip_prepared.
Proof.
  split; [exact (valid_request_1x38 _ rect_mask_none_1x38)|].
  split; [exact SIGMA_CLIP_keeps_length|].
  split; [exact clip_prepare|]. split; [exact clip_calc|].
  split; [reflexivity|]. split; [reflexivity|].
  exact (proj1 (proj2 (proj2
    (two_pass_selection 1 38 clip_request clip_prepared clip_meshes
       (valid_request_1x38 _ rect_mask_none_1x38) SIGMA_CLIP_keeps_length
       clip_prepare clip_calc)))).
Defined.

(** C8, as amended, on the 1 by 38 image without sigma clipping. *)
Lemma mask_monotonicity_witness :
  valid_request 1 38 (set_mask request_1x38_noclip (Some mask_none_1x38))
  ∧ valid_request 1 38 (set_mask request_1x38_noclip (Some mask_first_1x38))
  ∧ final_mesh_index (set_mask request_1x38_noclip (Some mask_first_1x38))
    = Some [0; 1]
  ∧ ∃ idx1,
      final_mesh_index (set_mask request_1x38_noclip (Some mask_none_1x38))
        = Some idx1
      ∧ [0; 1] `sublist_of` idx1 ∧ [0; 1] ⊆ idx1.
Proof.
  split; [exact (valid_request_1x38_noclip _ rect_mask_none_1x38)|].
  split; [exact (valid_request_1x38_noclip _ rect_mask_first_1x38)|].
  split; [exact noclip_final_mesh_index|].
  exact (proj2
    (mask_monotonicity 1 38 request_1x38_noclip
       (Some mask_none_1x38) (Some mask_first_1x38)
       (valid_request_1x38_noclip _ rect_mask_none_1x38)
       (valid_request_1x38_noclip _ rect_mask_first_1x38)
       (λ i j _ _, mask_subset_1x38 i j) eq_refl)
    eq_refl [0; 1] noclip_final_mesh_index).
Defined.

(** C8 fails on the 1 by 38 image with the default sigma clipping: with no
    pixel masked, clipping masks the pixels 3 and -3 of the first mesh and
    the mesh is dropped; with the first pixel masked, nothing is clipped and
    the mesh stays. *)
Lemma mask_monotonicity_counterexample :
  valid_request 1 38 (set_mask request_1x38 (Some mask_none_1x38))
  ∧ valid_request 1 38 (set_mask request_1x38 (Some mask_first_1x38))
  ∧ mask_subset (Some mask_none_1x38) (Some mask_first_1x38)
  ∧ final_mesh_index (set_mask request_1x38 (Some mask_none_1x38)) = Some [1]
  ∧ final_mesh_index (set_mask request_1x38 (Some mask_first_1x38)) = Some [0; 1]
  ∧ ¬ ([0; 1] ⊆ [1]).
Proof.
  split; [exact (valid_request_1x38 _ rect_mask_none_1x38)|].
  split; [exact (valid_request_1x38 _ rect_mask_first_1x38)|].
  split; [exact mask_subset_1x38|].
  split; [vm_compute; reflexivity|]. split; [vm_compute; reflexivity|].
  intros Hsub. specialize (Hsub 0 ltac:(left)).
  apply list_elem_of_singleton in Hsub. discriminate.
Qed.

(** C9, as amended, on the 3 by 5 image, which is no whole number of 2
    by 2 boxes. *)
Lemma invalid_edge_method_witness :
  valid_request 3 5 request_wrap_3x5
  ∧ arg_edge_method request_wrap_3x5 ≠ "pad"%string
  ∧ arg_edge_method request_wrap_3x5 ≠ "crop"%string
  ∧ ¬ aligned 3 5 (as_pair (arg_box_size request_wrap_3x5))
  ∧ __init__ request_wrap_3x5 = Err InvalidEdgePolicy.
Proof.
  assert (H1 : arg_edge_method request_wrap_3x5 ≠ "pad"%string) by discriminate.
  assert (H2 : arg_edge_method request_wrap_3x5 ≠ "crop"%string) by discriminate.
  split; [exact valid_request_wrap_3x5|]. split; [exact H1|]. split; [exact H2|].
  split; [exact wrap_3x5_not_aligned|].
  exact (proj2 (proj1
    (invalid_edge_method 3 5 request_wrap_3x5 valid_request_wrap_3x5 H1 H2)
    wrap_3x5_not_aligned)).
Defined.

(** C9 fails on the 4 by 4 image, a whole number of 2 by 2 boxes: the
    edge method ["wrap"] is never looked at and the constructor returns an
    object. *)
Lemma invalid_edge_method_counterexample :
  arg_edge_method request_wrap_4x4 ≠ "pad"%string
  ∧ arg_edge_method request_wrap_4x4 ≠ "crop"%string
  ∧ valid_request 4 4 request_wrap_4x4
  ∧ is_Ok (pad_or_crop image_4x4 None (2, 2) "wrap") = true
  ∧ is_Ok (__init__ request_wrap_4x4) = true.
Proof.
  split; [discriminate|]. split; [discriminate|].
  split; [exact valid_request_wrap_4x4|].
  split; vm_compute; reflexivity.
Qed.



End Witnesses.

(** * Further properties of the class *)

(** ** The mesh table *)

Lemma lookup_concat_uniform {A : Type} (ll : list (list A)) (w y x : nat) :
  Forall (λ l, length l = w) ll → x < w →
  concat ll !! (y * w + x) = ll !! y ≫= (.!! x).
Proof.
  intros Hll Hx. revert y. induction Hll as [|l ll Hl Hll IH]; intros y.
  - by rewrite !lookup_nil.
  - destruct y as [|y]; simpl.
    + rewrite lookup_app_l by lia. done.
    + rewrite lookup_app_r by lia.
      replace (w + y * w + x - length l) with (y * w + x) by lia. apply IH.
Qed.

Lemma lookup_mesh_row {T : Type} (h w : nat) (a : list (list T)) bh bw r c y x :
  rect h w a → r * bh + bh ≤ h → c * bw + bw ≤ w → y < bh → x < bw →
  mesh_row bh bw r c a !! (y * bw + x) = pixel a (r * bh + y) (c * bw + x).
Proof.
  intros [Hh Hw] Hr Hc Hy Hx. unfold mesh_row, pixel.
  rewrite lookup_concat_uniform; [|
    apply Forall_fmap, Forall_take, Forall_drop;
    eapply Forall_impl; [exact Hw|]; intros row Hrow; simpl in *;
    rewrite length_take, length_drop; lia | done].
  rewrite list_lookup_fmap, lookup_take_lt, lookup_drop by done.
  destruct (a !! (r * bh + y)) as [row|]; simpl; [|done].
  by rewrite lookup_take_lt, lookup_drop.
Qed.

Lemma pixel_mesh_table {T : Type} (ny bh nx bw : nat) (a : list (list T)) k m :
  rect (ny * bh) (nx * bw) a → 0 < bw → k < ny * nx → m < bh * bw →
  pixel (mesh_table ny bh nx bw a) k m
  = pixel a (k / nx * bh + m / bw) (k mod nx * bw + m mod bw).
Proof.
  intros Ha Hbw Hk Hm.
  assert (0 < nx) by (destruct nx; lia).
  unfold pixel at 1, mesh_table. rewrite lookup_grid_flat by done. simpl.
  assert (k / nx < ny) by (apply Nat.Div0.div_lt_upper_bound; lia).
  assert (k mod nx < nx) by (apply Nat.mod_upper_bound; lia).
  assert (m / bw < bh) by (apply Nat.Div0.div_lt_upper_bound; lia).
  assert (m mod bw < bw) by (apply Nat.mod_upper_bound; lia).
  rewrite (Nat.div_mod_eq m bw) at 1.
  replace (bw * (m / bw) + m mod bw) with (m / bw * bw + m mod bw) by lia.
  apply (lookup_mesh_row (ny * bh) (nx * bw)); [done|nia|nia|done|done].
Qed.

(** X1. [_prepare_data] cuts the resized image into boxes without loss or
    overlap: in the table [mesh_data] of [nyboxes * nxboxes] rows of
    [box_npixels] entries, entry [m] of row [k] is the pixel
    [(k // nxboxes * bh + m // bw, k % nxboxes * bw + m % bw)] of the
    resized image, and the pixel [(i, j)] of the resized image is entry
    [i % bh * bw + j % bw] of row [i // bh * nxboxes + j // bw]. *)
Theorem mesh_table_layout {T : Type} (ny bh nx bw : nat) (a : list (list T)) :
  rect (ny * bh) (nx * bw) a → 0 < bh → 0 < bw →
  length (mesh_table ny bh nx bw a) = ny * nx
  ∧ Forall (λ row, length row = bh * bw) (mesh_table ny bh nx bw a)
  ∧ (∀ k m, k < ny * nx → m < bh * bw →
       pixel (mesh_table ny bh nx bw a) k m
       = pixel a (pixel_of_mesh bh bw nx k m).1 (pixel_of_mesh bh bw nx k m).2)
  ∧ (∀ i j, i < ny * bh → j < nx * bw →
       (mesh_of_pixel bh bw nx i j).1 < ny * nx
       ∧ (mesh_of_pixel bh bw nx i j).2 < bh * bw
       ∧ pixel_of_mesh bh bw nx (mesh_of_pixel bh bw nx i j).1
                       (mesh_of_pixel bh bw nx i j).2 = (i, j)
       ∧ pixel (mesh_table ny bh nx bw a) (mesh_of_pixel bh bw nx i j).1
               (mesh_of_pixel bh bw nx i j).2
         = pixel a i j).
Proof.
  intros Ha Hbh Hbw.
  split; [apply length_mesh_table|]. split; [by apply mesh_table_rows|].
  split; [intros k m Hk Hm; by apply pixel_mesh_table|].
  intros i j Hi Hj. unfold mesh_of_pixel, pixel_of_mesh. cbn [fst snd].
  assert (0 < nx) by (destruct nx; lia).
  assert (i / bh < ny) by (apply Nat.Div0.div_lt_upper_bound; lia).
  assert (j / bw < nx) by (apply Nat.Div0.div_lt_upper_bound; lia).
  assert (i mod bh < bh) by (apply Nat.mod_upper_bound; lia).
  assert (j mod bw < bw) by (apply Nat.mod_upper_bound; lia).
  assert (Hk : (i / bh * nx + j / bw) / nx = i / bh)
    by (rewrite Nat.div_add_l by lia; rewrite (Nat.div_small (j / bw) nx) by done; lia).
  assert (Hk' : (i / bh * nx + j / bw) mod nx = j / bw)
    by (rewrite Nat.add_comm, Nat.Div0.mod_add; by apply Nat.mod_small).
  assert (Hm : (i mod bh * bw + j mod bw) / bw = i mod bh)
    by (rewrite Nat.div_add_l by lia; rewrite (Nat.div_small (j mod bw) bw) by done; lia).
  assert (Hm' : (i mod bh * bw + j mod bw) mod bw = j mod bw)
    by (rewrite Nat.add_comm, Nat.Div0.mod_add; by apply Nat.mod_small).
  assert (Hij : (i / bh * bh + i mod bh, j / bw * bw + j mod bw) = (i, j)).
  { f_equal; [pose proof (Nat.div_mod_eq i bh)|pose proof (Nat.div_mod_eq j bw)]; lia. }
  split; [nia|]. split; [nia|].
  split; [by rewrite Hk, Hk', Hm, Hm'|].
  rewrite pixel_mesh_table by (done || nia).
  rewrite Hk, Hk', Hm, Hm'. by injection Hij as -> ->.
Qed.

(** ** Masks and resizing *)

Section Extra_resize.
Context {V : Type} `{Numeric V}.
Implicit Types (data : list (list V)).

(** X2. [_combine_masks] returns [None] only when both masks are [None];
    otherwise the combined mask has the shape of the image and masks a
    pixel exactly when [mask] or [coverage_mask] masks it. *)
Theorem combine_masks_or (h w : nat) (m c : option (list (list bool))) :
  mask_rect h w m → mask_rect h w c →
  (_combine_masks m c = None ↔ m = None ∧ c = None)
  ∧ mask_rect h w (_combine_masks m c)
  ∧ (∀ i j, i < h → j < w →
       mask_at (_combine_masks m c) i j = mask_at m i j || mask_at c i j).
Proof.
  intros Hm Hc. split; [|split].
  - destruct m, c; simpl; split; (intros [??] || intros ?); try done.
  - by apply mask_rect_combine.
  - intros i j Hi Hj. by apply (mask_at_combine h w).
Qed.

(** X3. [_pad_data] keeps every pixel of the image, with its mask, and
    fills the rows and columns it adds with the constant [1.e10], all of
    them masked; it adds fewer rows than a box is high and fewer columns
    than a box is wide, and none on an axis that is a multiple of the box
    size already. *)
Theorem pad_data_pixels data (mask : option (list (list bool))) (h w bh bw : nat) :
  rect h w data → mask_rect h w mask → 0 < h → 0 < bh → 0 < bw →
  let ma := _pad_data data mask (bh, bw) (h mod bh) (w mod bw) in
  let h' := length (ma_data ma) in
  let w' := ncols (ma_data ma) in
  rect h' w' (ma_data ma) ∧ rect h' w' (ma_mask ma)
  ∧ h' mod bh = 0 ∧ w' mod bw = 0
  ∧ h ≤ h' < h + bh ∧ w ≤ w' < w + bw
  ∧ (h mod bh = 0 → h' = h) ∧ (w mod bw = 0 → w' = w)
  ∧ (∀ i j, i < h → j < w →
       pixel (ma_data ma) i j = pixel data i j
       ∧ pixel (ma_mask ma) i j = Some (mask_at mask i j))
  ∧ (∀ i j, i < h' → j < w' → ¬ (i < h ∧ j < w) →
       pixel (ma_data ma) i j = Some pad_constant
       ∧ pixel (ma_mask ma) i j = Some true).
Proof.
  intros Hd Hm Hh Hbh Hbw ma h' w'.
  destruct (_pad_data_spec data mask h w bh bw Hd Hm Hh Hbh Hbw)
    as (Hrd & Hrm & Hpd & Hpm).
  fold ma in Hrd, Hrm, Hpd, Hpm.
  pose proof (Nat.mod_upper_bound h bh ltac:(lia)) as Bh.
  pose proof (Nat.mod_upper_bound w bw ltac:(lia)) as Bw.
  assert (Eh : h ≤ ceil_div h bh * bh < h + bh
               ∧ (h mod bh = 0 → ceil_div h bh * bh = h)).
  { rewrite (ceil_div_mul h bh Hbh). destruct (decide (0 < h mod bh)); lia. }
  assert (Ew : w ≤ ceil_div w bw * bw < w + bw
               ∧ (w mod bw = 0 → ceil_div w bw * bw = w)).
  { rewrite (ceil_div_mul w bw Hbw). destruct (decide (0 < w mod bw)); lia. }
  assert (Hh' : h' = ceil_div h bh * bh) by (unfold h'; by destruct Hrd as [-> _]).
  assert (Hw' : w' = ceil_div w bw * bw)
    by (unfold w'; apply (rect_ncols (ceil_div h bh * bh)); [done|lia]).
  rewrite Hh', Hw'.
  split; [done|]. split; [done|].
  split; [apply Nat.Div0.mod_mul|]. split; [apply Nat.Div0.mod_mul|].
  split; [lia|]. split; [lia|]. split; [tauto|]. split; [tauto|].
  split.
  - intros i j Hi Hj.
    assert (i < ceil_div h bh * bh) by lia.
    assert (j < ceil_div w bw * bw) by lia.
    rewrite Hpd, Hpm by done. by rewrite !decide_True by done.
  - intros i j Hi Hj Hout.
    rewrite Hpd, Hpm by done. by rewrite !decide_False by done.
Qed.

(** X4. [_crop_data] keeps the first [nyboxes * bh] rows and
    [nxboxes * bw] columns of the image and of its mask unchanged (without
    a mask, nothing is masked); it drops fewer rows than a box is high and
    fewer columns than a box is wide, and with a box no larger than the
    image the cropped array is not empty. *)
Theorem crop_data_pixels data (mask : option (list (list bool))) (h w bh bw : nat) :
  rect h w data → mask_rect h w mask → 0 < bh → 0 < bw →
  let ma := _crop_data data mask (bh, bw) (h / bh) (w / bw) in
  let h' := h / bh * bh in
  let w' := w / bw * bw in
  rect h' w' (ma_data ma) ∧ rect h' w' (ma_mask ma)
  ∧ h' ≤ h < h' + bh ∧ w' ≤ w < w' + bw
  ∧ (bh ≤ h → 0 < h') ∧ (bw ≤ w → 0 < w')
  ∧ (∀ i j, i < h' → j < w' →
       pixel (ma_data ma) i j = pixel data i j
       ∧ pixel (ma_mask ma) i j = Some (mask_at mask i j)).
Proof.
  intros Hd Hm Hbh Hbw ma h' w'.
  destruct (_crop_data_spec data mask h w bh bw Hd Hm) as (Hrd & Hrm & Hpd & Hpm).
  pose proof (Nat.div_mod_eq h bh) as Eh.
  pose proof (Nat.div_mod_eq w bw) as Ew.
  pose proof (Nat.mod_upper_bound h bh ltac:(lia)) as Bh.
  pose proof (Nat.mod_upper_bound w bw ltac:(lia)) as Bw.
  split; [done|]. split; [done|].
  split; [unfold h'; lia|]. split; [unfold w'; lia|].
  split.
  { intros Hle. unfold h'.
    assert (0 < h / bh) by (apply Nat.div_str_pos; lia). nia. }
  split.
  { intros Hle. unfold w'.
    assert (0 < w / bw) by (apply Nat.div_str_pos; lia). nia. }
  intros i j Hi Hj. split; [by apply Hpd|by apply Hpm].
Qed.

End Extra_resize.

(** ** The range check of [exclude_percentile] and the mesh selection *)

Module F64More.
Import F64 F64Facts.
Local Open Scope Z_scope.

(** A negative integer of at most 53 bits converts to a negative finite
    number. *)
Lemma of_Z_neg p :
  Zpos (digits2_pos p) ≤ prec → ∃ m e, of_Z (Zneg p) = S754_finite true m e.
Proof.
  intros Hd. unfold of_Z, binary_normalize, binary_round.
  assert (Hf : fexp prec emax (Zpos (digits2_pos p) + 0) = Zpos (digits2_pos p) - prec)
    by fexp_lia.
  rewrite Hf. unfold shl_align.
  destruct (prec - Zpos (digits2_pos p)) as [|d|d] eqn:E; try lia.
  - exists p.
    replace (Zpos (digits2_pos p) - prec - 0) with 0 by lia.
    replace (Zpos (digits2_pos p) - prec) with 0 by lia.
    unfold binary_round_aux, shr_fexp. simpl Zdigits2.
    replace (fexp prec emax (Zpos (digits2_pos p) + 0) - 0) with 0 by fexp_lia.
    simpl.
    replace (fexp prec emax (Zpos (digits2_pos p) + 0) - 0) with 0 by fexp_lia.
    simpl. eauto.
  - exists (Pos.iter xO p d).
    replace (Zpos (digits2_pos p) - prec - 0) with (Zneg d) by lia.
    unfold binary_round_aux, shr_fexp. simpl Zdigits2.
    rewrite digits2_pos_iter_xO.
    replace (fexp prec emax (Zpos (digits2_pos p + d) + (Zpos (digits2_pos p) - prec))
             - (Zpos (digits2_pos p) - prec)) with 0 by fexp_lia.
    simpl.
    rewrite digits2_pos_iter_xO.
    replace (fexp prec emax (Zpos (digits2_pos p + d) + (Zpos (digits2_pos p) - prec))
             - (Zpos (digits2_pos p) - prec)) with 0 by fexp_lia.
    simpl.
    destruct (Z.leb_spec (Zpos (digits2_pos p) - prec) (emax - prec));
      [|unfold emax, prec in *; lia].
    eauto.
Qed.

Lemma ltb_of_Z a b :
  0 ≤ a < 2 ^ prec → 0 ≤ b < 2 ^ prec →
  ltb (of_Z a) (of_Z b) = bool_decide (a < b).
Proof.
  intros Ha Hb. unfold ltb, SFltb. rewrite compare_of_Z by assumption.
  destruct (Z.compare_spec a b); case_bool_decide; try reflexivity; lia.
Qed.

Lemma ltb_of_Z_neg z b :
  - 2 ^ prec < z < 0 → 0 ≤ b < 2 ^ prec → ltb (of_Z z) (of_Z b) = true.
Proof.
  intros Hz Hb. destruct z as [|p|p]; try lia.
  destruct (small_pos (Zpos p)) as (q & Eq & Hq); [lia|]. injection Eq as <-.
  destruct (of_Z_neg p Hq) as (m & e & ->).
  destruct (Z.eq_dec b 0) as [->|Nb]; [reflexivity|].
  destruct (small_pos b) as (r & -> & Hr); [lia|].
  destruct (of_Z_pos r Hr) as (mr & -> & _). reflexivity.
Qed.

(** The range test of [__init__] on an integer percentile. *)
Lemma out_of_range_of_Z z :
  - 2 ^ prec < z < 2 ^ prec →
  ltb (of_Z z) (of_Z 0) || ltb (of_Z 100) (of_Z z)
  = bool_decide (z < 0 ∨ 100 < z).
Proof.
  intros Hz. assert (100 < 2 ^ prec) by (unfold prec; lia).
  destruct (Z.lt_ge_cases z 0) as [Hn|Hp].
  - rewrite ltb_of_Z_neg by lia. simpl. by rewrite bool_decide_true by lia.
  - rewrite !ltb_of_Z by lia.
    repeat case_bool_decide; simpl; try reflexivity; lia.
Qed.

(** Nothing is less than or equal to NaN. *)
Lemma leb_nan x : leb x S754_nan = false.
Proof. by destruct x as [[]|[]| |[] m e]. Qed.

Lemma threshold_nan (A : nat) : threshold_npixels S754_nan A = S754_nan.
Proof. reflexivity. Qed.

(** With [exclude_percentile = 0] the threshold is zero. *)
Lemma leb_threshold_0 (A n : nat) :
  (0 < A)%nat → Z.of_nat A < 2 ^ prec → Z.of_nat n < 2 ^ prec →
  leb (of_nat n) (threshold_npixels (of_Z 0) A) = bool_decide (n = 0%nat).
Proof.
  intros HA HA' Hn. unfold threshold_npixels.
  change (of_Z 0) with (S754_zero false). rewrite div_zero_100.
  destruct n as [|n].
  - rewrite bool_decide_true by done. unfold of_nat at 2.
    destruct (small_pos (Z.of_nat A)) as (p & -> & Hp); [lia|].
    destruct (of_Z_pos p Hp) as (m & -> & _). reflexivity.
  - rewrite bool_decide_false by done. unfold of_nat at 1.
    apply leb_pos_zero_mul. lia.
Qed.

End F64More.

Section Extra_select.
Context {V : Type} `{Numeric V}.

(** X5. The two extremes of [exclude_percentile], as the comments of
    [_select_meshes] state them: with [exclude_percentile = 0] the meshes
    selected are exactly those without a masked pixel, and with
    [exclude_percentile = 100] exactly those with at least one pixel that
    is not masked. *)
Theorem select_percentile_extremes (A : nat) (tbl : masked_array V) (i : nat)
    (row : list bool) :
  0 < A → (Z.of_nat A < 2 ^ 53)%Z →
  ma_mask tbl !! i = Some row → length row = A →
  (selected (F64.of_Z 0) A tbl i ↔ count_masked row = 0)
  ∧ (selected (F64.of_Z 100) A tbl i ↔ count_masked row < A)
  ∧ (count_masked row < A ↔ ∃ j, row !! j = Some false).
Proof.
  intros HA HA' Hrow Hlen.
  pose proof (count_masked_le row) as Hle. rewrite Hlen in Hle.
  rewrite !(selected_iff _ _ _ _ _ Hrow), !good_mesh_iff.
  split; [|split].
  - rewrite F64More.leb_threshold_0 by (done || unfold F64.prec; lia).
    rewrite bool_decide_eq_true. lia.
  - rewrite threshold_percentile_100 by done.
    rewrite F64Facts.leb_of_nat by (unfold F64.prec; lia).
    rewrite bool_decide_eq_true. lia.
  - split.
    + intros Hlt. apply count_masked_not_all. lia.
    + intros [j Hj] . destruct (decide (count_masked row = A)) as [E|]; [|lia].
      rewrite <- Hlen in E. apply count_masked_all in E.
      rewrite Forall_lookup in E. by specialize (E j false Hj).
Qed.

End Extra_select.

(** ** The argument checks of [__init__] *)

Section Extra_init.
Context {V : Type} `{Numeric V}.
Implicit Types (rq : request V) (self : attributes V).

Lemma shape_differs_true (m : option (list (list bool))) (data : list (list V)) :
  shape_differs m data = true ↔ wrong_shape m data.
Proof.
  unfold shape_differs, wrong_shape. destruct m as [a|].
  - rewrite bool_decide_eq_true. split; [eauto|]. by intros (? & [= <-] & ?).
  - split; [done|]. by intros (? & ? & ?).
Qed.

Lemma shape_differs_false (m : option (list (list bool))) (data : list (list V)) :
  shape_differs m data = false ↔ ¬ wrong_shape m data.
Proof. rewrite <- shape_differs_true. by destruct (shape_differs m data). Qed.

Lemma out_of_range_true (p : float64) :
  F64.ltb p (F64.of_Z 0) || F64.ltb (F64.of_Z 100) p = true ↔ out_of_range p.
Proof. unfold out_of_range. by rewrite orb_true_iff. Qed.

Lemma check_arguments_cases rq :
  match check_arguments rq with
  | Ok _ => ¬ wrong_shape (arg_mask rq) (arg_data rq)
            ∧ ¬ wrong_shape (arg_coverage_mask rq) (arg_data rq)
            ∧ ¬ out_of_range (arg_exclude_percentile rq)
  | Err e =>
      is_argument_error e = true
      ∧ (e = ShapeMismatch_mask ↔ wrong_shape (arg_mask rq) (arg_data rq))
      ∧ (e = ShapeMismatch_coverage_mask
         ↔ ¬ wrong_shape (arg_mask rq) (arg_data rq)
           ∧ wrong_shape (arg_coverage_mask rq) (arg_data rq))
      ∧ (e = OutOfRange
         ↔ ¬ wrong_shape (arg_mask rq) (arg_data rq)
           ∧ ¬ wrong_shape (arg_coverage_mask rq) (arg_data rq)
           ∧ out_of_range (arg_exclude_percentile rq))
  end.
Proof.
  unfold check_arguments.
  destruct (shape_differs (arg_mask rq) (arg_data rq)) eqn:Em.
  { apply shape_differs_true in Em. split; [done|].
    split; [done|]. split; (split; [done|tauto]). }
  apply shape_differs_false in Em.
  destruct (shape_differs (arg_coverage_mask rq) (arg_data rq)) eqn:Ec.
  { apply shape_differs_true in Ec. split; [done|].
    split; [done|]. split; [done|]. split; [done|tauto]. }
  apply shape_differs_false in Ec.
  destruct (F64.ltb _ _ || F64.ltb _ _) eqn:Ep.
  { apply out_of_range_true in Ep. split; [done|]. split; [done|]. split; [split; [done|tauto]|done]. }
  split; [done|]. split; [done|]. rewrite <- out_of_range_true, Ep. done.
Qed.

Lemma fancy_index_Err {A : Type} (a : list A) (idx : list nat) (e : error) :
  fancy_index a idx = Err e → e = IndexError.
Proof. unfold fancy_index. destruct (mapM _ _); by intros [= <-]. Qed.

Lemma ma_index_Err (tbl : masked_array V) (idx : list nat) (e : error) :
  ma_index tbl idx = Err e → e = IndexError.
Proof.
  unfold ma_index. intros He.
  apply bind_Err in He as [He|(d & _ & He)]; [by eapply fancy_index_Err|].
  apply bind_Err in He as [He|(m & _ & He)]; [by eapply fancy_index_Err|done].
Qed.

Lemma pad_or_crop_Err (data : list (list V)) mask bs (edge_method : string) e :
  pad_or_crop data mask bs edge_method = Err e → e = InvalidEdgePolicy.
Proof. unfold pad_or_crop. repeat case_decide; by intros [= <-]. Qed.

(** The exceptions of [_prepare_data] are not those of the argument
    checks. *)
Lemma prepare_Err self e : prepare self = Err e → is_argument_error e = false.
Proof.
  unfold prepare, _prepare_data. intros He.
  apply bind_Err in He as [He|([[ma ny] nx] & _ & He)].
  { by rewrite (pad_or_crop_Err _ _ _ _ _ He). }
  apply bind_Err in He as [He|(idx & _ & He)].
  { apply _select_meshes_Err in He as [_ ->]. done. }
  apply bind_Err in He as [He|(md & _ & He)]; [|done].
  by rewrite (ma_index_Err _ _ _ He).
Qed.

Lemma _make_2d_array_Err (idx yidx xidx : list nat) ny nx n (values : list V) e :
  _make_2d_array idx yidx xidx ny nx n values = Err e →
  e = ValueError Msg_mesh_idx_shape.
Proof. unfold _make_2d_array. repeat case_decide; by intros [= <-]. Qed.

(** Neither are those of [_calc_bkg_bkgrms]. *)
Lemma _calc_bkg_bkgrms_Err self (pr : prepared V) e :
  _calc_bkg_bkgrms self pr = Err e → is_argument_error e = false.
Proof.
  unfold _calc_bkg_bkgrms. intros He.
  apply bind_Err in He as [He|(idx & _ & He)].
  { apply _select_meshes_Err in He as [_ ->]. done. }
  apply bind_Err in He as [He|(mi & _ & He)].
  { by rewrite (fancy_index_Err _ _ _ He). }
  apply bind_Err in He as [He|(ds & _ & He)].
  { by rewrite (ma_index_Err _ _ _ He). }
  apply bind_Err in He as [He|([yi xi] & _ & He)].
  { unfold unravel_index in He. case_decide; [done|by injection He as <-]. }
  apply bind_Err in He as [He|([b r] & _ & He)]; [|done].
  case_decide; [|done].
  apply bind_Err in He as [He|(b & _ & He)].
  { by rewrite (_make_2d_array_Err _ _ _ _ _ _ _ _ He). }
  apply bind_Err in He as [He|(r & _ & He)]; [|done].
  by rewrite (_make_2d_array_Err _ _ _ _ _ _ _ _ He).
Qed.

Lemma __init___Err rq e :
  __init__ rq = Err e ↔
  check_arguments rq = Err e
  ∨ check_arguments rq = Ok ()
    ∧ (prepare (init_attributes rq) = Err e
       ∨ ∃ pr, prepare (init_attributes rq) = Ok pr
               ∧ _calc_bkg_bkgrms (init_attributes rq) pr = Err e).
Proof.
  unfold __init__.
  change (_prepare_data _ _ _ _ _) with (prepare (init_attributes rq)).
  destruct (check_arguments rq) as [[]|e0]; simpl.
  - destruct (prepare (init_attributes rq)) as [pr|e1]; simpl.
    + destruct (_calc_bkg_bkgrms (init_attributes rq) pr) as [ms|e2] eqn:E; simpl.
      * split; [done|]. intros [?|[_ [?|(pr' & [= <-] & E')]]]; try done.
        by rewrite E in E'.
      * split.
        -- intros [= <-]. right. split; [done|]. right. eauto.
        -- intros [?|[_ [?|(pr' & [= <-] & E')]]]; try done.
           rewrite E in E'. by injection E' as <-.
    + split.
      * intros [= <-]. right. eauto.
      * intros [?|[_ [[= <-]|(pr' & ? & _)]]]; done.
  - split; [intros [= <-]; by left|].
    intros [[= <-]|[? _]]; done.
Qed.

Lemma __init___argument_error rq e :
  is_argument_error e = true →
  __init__ rq = Err e ↔ check_arguments rq = Err e.
Proof.
  intros He. rewrite __init___Err. split; [|by left].
  intros [?|[_ [Hp|(pr & _ & Hc)]]]; [done| |].
  - apply prepare_Err in Hp. congruence.
  - apply _calc_bkg_bkgrms_Err in Hc. congruence.
Qed.

(** X6. The argument checks of [__init__] are made in a fixed order and
    each exception tells its cause: the constructor raises 'mask and data
    must have the same shape' exactly when [mask] is given with another
    shape than [data]; 'coverage_mask and data must have the same shape'
    exactly when that check passes and [coverage_mask] has another shape;
    and the [exclude_percentile] range error exactly when both shape checks
    pass and [exclude_percentile < 0 or exclude_percentile > 100] holds.
    No later step raises one of the three. *)
Theorem argument_errors rq :
  (__init__ rq = Err ShapeMismatch_mask
   ↔ wrong_shape (arg_mask rq) (arg_data rq))
  ∧ (__init__ rq = Err ShapeMismatch_coverage_mask
     ↔ ¬ wrong_shape (arg_mask rq) (arg_data rq)
       ∧ wrong_shape (arg_coverage_mask rq) (arg_data rq))
  ∧ (__init__ rq = Err OutOfRange
     ↔ ¬ wrong_shape (arg_mask rq) (arg_data rq)
       ∧ ¬ wrong_shape (arg_coverage_mask rq) (arg_data rq)
       ∧ out_of_range (arg_exclude_percentile rq)).
Proof.
  pose proof (check_arguments_cases rq) as Hc.
  rewrite !__init___argument_error by done.
  destruct (check_arguments rq) as [[]|e].
  - destruct Hc as (Hm & Hcov & Hp).
    split; [|split]; (split; [done|]); tauto.
  - destruct Hc as (_ & Hm & Hcov & Hp).
    split; [|split].
    + rewrite <- Hm. split; congruence.
    + rewrite <- Hcov. split; congruence.
    + rewrite <- Hp. split; congruence.
Qed.

(** X7. For an integer [exclude_percentile] (of less than 54 bits) and
    masks of the shape of the image, the constructor raises the range
    error exactly when the integer is below 0 or above 100; 0 and 100
    themselves are accepted. *)
Theorem percentile_range_check rq (z : Z) :
  ¬ wrong_shape (arg_mask rq) (arg_data rq) →
  ¬ wrong_shape (arg_coverage_mask rq) (arg_data rq) →
  (- 2 ^ 53 < z < 2 ^ 53)%Z →
  __init__ (set_exclude_percentile rq (F64.of_Z z)) = Err OutOfRange
  ↔ (z < 0 ∨ 100 < z)%Z.
Proof.
  intros Hm Hc Hz.
  rewrite __init___argument_error by done.
  pose proof (check_arguments_cases (set_exclude_percentile rq (F64.of_Z z))) as Hcase.
  assert (Hr : out_of_range (F64.of_Z z) ↔ (z < 0 ∨ 100 < z)%Z).
  { rewrite <- out_of_range_true, F64More.out_of_range_of_Z by done.
    by rewrite bool_decide_eq_true. }
  destruct (check_arguments _) as [[]|e]; simpl in Hcase.
  - split; [done|]. tauto.
  - destruct Hcase as (_ & _ & _ & Hp). rewrite <- Hr.
    split; [intros [= ->]; tauto|]. intros Ho. f_equal. apply Hp. tauto.
Qed.

End Extra_init.

(** ** NaN as [exclude_percentile], and the box size *)

Section Extra_prepare.
Context {V : Type} `{Numeric V}.
Implicit Types (rq : request V) (self : attributes V) (pr : prepared V)
  (ms : meshes V).

Lemma shaped_request_box h w rq :
  shaped_request h w rq →
  let self := init_attributes rq in
  box_size self = ((as_pair (arg_box_size rq)).1 `min` h,
                   (as_pair (arg_box_size rq)).2 `min` w)
  ∧ (0 < (box_size self).1 ≤ h) ∧ (0 < (box_size self).2 ≤ w)
  ∧ rect h w (data self) ∧ mask_rect h w (mask self).
Proof.
  intros (Hd & Hh & Hw & Hm & Hc & Hb1 & Hb2). simpl.
  rewrite (rect_ncols h w (arg_data rq)) by done.
  pose proof Hd as [Hlen _]. rewrite Hlen.
  repeat split; try lia; try apply Hd. by apply mask_rect_combine.
Qed.

Lemma valid_request_shaped h w rq : valid_request h w rq → shaped_request h w rq.
Proof.
  intros (? & ? & ? & ? & ? & ? & ? & _).
  repeat (split; [assumption|]). assumption.
Qed.

Lemma __init___prepare_Err rq e :
  check_arguments rq = Ok () → prepare (init_attributes rq) = Err e →
  __init__ rq = Err e.
Proof. intros Hc Hp. apply __init___Err. right. split; [done|by left]. Qed.

(** X8. A NaN [exclude_percentile] passes the range check of [__init__]
    (both comparisons with NaN are false), and then no mesh passes the
    test [nmasked <= threshold_npixels]: whatever the image and the masks,
    the constructor raises the all-meshes exception, with NaN as threshold
    and as percentile. *)
Theorem nan_exclude_percentile h w rq :
  shaped_request h w rq →
  arg_exclude_percentile rq = S754_nan →
  valid_edge_method rq ∨ aligned h w (box_size (init_attributes rq)) →
  check_arguments rq = Ok ()
  ∧ __init__ rq = Err (AllMeshesExcluded S754_nan S754_nan).
Proof.
  intros Hs Hp Hem.
  destruct (shaped_request_box h w rq Hs) as (_ & Hb1 & Hb2 & Hd & Hm).
  pose proof Hs as (Hd0 & Hh & Hw & Hm0 & Hc0 & _).
  assert (Hcheck : check_arguments rq = Ok ()).
  { unfold check_arguments. rewrite !(shape_differs_rect h w) by done.
    by rewrite Hp. }
  split; [done|]. apply __init___prepare_Err; [done|].
  set (self := init_attributes rq) in *.
  destruct (resize_succeeds (data self) (mask self) h w (box_size self).1
              (box_size self).2 (edge_method self)) as [ma Hres];
    [done|done|lia|lia| |].
  { rewrite <- surjective_pairing. destruct Hem as [[?|?]|?]; auto. }
  rewrite <- surjective_pairing in Hres.
  rewrite (prepare_excluded self ma _ _ Hres).
  - change (exclude_percentile self) with (arg_exclude_percentile rq).
    by rewrite Hp.
  - apply good_meshes_nil, Forall_forall. intros row _.
    change (exclude_percentile self) with (arg_exclude_percentile rq).
    rewrite Hp. unfold good_mesh.
    by rewrite F64More.threshold_nan, F64More.leb_nan.
Qed.

Lemma init_attributes_clamp h w rq :
  shaped_request h w rq →
  init_attributes
    (set_box_size rq (Pair ((as_pair (arg_box_size rq)).1 `min` h)
                           ((as_pair (arg_box_size rq)).2 `min` w)))
  = init_attributes rq.
Proof.
  intros (Hd & Hh & _). unfold init_attributes. cbn [set_box_size arg_data
    arg_box_size arg_mask arg_coverage_mask arg_fill_value arg_exclude_percentile
    arg_filter_size arg_filter_threshold arg_edge_method arg_sigma_clip
    arg_bkg_estimator arg_bkgrms_estimator as_pair fst snd].
  rewrite (rect_ncols h w (arg_data rq)) by done.
  destruct Hd as [-> _].
  by rewrite <- !Nat.min_assoc, !Nat.min_id.
Qed.

(** X9. [__init__] clamps [box_size] to the shape of the image: a box
    size above the image shape gives the object that the clamped box size
    gives.  When the box is at least as large as the image on both axes,
    nothing is resized, whatever [edge_method] is, and there is exactly one
    mesh, of the whole image. *)
Theorem box_size_clamp h w rq :
  shaped_request h w rq →
  let bs := as_pair (arg_box_size rq) in
  __init__ (set_box_size rq (Pair (bs.1 `min` h) (bs.2 `min` w))) = __init__ rq
  ∧ (h ≤ bs.1 → w ≤ bs.2 →
     box_size (init_attributes rq) = (h, w)
     ∧ ∀ obj : Background2D V, __init__ rq = Ok obj →
         ma_data (p_resized (self_prepared obj)) = arg_data rq
         ∧ p_nyboxes (self_prepared obj) = 1
         ∧ p_nxboxes (self_prepared obj) = 1
         ∧ p_nboxes (self_prepared obj) = 1
         ∧ mesh_idx (self_meshes obj) = [0]).
Proof.
  intros Hs bs. split.
  - unfold __init__, bs. rewrite (init_attributes_clamp h w rq Hs). done.
  - intros Hb1 Hb2.
    destruct (shaped_request_box h w rq Hs) as (Hbs & _ & _ & Hd & Hm).
    pose proof Hs as (_ & Hh & Hw & _).
    assert (Hbox : box_size (init_attributes rq) = (h, w)).
    { rewrite Hbs. fold bs. f_equal; lia. }
    split; [done|]. intros obj Hself.
    apply __init___Ok in Hself as (_ & _ & Hpr & Hms).
    set (pr := self_prepared obj) in *. set (ms := self_meshes obj) in *.
    apply prepare_Ok in Hpr as (data_ma & Hres & Hma & Hnb & Hsel & _).
    rewrite Hbox in Hres.
    rewrite (resize_aligned _ _ h w h w) in Hres
      by (done || apply Nat.Div0.mod_same).
    rewrite !Nat.div_same in Hres by lia. injection Hres as Hdm Hny Hnx.
    rewrite <- Hny, <- Hnx in Hnb. simpl in Hnb.
    split; [by rewrite Hma, <- Hdm|]. split; [done|]. split; [done|]. split; [done|].
    apply select_meshes_sorted in Hsel as Hs1.
    apply select_meshes_lt in Hsel as Hlt1. cbn [ma_mask] in Hlt1.
    unfold mesh_mask_table in Hlt1. rewrite length_mesh_table in Hlt1.
    rewrite <- Hny, <- Hnx in Hlt1. simpl in Hlt1.
    apply _calc_bkg_bkgrms_Ok in Hms as (idx & Hsel2 & Hmidx & _).
    pose proof (select_meshes_sorted _ _ _ _ Hsel2) as Hs2.
    apply _select_meshes_Ok in Hsel2 as [_ Hne].
    pose proof (sublist_fancy_index _ _ _ Hmidx Hs2) as Hsub.
    pose proof (StronglySorted_sublist _ _ _ Hsub Hs1) as Hs3.
    assert (Hlt3 : Forall (λ i, i < 1) (mesh_idx ms)).
    { apply Forall_forall. intros i Hi. rewrite Forall_forall in Hlt1.
      apply Hlt1. by eapply elem_of_sublist. }
    pose proof (sorted_below_length _ _ Hs3 Hlt3) as Hle.
    apply fancy_index_length in Hmidx.
    apply (sorted_full _ 1); [done|done|].
    destruct idx; [done|simpl in Hmidx; lia].
Qed.

End Extra_prepare.

(** ** What [_prepare_data] leaves behind *)

Section Extra_prepared.
Context {V : Type} `{Numeric V}.
Implicit Types (rq : request V) (pr : prepared V) (ms : meshes V)
  (data : list (list V)) (mask : option (list (list bool))).

(** A successful resize has the mesh grid of [grid_shape]. *)
Lemma resize_grid_shape data mask (h w bh bw : nat) (edge_method : string) ma ny nx :
  rect h w data → 0 < h → 0 < bh → 0 < bw →
  pad_or_crop data mask (bh, bw) edge_method = Ok (ma, ny, nx) →
  (ny, nx) = grid_shape h w (bh, bw) edge_method
  ∧ (edge_method = "pad"%string ∨ edge_method = "crop"%string
     ∨ aligned h w (bh, bw)).
Proof.
  intros Hd Hh Hbh Hbw Hres.
  assert (Hem : edge_method = "pad"%string ∨ edge_method = "crop"%string
                ∨ aligned h w (bh, bw)).
  { destruct (decide (h mod bh = 0 ∧ w mod bw = 0)) as [?|Hn]; [by right; right|].
    destruct (decide (edge_method = "pad"%string)) as [?|Hp]; [by left|].
    destruct (decide (edge_method = "crop"%string)) as [?|Hc]; [by right; left|].
    by rewrite (resize_invalid data mask h w bh bw) in Hres. }
  split; [|done].
  destruct (resize_succeeds data mask h w bh bw edge_method Hd Hh Hbh Hbw Hem)
    as [ma' Hres'].
  rewrite Hres in Hres'. injection Hres' as _ -> ->.
  by rewrite <- surjective_pairing.
Qed.

(** X10. After a successful [_prepare_data]: the mesh grid has
    [nyboxes] by [nxboxes] meshes with at least one on each axis (rounded
    up with 'pad', down otherwise), the resized data and mask have
    [nyboxes * bh] rows and [nxboxes * bw] columns, [mesh_idx] is not
    empty, strictly increasing and below [nboxes], and row [k] of
    [_mesh_data] holds the pixels and the mask of the mesh [mesh_idx[k]]. *)
Theorem prepare_data_invariants h w rq pr :
  valid_request h w rq →
  let self := init_attributes rq in
  let bh := (box_size self).1 in
  let bw := (box_size self).2 in
  prepare self = Ok pr →
  (p_nyboxes pr, p_nxboxes pr) = grid_shape h w (box_size self) (edge_method self)
  ∧ 0 < p_nyboxes pr ∧ 0 < p_nxboxes pr
  ∧ p_nboxes pr = p_nxboxes pr * p_nyboxes pr
  ∧ rect (p_nyboxes pr * bh) (p_nxboxes pr * bw) (ma_data (p_resized pr))
  ∧ rect (p_nyboxes pr * bh) (p_nxboxes pr * bw) (ma_mask (p_resized pr))
  ∧ p_mesh_idx pr ≠ [] ∧ StronglySorted lt (p_mesh_idx pr)
  ∧ Forall (λ i, i < p_nboxes pr) (p_mesh_idx pr)
  ∧ length (ma_data (p_mesh_data pr)) = length (p_mesh_idx pr)
  ∧ length (ma_mask (p_mesh_data pr)) = length (p_mesh_idx pr)
  ∧ (∀ k i, p_mesh_idx pr !! k = Some i →
       ma_data (p_mesh_data pr) !! k
       = Some (mesh_row bh bw (i / p_nxboxes pr) (i mod p_nxboxes pr)
                 (ma_data (p_resized pr)))
       ∧ ma_mask (p_mesh_data pr) !! k
         = Some (mesh_row bh bw (i / p_nxboxes pr) (i mod p_nxboxes pr)
                   (ma_mask (p_resized pr)))).
Proof.
  intros Hv self bh bw Hpr.
  destruct (valid_request_box h w rq Hv) as (Hb1 & Hb2 & _ & Hd & Hm).
  fold self in Hb1, Hb2, Hd, Hm.
  pose proof Hv as (_ & Hh & Hw & _).
  destruct (prepare_valid h w rq pr Hv Hpr)
    as (Hny & Hnx & Hnb & Hidx & Hne & Hlt & _ & Hld & Hlm & _).
  fold self in Hidx.
  apply prepare_Ok in Hpr as (data_ma & Hres & Hma & _ & _ & Hmi).
  subst data_ma. rewrite (surjective_pairing (box_size self)) in Hres.
  destruct (resize_Ok _ _ h w _ _ _ _ _ _ Hd Hm Hh Hw Hb1 Hb2 Hres)
    as (_ & _ & Hrd & Hrm & _).
  destruct (resize_grid_shape _ _ h w _ _ _ _ _ _ Hd Hh (proj1 Hb1) (proj1 Hb2) Hres)
    as [Hgs _].
  rewrite <- surjective_pairing in Hgs.
  split; [done|]. split; [done|]. split; [done|]. split; [done|].
  split; [done|]. split; [done|]. split; [done|].
  split; [rewrite Hidx; apply good_meshes_sorted|].
  split; [done|]. split; [done|]. split; [done|].
  intros k i Hk.
  apply ma_index_Ok in Hmi as [Hid Him]. cbn [ma_data ma_mask] in Hid, Him.
  assert (Hi : i < p_nyboxes pr * p_nxboxes pr).
  { rewrite Forall_forall in Hlt. rewrite Nat.mul_comm, <- Hnb. apply Hlt.
    by eapply list_elem_of_lookup_2. }
  split.
  - destruct (Forall2_lookup_l _ _ _ _ _ Hid Hk) as (row & -> & Hrow).
    unfold mesh_table in Hrow. rewrite lookup_grid_flat in Hrow by done.
    by rewrite <- Hrow.
  - destruct (Forall2_lookup_l _ _ _ _ _ Him Hk) as (row & -> & Hrow).
    unfold mesh_mask_table, mesh_table in Hrow.
    rewrite lookup_grid_flat in Hrow by done. by rewrite <- Hrow.
Qed.

Lemma valid_request_set_data h w rq data :
  valid_request h w rq → rect h w data → valid_request h w (set_data rq data).
Proof.
  intros (? & ? & ? & ? & ? & ? & ? & ?) Hd.
  repeat (split; [assumption|]). assumption.
Qed.

(** The mask of the resized array depends on the shape of the image only. *)
Lemma resize_mask_any_data data data' mask (h w bh bw : nat)
    (edge_method : string) ma ny nx :
  rect h w data → rect h w data' → mask_rect h w mask → 0 < h → 0 < w →
  0 < bh ≤ h → 0 < bw ≤ w →
  pad_or_crop data mask (bh, bw) edge_method = Ok (ma, ny, nx) →
  ∃ ma', pad_or_crop data' mask (bh, bw) edge_method = Ok (ma', ny, nx)
         ∧ ma_mask ma' = ma_mask ma.
Proof.
  intros Hd Hd' Hm Hh Hw Hbh Hbw Hres.
  destruct (resize_grid_shape _ _ h w _ _ _ _ _ _ Hd Hh (proj1 Hbh) (proj1 Hbw) Hres)
    as [Hgs Hem].
  destruct (resize_succeeds data' mask h w bh bw edge_method Hd' Hh
              (proj1 Hbh) (proj1 Hbw) Hem) as [ma' Hres'].
  rewrite <- Hgs in Hres'. cbn [fst snd] in Hres'.
  exists ma'. split; [done|].
  destruct (resize_Ok _ _ h w _ _ _ _ _ _ Hd Hm Hh Hw Hbh Hbw Hres)
    as (_ & _ & _ & Hrm & Hpm).
  destruct (resize_Ok _ _ h w _ _ _ _ _ _ Hd' Hm Hh Hw Hbh Hbw Hres')
    as (_ & _ & _ & Hrm' & Hpm').
  apply (rect_pixel_ext (ny * bh) (nx * bw)); [done|done|].
  intros i j Hi Hj. by rewrite Hpm, Hpm'.
Qed.

(** X11. The first cut of [_prepare_data] looks at the masks and at the
    shape of the image, never at the pixel values: with other pixel values
    in [data], it succeeds as well, with the same mesh grid, the same
    [mesh_idx] and the same masks in [_mesh_data]. *)
Theorem first_cut_ignores_values h w rq data' pr :
  valid_request h w rq → rect h w data' →
  prepare (init_attributes rq) = Ok pr →
  ∃ pr', prepare (init_attributes (set_data rq data')) = Ok pr'
         ∧ p_nyboxes pr' = p_nyboxes pr ∧ p_nxboxes pr' = p_nxboxes pr
         ∧ p_mesh_idx pr' = p_mesh_idx pr
         ∧ ma_mask (p_resized pr') = ma_mask (p_resized pr)
         ∧ ma_mask (p_mesh_data pr') = ma_mask (p_mesh_data pr).
Proof.
  intros Hv Hd' Hpr.
  pose proof (valid_request_set_data h w rq data' Hv Hd') as Hv'.
  destruct (valid_request_box h w rq Hv) as (Hb1 & Hb2 & _ & Hd & Hm).
  destruct (valid_request_box h w _ Hv') as (_ & _ & _ & Hd1 & _).
  pose proof Hv as (_ & Hh & Hw & _).
  set (self := init_attributes rq) in *.
  set (self' := init_attributes (set_data rq data')) in *.
  assert (Hbs : box_size self' = box_size self).
  { unfold self', self. simpl.
    rewrite (rect_ncols h w (arg_data rq)) by apply Hv.
    rewrite (rect_ncols h w data') by done.
    destruct Hd' as [-> _]. by destruct Hv as [[-> _] _]. }
  apply prepare_Ok in Hpr as (data_ma & Hres & Hma & Hnb & Hsel & Hmi).
  rewrite (surjective_pairing (box_size self)) in Hres.
  destruct (resize_mask_any_data _ data' _ h w _ _ _ _ _ _ Hd Hd' Hm Hh Hw Hb1 Hb2 Hres)
    as (ma' & Hres' & Hmask).
  destruct (resize_Ok _ _ h w _ _ _ _ _ _ Hd' Hm Hh Hw Hb1 Hb2 Hres')
    as (_ & _ & Hrd' & Hrm' & _).
  set (tbl' := {| ma_data := mesh_table (p_nyboxes pr) (box_size self).1
                               (p_nxboxes pr) (box_size self).2 (ma_data ma');
                  ma_mask := mesh_mask_table self ma' (p_nyboxes pr) (p_nxboxes pr) |}).
  assert (Hsel' : _select_meshes (exclude_percentile self)
                    ((box_size self).1 * (box_size self).2) tbl' = Ok (p_mesh_idx pr)).
  { rewrite <- Hsel. unfold _select_meshes, tbl', mesh_mask_table. cbn [ma_mask].
    by rewrite Hmask. }
  destruct (ma_index_succeeds tbl' (p_mesh_idx pr)) as [md' Hmd'].
  { unfold tbl', mesh_mask_table. cbn [ma_data ma_mask].
    by rewrite !length_mesh_table. }
  { by eapply select_meshes_lt. }
  exists {| p_resized := ma'; p_nyboxes := p_nyboxes pr; p_nxboxes := p_nxboxes pr;
            p_nboxes := p_nboxes pr; p_mesh_idx := p_mesh_idx pr;
            p_mesh_data := md' |}.
  cbn [p_resized p_nyboxes p_nxboxes p_nboxes p_mesh_idx p_mesh_data].
  split.
  - apply prepare_Ok. exists ma'.
    cbn [p_resized p_nyboxes p_nxboxes p_nboxes p_mesh_idx p_mesh_data].
    rewrite Hbs. unfold mesh_mask_table. rewrite Hbs.
    rewrite (surjective_pairing (box_size self)) at 1.
    repeat split; done.
  - split; [done|]. split; [done|]. split; [done|].
    split; [by rewrite Hmask, Hma|].
    apply ma_index_Ok in Hmi as [_ Him]. apply ma_index_Ok in Hmd' as [_ Him'].
    unfold tbl', mesh_mask_table in Him'. cbn [ma_mask] in Him, Him'.
    rewrite Hmask in Him'. unfold mesh_mask_table in Him. rewrite <- Hma in Him'.
    apply list_eq. intros k.
    destruct (p_mesh_idx pr !! k) as [i|] eqn:Hk.
    + destruct (Forall2_lookup_l _ _ _ _ _ Him Hk) as (r1 & -> & Hr1).
      destruct (Forall2_lookup_l _ _ _ _ _ Him' Hk) as (r2 & -> & Hr2).
      congruence.
    + apply lookup_ge_None in Hk.
      pose proof (Forall2_length _ _ _ Him) as L1.
      pose proof (Forall2_length _ _ _ Him') as L2.
      rewrite !lookup_ge_None_2 by lia. done.
Qed.

End Extra_prepared.

(** ** The 2D mesh arrays *)

Lemma unravel_lookup (idx : list nat) (ny nx : nat) (yidx xidx : list nat) :
  unravel_index idx ny nx = Ok (yidx, xidx) →
  length yidx = length idx ∧ length xidx = length idx
  ∧ (∀ k i, idx !! k = Some i →
       i < ny * nx ∧ i / nx < ny ∧ i mod nx < nx
       ∧ yidx !! k = Some (i / nx) ∧ xidx !! k = Some (i mod nx)).
Proof.
  intros Hun. apply unravel_index_Ok in Hun as (Hlt & -> & ->).
  rewrite !length_fmap. split; [done|]. split; [done|].
  intros k i Hk. rewrite !list_lookup_fmap, Hk. simpl.
  rewrite Forall_forall in Hlt.
  assert (Hi : i < ny * nx) by (apply Hlt; by eapply list_elem_of_lookup_2).
  assert (0 < nx) by (destruct nx; lia).
  split; [done|].
  split; [apply Nat.Div0.div_lt_upper_bound; lia|].
  split; [apply Nat.mod_upper_bound; lia|done].
Qed.

Lemma divmod_inj (nx i i' : nat) :
  (i / nx, i mod nx) = (i' / nx, i' mod nx) → i = i'.
Proof.
  intros [= Hd Hm].
  rewrite (Nat.div_mod_eq i nx), (Nat.div_mod_eq i' nx). by rewrite Hd, Hm.
Qed.

Section Make2D.
Context {T : Type}.

(** What [_make_2d_array] builds from a strictly increasing [mesh_idx] and
    its coordinates. *)
Lemma _make_2d_array_of_spec (z : T) (idx yidx xidx : list nat) (ny nx n : nat)
    (values : list T) :
  StronglySorted lt idx →
  unravel_index idx ny nx = Ok (yidx, xidx) →
  length values = length idx →
  ∃ a mk,
    _make_2d_array_of z idx yidx xidx ny nx n values = Ok (a, mk)
    ∧ rect ny nx a
    ∧ (∀ k i v, idx !! k = Some i → values !! k = Some v →
         pixel a (i / nx) (i mod nx) = Some v)
    ∧ (∀ i, i < ny * nx → i ∉ idx → pixel a (i / nx) (i mod nx) = Some z)
    ∧ (mk = None ↔ length idx = n)
    ∧ (∀ m, mk = Some m →
         rect ny nx m
         ∧ ∀ i, i < ny * nx →
             pixel m (i / nx) (i mod nx) = Some (bool_decide (i ∉ idx))).
Proof.
  intros Hsorted Hun Hlen.
  destruct (unravel_lookup _ _ _ _ _ Hun) as (Hly & Hlx & Hk).
  pose proof Hun as Hun'. apply unravel_index_Ok in Hun' as (_ & Ey & Ex).
  assert (Hnd : NoDup (zip yidx xidx)).
  { rewrite Ey, Ex. by apply NoDup_unravel, StronglySorted_lt_NoDup. }
  assert (Hin : ∀ {U : Type} (vals : list U) i a,
            length vals = length idx → i < ny * nx → i ∉ idx →
            pixel (scatter yidx xidx vals a) (i / nx) (i mod nx)
            = pixel a (i / nx) (i mod nx)).
  { intros U vals i a Hl Hi Hni. rewrite scatter_foldl.
    apply pixel_foldl_scatter_other.
    rewrite fst_zip by (rewrite length_zip; lia).
    rewrite Ey, Ex, zip_unravel. intros Hel.
    apply list_elem_of_fmap in Hel as (i' & Heq & Hi').
    apply divmod_inj in Heq as ->. done. }
  assert (Hat : ∀ {U : Type} (vals : list U) k i v a,
            rect ny nx a → length vals = length idx →
            idx !! k = Some i → vals !! k = Some v →
            pixel (scatter yidx xidx vals a) (i / nx) (i mod nx) = Some v).
  { intros U vals k i v a Ha Hl Hki Hkv.
    destruct (Hk k i Hki) as (_ & Hy & Hx & Hyk & Hxk).
    apply (pixel_scatter ny nx _ _ _ _ k); (done || lia). }
  unfold _make_2d_array_of. rewrite decide_False by (intros Hne; by apply Hne).
  cbv zeta. set (a := scatter yidx xidx values (full ny nx z)).
  assert (Ha : rect ny nx a) by apply rect_scatter, rect_full.
  assert (Hav : ∀ k i v, idx !! k = Some i → values !! k = Some v →
            pixel a (i / nx) (i mod nx) = Some v).
  { intros k i v Hki Hkv. by apply (Hat _ _ k); [apply rect_full|..]. }
  assert (Haz : ∀ i, i < ny * nx → i ∉ idx → pixel a (i / nx) (i mod nx) = Some z).
  { intros i Hi Hni. unfold a. rewrite Hin by done.
    assert (0 < nx) by (destruct nx; lia).
    apply pixel_full; [apply Nat.Div0.div_lt_upper_bound; lia|].
    apply Nat.mod_upper_bound; lia. }
  case_decide as Hfull.
  - eexists _, None. split; [done|]. split; [done|]. split; [done|].
    split; [done|]. split; [done|]. by intros m.
  - eexists _, (Some _). split; [done|]. split; [done|]. split; [done|].
    split; [done|]. split; [split; [done|]; by intros ?|].
    intros m [= <-]. split; [apply rect_scatter, rect_full|].
    intros i Hi. assert (0 < nx) by (destruct nx; lia).
    destruct (decide (i ∈ idx)) as [Hel|Hni].
    + rewrite bool_decide_false by (intros Hn; by apply Hn).
      apply list_elem_of_lookup in Hel as [k Hki].
      apply (Hat _ _ k); [apply rect_full|by rewrite length_replicate|done|].
      apply lookup_replicate_2. by eapply lookup_lt_Some.
    + rewrite bool_decide_true by done.
      rewrite Hin by (done || by rewrite length_replicate).
      apply pixel_full; [apply Nat.Div0.div_lt_upper_bound; lia|].
      apply Nat.mod_upper_bound; lia.
Qed.

End Make2D.

Section Extra_grid.
Context {V : Type} `{Numeric V}.
Implicit Types (rq : request V) (pr : prepared V) (ms : meshes V).

Lemma _make_2d_array_is_of (idx yidx xidx : list nat) (ny nx n : nat)
    (values : list V) :
  _make_2d_array idx yidx xidx ny nx n values
  = _make_2d_array_of zero idx yidx xidx ny nx n values.
Proof. reflexivity. Qed.


End Extra_grid.

(** ** The median filters *)

Lemma elem_of_concat {A : Type} (ll : list (list A)) (x : A) :
  x ∈ concat ll ↔ ∃ l, l ∈ ll ∧ x ∈ l.
Proof.
  induction ll as [|l ll IH]; simpl.
  - split; [by intros ?%elem_of_nil|]. by intros (l & ?%elem_of_nil & _).
  - rewrite elem_of_app, IH. split.
    + intros [Hx|(l' & Hl' & Hx)].
      * exists l. split; [left|done].
      * exists l'. split; [by right|done].
    + intros (l' & Hl' & Hx). apply elem_of_cons in Hl' as [->|Hl'].
      * by left.
      * right. eauto.
Qed.

Lemma lookup_block {T : Type} (h w : nat) (a : list (list T)) (y0 R x0 C y x : nat) :
  rect h w a → y0 + R ≤ h → x0 + C ≤ w → y < R → x < C →
  concat ((λ row, take C (drop x0 row)) <$> take R (drop y0 a)) !! (y * C + x)
  = pixel a (y0 + y) (x0 + x).
Proof.
  intros [Hh Hw] Hr Hc Hy Hx. unfold pixel.
  rewrite lookup_concat_uniform; [|
    apply Forall_fmap, Forall_take, Forall_drop;
    eapply Forall_impl; [exact Hw|]; intros row Hrow; simpl in *;
    rewrite length_take, length_drop; lia | done].
  rewrite list_lookup_fmap, lookup_take_lt, lookup_drop by done.
  destruct (a !! (y0 + y)) as [row|]; simpl; [|done].
  by rewrite lookup_take_lt, lookup_drop.
Qed.

Lemma length_block {T : Type} (h w : nat) (a : list (list T)) (y0 R x0 C : nat) :
  rect h w a → y0 + R ≤ h → x0 + C ≤ w →
  length (concat ((λ row, take C (drop x0 row)) <$> take R (drop y0 a))) = R * C.
Proof.
  intros [Hh Hw] Hr Hc.
  rewrite (length_concat_uniform _ C).
  - rewrite length_fmap, length_take, length_drop, Nat.min_l by lia. done.
  - apply Forall_fmap, Forall_take, Forall_drop.
    eapply Forall_impl; [exact Hw|]. intros row Hrow. simpl in *.
    rewrite length_take, length_drop. lia.
Qed.

Section Extra_filter.
Context {V : Type} `{Numeric V}.
Implicit Types (data : list (list V)).

Lemma window_block (yfs xfs : nat) data (i j : nat) :
  window (yfs, xfs) data i j
  = concat ((λ row, take ((window_rows xfs (ncols data) j).2
                          - (window_rows xfs (ncols data) j).1)
                         (drop (window_rows xfs (ncols data) j).1 row))
              <$> take ((window_rows yfs (length data) i).2
                        - (window_rows yfs (length data) i).1)
                       (drop (window_rows yfs (length data) i).1 data)).
Proof. reflexivity. Qed.

Lemma window_rows_bounds (fs n i : nat) :
  0 < fs → i < n →
  let r := window_rows fs n i in
  r.1 ≤ i < r.2 ∧ r.2 ≤ n ∧ r.2 - r.1 ≤ fs
  ∧ (fs / 2 ≤ i → i + fs - fs / 2 ≤ n → r.2 - r.1 = fs).
Proof.
  intros Hfs Hi. unfold window_rows. cbn [fst snd].
  assert (fs / 2 < fs) by (apply Nat.div_lt; lia).
  lia.
Qed.

(** X13. The window of the median filters about a pixel of the mesh
    array is the part of the [filter_size] box about the pixel that lies
    inside the array: it holds the pixel itself, so it is never empty, it
    has at most [yfs * xfs] entries and exactly that many away from the
    border, and all its entries are pixels of the box. *)
Theorem filter_window (h w yfs xfs : nat) data (i j : nat) :
  rect h w data → i < h → j < w → 0 < yfs → 0 < xfs →
  let win := window (yfs, xfs) data i j in
  let ys := window_rows yfs h i in
  let xs := window_rows xfs w j in
  length win = (ys.2 - ys.1) * (xs.2 - xs.1)
  ∧ 0 < length win ≤ yfs * xfs
  ∧ (yfs / 2 ≤ i → i + yfs - yfs / 2 ≤ h → xfs / 2 ≤ j → j + xfs - xfs / 2 ≤ w →
     length win = yfs * xfs)
  ∧ (∃ v, pixel data i j = Some v ∧ v ∈ win)
  ∧ (∀ v, v ∈ win ↔ ∃ y x, ys.1 ≤ y < ys.2 ∧ xs.1 ≤ x < xs.2
                           ∧ pixel data y x = Some v).
Proof.
  intros Hd Hi Hj Hyfs Hxfs win ys xs.
  pose proof (window_rows_bounds yfs h i Hyfs Hi) as (By1 & By2 & By3 & By4).
  pose proof (window_rows_bounds xfs w j Hxfs Hj) as (Bx1 & Bx2 & Bx3 & Bx4).
  fold ys in By1, By2, By3, By4. fold xs in Bx1, Bx2, Bx3, Bx4.
  assert (Hwin : win = concat ((λ row, take (xs.2 - xs.1) (drop xs.1 row))
                                 <$> take (ys.2 - ys.1) (drop ys.1 data))).
  { unfold win. rewrite window_block.
    rewrite (rect_ncols h w data Hd) by lia. by destruct Hd as [-> _]. }
  assert (Hlen : length win = (ys.2 - ys.1) * (xs.2 - xs.1))
    by (rewrite Hwin; apply (length_block h w); [done|lia|lia]).
  assert (Hlook : ∀ y x, y < ys.2 - ys.1 → x < xs.2 - xs.1 →
            win !! (y * (xs.2 - xs.1) + x) = pixel data (ys.1 + y) (xs.1 + x)).
  { intros y x Hy Hx. rewrite Hwin. apply (lookup_block h w); (done || lia). }
  split; [done|]. split; [rewrite Hlen; nia|].
  split; [intros ????; rewrite Hlen, By4, Bx4 by done; done|].
  split.
  - destruct (rect_pixel_is_Some h w data i j Hd Hi Hj) as [v Hv].
    exists v. split; [done|].
    apply list_elem_of_lookup. exists ((i - ys.1) * (xs.2 - xs.1) + (j - xs.1)).
    rewrite Hlook by lia. rewrite <- Hv. f_equal; lia.
  - intros v. split.
    + intros Hv. apply list_elem_of_lookup in Hv as [k Hk].
      assert (Hkl : k < (ys.2 - ys.1) * (xs.2 - xs.1))
        by (rewrite <- Hlen; by eapply lookup_lt_Some).
      assert (0 < xs.2 - xs.1) by lia.
      assert (k / (xs.2 - xs.1) < ys.2 - ys.1)
        by (apply Nat.Div0.div_lt_upper_bound; lia).
      assert (k mod (xs.2 - xs.1) < xs.2 - xs.1)
        by (apply Nat.mod_upper_bound; lia).
      rewrite (Nat.div_mod_eq k (xs.2 - xs.1)) in Hk.
      replace ((xs.2 - xs.1) * (k / (xs.2 - xs.1)))
        with (k / (xs.2 - xs.1) * (xs.2 - xs.1)) in Hk by lia.
      rewrite Hlook in Hk by done.
      exists (ys.1 + k / (xs.2 - xs.1)), (xs.1 + k mod (xs.2 - xs.1)).
      split; [lia|]. split; [lia|done].
    + intros (y & x & Hy & Hx & Hv).
      apply list_elem_of_lookup. exists ((y - ys.1) * (xs.2 - xs.1) + (x - xs.1)).
      rewrite Hlook by lia. rewrite <- Hv. f_equal; lia.
Qed.

Lemma rect_generic_filter (h w : nat) (fs : nat * nat) data :
  rect h w data → rect h w (generic_filter_nanmedian fs data).
Proof.
  intros [Hh Hw]. unfold generic_filter_nanmedian. split.
  - by rewrite length_imap.
  - apply Forall_forall. intros row Hrow.
    apply list_elem_of_lookup in Hrow as [i Hi].
    rewrite list_lookup_imap in Hi.
    destruct (data !! i) as [r|] eqn:Hr; [|done]. injection Hi as <-.
    rewrite length_imap. rewrite Forall_forall in Hw. apply Hw.
    by eapply list_elem_of_lookup_2.
Qed.


Lemma rect_foldl_set_pixel {T : Type} (h w : nat) (g : nat → nat → T)
    (l : list (nat * nat)) (a : list (list T)) :
  rect h w a → rect h w (foldl (λ out '(i, j), set_pixel i j (g i j) out) a l).
Proof.
  revert a. induction l as [|[y x] l IH]; intros a Ha; [done|].
  simpl. by apply IH, rect_set_pixel.
Qed.

Lemma pixel_foldl_set_pixel {T : Type} (h w : nat) (g : nat → nat → T)
    (l : list (nat * nat)) (a : list (list T)) (i j : nat) :
  rect h w a → i < h → j < w →
  pixel (foldl (λ out '(i, j), set_pixel i j (g i j) out) a l) i j
  = if decide ((i, j) ∈ l) then Some (g i j) else pixel a i j.
Proof.
  intros Ha Hi Hj. revert a Ha. induction l as [|[y x] l IH]; intros a Ha.
  - cbn [foldl]. rewrite decide_False; [done|]. by intros ?%elem_of_nil.
  - cbn [foldl]. rewrite IH by by apply rect_set_pixel.
    destruct (decide ((i, j) ∈ l)) as [Hin|Hin].
    + rewrite decide_True; [done|by right].
    + destruct (decide ((i, j) = (y, x))) as [[= -> ->]|Hne].
      * rewrite decide_True by left. by apply (pixel_set_pixel_eq h w).
      * rewrite decide_False by (intros [?|?]%elem_of_cons; done).
        by apply pixel_set_pixel_ne.
Qed.

Lemma elem_of_nonzero_gt (mesh : list (list V)) (threshold : V) (i j : nat) :
  (i, j) ∈ nonzero_gt mesh threshold
  ↔ ∃ v, pixel mesh i j = Some v ∧ gt v threshold = true.
Proof.
  unfold nonzero_gt, pixel. rewrite elem_of_concat. split.
  - intros (l & Hl & Hij). apply list_elem_of_lookup in Hl as [k Hk].
    rewrite list_lookup_imap in Hk.
    destruct (mesh !! k) as [row|] eqn:Hrow; [|done]. injection Hk as <-.
    apply list_elem_of_fmap in Hij as (x & [= -> ->] & Hx).
    apply elem_of_np_where in Hx. rewrite list_lookup_fmap in Hx.
    rewrite Hrow. simpl. destruct (row !! x) as [v|]; [|done].
    injection Hx as Hx. eauto.
  - intros (v & Hv & Hgt). destruct (mesh !! i) as [row|] eqn:Hrow; [|done].
    simpl in Hv.
    exists ((λ x, (i, x)) <$> np_where ((λ v, gt v threshold) <$> row)). split.
    + apply list_elem_of_lookup. exists i. by rewrite list_lookup_imap, Hrow.
    + apply list_elem_of_fmap. exists j. split; [done|].
      apply elem_of_np_where. by rewrite list_lookup_fmap, Hv, <- Hgt.
Qed.

Lemma nonzero_gt_in_range (h w : nat) (mesh : list (list V)) (threshold : V) :
  rect h w mesh →
  Forall (λ ij, ij.1 < h ∧ ij.2 < w) (nonzero_gt mesh threshold).
Proof.
  intros [Hh Hw]. apply Forall_forall. intros [i j] Hij. cbn [fst snd].
  apply elem_of_nonzero_gt in Hij as (v & Hv & _). unfold pixel in Hv.
  destruct (mesh !! i) as [row|] eqn:Hrow; [|done]. simpl in Hv.
  split; [rewrite <- Hh; by eapply lookup_lt_Some|].
  rewrite Forall_forall in Hw.
  rewrite <- (Hw row) by by eapply list_elem_of_lookup_2.
  by eapply lookup_lt_Some.
Qed.

Lemma selective_filter_spec_aux (h w : nat) (fs : nat * nat) data
    (indices : list (nat * nat)) :
  rect h w data → Forall (λ ij, ij.1 < h ∧ ij.2 < w) indices →
  rect h w (_selective_filter fs data indices)
  ∧ (∀ i j, (i, j) ∈ indices →
       pixel (_selective_filter fs data indices) i j
       = Some (median (window fs data i j)))
  ∧ (∀ i j, (i, j) ∉ indices →
       pixel (_selective_filter fs data indices) i j = pixel data i j).
Proof.
  intros Hd Hin. unfold _selective_filter. split; [|split].
  - by apply (rect_foldl_set_pixel h w (λ i j, median (window fs data i j))).
  - intros i j Hij. rewrite Forall_forall in Hin.
    destruct (Hin _ Hij) as [Hi Hj]. cbn [fst snd] in Hi, Hj.
    rewrite (pixel_foldl_set_pixel h w (λ i j, median (window fs data i j)))
      by done.
    by rewrite decide_True.
  - intros i j Hij.
    destruct (decide (i < h ∧ j < w)) as [[Hi Hj]|Hout].
    + rewrite (pixel_foldl_set_pixel h w (λ i j, median (window fs data i j)))
        by done.
      by rewrite decide_False.
    + transitivity (@None V).
      * pose proof (rect_foldl_set_pixel h w (λ i j, median (window fs data i j))
                      indices data Hd) as [Hh Hw].
        unfold pixel.
        destruct (_ !! i) as [row|] eqn:Hrow; [|done]. simpl.
        apply lookup_ge_None_2. rewrite Forall_forall in Hw.
        rewrite (Hw row) by by eapply list_elem_of_lookup_2.
        apply lookup_lt_Some in Hrow. lia.
      * symmetry. destruct Hd as [Hh Hw]. unfold pixel.
        destruct (data !! i) as [row|] eqn:Hrow; [|done]. simpl.
        apply lookup_ge_None_2. rewrite Forall_forall in Hw.
        rewrite (Hw row) by by eapply list_elem_of_lookup_2.
        apply lookup_lt_Some in Hrow. lia.
Qed.

(** X14. [_selective_filter] returns an array of the shape of [data] in
    which each pixel of [indices] holds the median of its window in the
    input array, also when pixels of that window are filtered themselves,
    and every other pixel is unchanged. *)
Theorem selective_filter_spec (h w : nat) (fs : nat * nat) data
    (indices : list (nat * nat)) :
  rect h w data → Forall (λ ij, ij.1 < h ∧ ij.2 < w) indices →
  rect h w (_selective_filter fs data indices)
  ∧ (∀ i j, (i, j) ∈ indices →
       pixel (_selective_filter fs data indices) i j
       = Some (median (window fs data i j)))
  ∧ (∀ i j, (i, j) ∉ indices →
       pixel (_selective_filter fs data indices) i j = pixel data i j).
Proof. intros Hd Hin. by apply selective_filter_spec_aux. Qed.


End Extra_filter.

(** ** The constructed object *)

Section Extra_object.
Context {V : Type} `{Numeric V}.
Implicit Types (rq : request V) (obj : Background2D V).

Lemma constructed_facts h w rq obj :
  valid_request h w rq → __init__ rq = Ok obj →
  let pr := self_prepared obj in
  let ms := self_meshes obj in
  prepare (init_attributes rq) = Ok pr
  ∧ _calc_bkg_bkgrms (init_attributes rq) pr = Ok ms
  ∧ 0 < p_nyboxes pr ∧ 0 < p_nxboxes pr
  ∧ p_nboxes pr = p_nxboxes pr * p_nyboxes pr
  ∧ StronglySorted lt (mesh_idx ms)
  ∧ Forall (λ i, i < p_nboxes pr) (mesh_idx ms)
  ∧ mesh_idx ms ≠ []
  ∧ unravel_index (mesh_idx ms) (p_nyboxes pr) (p_nxboxes pr)
    = Ok (mesh_yidx ms, mesh_xidx ms)
  ∧ length (_bkg1d ms) = length (mesh_idx ms)
  ∧ length (_bkgrms1d ms) = length (mesh_idx ms)
  ∧ length (ma_mask (_data_sigclip ms)) = length (mesh_idx ms).
Proof.
  intros Hv Hobj pr ms.
  apply __init___Ok in Hobj as (_ & _ & Hpr & Hms). fold pr in Hpr, Hms.
  fold ms in Hms.
  destruct (prepare_valid h w rq pr Hv Hpr) as (Hny & Hnx & Hnb & _).
  destruct (calc_valid h w rq pr ms Hv Hpr Hms)
    as (_ & Hsorted & Hlt & _ & Hlm & Hlb & Hlr).
  pose proof Hms as Hms'.
  apply _calc_bkg_bkgrms_Ok in Hms' as (idx & Hsel & Hmidx & _ & Hun & _).
  apply _select_meshes_Ok in Hsel as [_ Hne].
  apply fancy_index_length in Hmidx.
  repeat (split; [done|]). split; [|done].
  intros E. rewrite E in Hmidx. by destruct idx.
Qed.

(** X16. In a constructed object, [mesh_yidx] and [mesh_xidx] are the
    row and the column of each mesh of [mesh_idx] in the [nyboxes] by
    [nxboxes] mesh grid: they lie inside the grid, [mesh_idx[k]] equals
    [mesh_yidx[k] * nxboxes + mesh_xidx[k]], and no two meshes share their
    coordinates. *)
Theorem mesh_coordinates h w rq obj :
  valid_request h w rq → __init__ rq = Ok obj →
  let pr := self_prepared obj in
  let ms := self_meshes obj in
  length (mesh_yidx ms) = length (mesh_idx ms)
  ∧ length (mesh_xidx ms) = length (mesh_idx ms)
  ∧ (∀ k y x, mesh_yidx ms !! k = Some y → mesh_xidx ms !! k = Some x →
       y < p_nyboxes pr ∧ x < p_nxboxes pr
       ∧ mesh_idx ms !! k = Some (y * p_nxboxes pr + x))
  ∧ NoDup (zip (mesh_yidx ms) (mesh_xidx ms)).
Proof.
  intros Hv Hobj pr ms.
  destruct (constructed_facts h w rq obj Hv Hobj)
    as (_ & _ & _ & Hnx & _ & Hsorted & _ & _ & Hun & _).
  fold pr in Hnx, Hun. fold ms in Hsorted, Hun.
  destruct (unravel_lookup _ _ _ _ _ Hun) as (Hly & Hlx & Hk).
  split; [done|]. split; [done|]. split.
  - intros k y x Hy Hx.
    destruct (mesh_idx ms !! k) as [i|] eqn:Hi.
    + destruct (Hk k i Hi) as (_ & By & Bx & Hy' & Hx').
      assert (y = i / p_nxboxes pr) as -> by congruence.
      assert (x = i mod p_nxboxes pr) as -> by congruence.
      split; [done|]. split; [done|]. f_equal.
      pose proof (Nat.div_mod_eq i (p_nxboxes pr)). lia.
    + apply lookup_ge_None in Hi. apply lookup_lt_Some in Hy. lia.
  - apply unravel_index_Ok in Hun as (_ & -> & ->).
    by apply NoDup_unravel, StronglySorted_lt_NoDup.
Qed.

Lemma rect__interpolate_meshes (yidx xidx : list nat) (ny nx : nat)
    (values : list V) (n : nat) (power reg : float64) :
  rect ny nx (_interpolate_meshes yidx xidx ny nx values n power reg).
Proof.
  unfold _interpolate_meshes. apply rect_reshape_2d.
  by rewrite length_fmap, length_product_range.
Qed.

Lemma rect__filter_meshes (h w : nat) (fs : nat * nat) (t : option V)
    (bkg rms : list (list V)) :
  rect h w bkg → rect h w rms →
  rect h w (_filter_meshes fs t bkg rms).1
  ∧ rect h w (_filter_meshes fs t bkg rms).2.
Proof.
  intros Hb Hr. destruct t as [t|]; simpl.
  - pose proof (nonzero_gt_in_range h w bkg t Hb) as Hrange.
    split; by apply selective_filter_spec_aux.
  - split; by apply rect_generic_filter.
Qed.

Lemma mesh_arrays_rect h w rq obj :
  valid_request h w rq → __init__ rq = Ok obj →
  let pr := self_prepared obj in
  let ms := self_meshes obj in
  rect (p_nyboxes pr) (p_nxboxes pr) (_background_mesh_unfiltered ms)
  ∧ rect (p_nyboxes pr) (p_nxboxes pr) (_background_rms_mesh_unfiltered ms)
  ∧ rect (p_nyboxes pr) (p_nxboxes pr) (background_mesh ms)
  ∧ rect (p_nyboxes pr) (p_nxboxes pr) (background_rms_mesh ms).
Proof.
  intros Hv Hobj pr ms.
  destruct (constructed_facts h w rq obj Hv Hobj)
    as (_ & Hms & _ & _ & _ & Hsorted & _ & _ & Hun & Hlb & Hlr & _).
  fold pr in Hms, Hun. fold ms in Hms, Hsorted, Hun, Hlb, Hlr.
  apply _calc_bkg_bkgrms_Ok in Hms as (_ & _ & _ & _ & _ & _ & _ & Hgrid & Hfilt).
  assert (Hu : rect (p_nyboxes pr) (p_nxboxes pr) (_background_mesh_unfiltered ms)
               ∧ rect (p_nyboxes pr) (p_nxboxes pr)
                      (_background_rms_mesh_unfiltered ms)).
  { destruct (decide (length (_bkg1d ms) = p_nboxes pr)).
    - destruct Hgrid as [[mk Hb] [mk' Hr]].
      rewrite _make_2d_array_is_of in Hb, Hr.
      destruct (_make_2d_array_of_spec zero _ _ _ _ _ (p_nboxes pr) (_bkg1d ms)
                  Hsorted Hun Hlb) as (a & mka & Ha & Hra & _).
      destruct (_make_2d_array_of_spec zero _ _ _ _ _ (p_nboxes pr) (_bkgrms1d ms)
                  Hsorted Hun Hlr) as (b & mkb & Hb' & Hrb & _).
      rewrite Hb in Ha. rewrite Hr in Hb'.
      injection Ha as -> _. injection Hb' as -> _. done.
    - destruct Hgrid as [-> ->]. split; apply rect__interpolate_meshes. }
  destruct Hu as [Hub Hur]. split; [done|]. split; [done|].
  destruct (decide (filter_size (init_attributes rq) ≠ (1, 1))).
  - pose proof (rect__filter_meshes _ _ (filter_size (init_attributes rq))
                  (filter_threshold (init_attributes rq)) _ _ Hub Hur) as [Hfb Hfr].
    rewrite <- Hfilt in Hfb, Hfr. done.
  - by injection Hfilt as -> ->.
Qed.

(** X17. In a constructed object, the low-resolution background and
    background RMS meshes, before and after the median filter, have
    [nyboxes] rows and [nxboxes] columns, whether they were scattered or
    interpolated; and with [filter_size] 1 (or (1, 1)) the meshes are the
    unfiltered ones. *)
Theorem mesh_array_shapes h w rq obj :
  valid_request h w rq → __init__ rq = Ok obj →
  let pr := self_prepared obj in
  let ms := self_meshes obj in
  rect (p_nyboxes pr) (p_nxboxes pr) (_background_mesh_unfiltered ms)
  ∧ rect (p_nyboxes pr) (p_nxboxes pr) (_background_rms_mesh_unfiltered ms)
  ∧ rect (p_nyboxes pr) (p_nxboxes pr) (background_mesh ms)
  ∧ rect (p_nyboxes pr) (p_nxboxes pr) (background_rms_mesh ms)
  ∧ length (concat (background_mesh ms)) = p_nboxes pr
  ∧ (as_pair (arg_filter_size rq) = (1, 1) →
     background_mesh ms = _background_mesh_unfiltered ms
     ∧ background_rms_mesh ms = _background_rms_mesh_unfiltered ms).
Proof.
  intros Hv Hobj pr ms.
  destruct (mesh_arrays_rect h w rq obj Hv Hobj) as (Hu1 & Hu2 & Hf1 & Hf2).
  fold pr in Hu1, Hu2, Hf1, Hf2. fold ms in Hu1, Hu2, Hf1, Hf2.
  destruct (constructed_facts h w rq obj Hv Hobj) as (_ & Hms & _ & _ & Hnb & _).
  fold pr in Hms, Hnb. fold ms in Hms.
  repeat (split; [done|]). split.
  - destruct Hf1 as [Hl Hr].
    rewrite (length_concat_uniform _ (p_nxboxes pr)) by done. lia.
  - intros Hfs.
    apply _calc_bkg_bkgrms_Ok in Hms as (_ & _ & _ & _ & _ & _ & _ & _ & Hfilt).
    change (filter_size (init_attributes rq)) with (as_pair (arg_filter_size rq))
      in Hfilt.
    rewrite decide_False in Hfilt by (intros Hne; by apply Hne).
    by injection Hfilt as -> ->.
Qed.

End Extra_object.

(** ** The masked mesh arrays of a constructed object *)

Section Extra_masked.
Context {V : Type} `{Numeric V}.
Implicit Types (rq : request V) (obj : Background2D V).

(** Every row of [_data_sigclip] passed the test of [_select_meshes]. *)
Lemma data_sigclip_good h w rq obj k row :
  valid_request h w rq → __init__ rq = Ok obj →
  ma_mask (_data_sigclip (self_meshes obj)) !! k = Some row →
  good_mesh (arg_exclude_percentile rq) (box_npixels (init_attributes rq))
            (count_masked row) = true.
Proof.
  intros Hv Hobj Hrow.
  destruct (constructed_facts h w rq obj Hv Hobj) as (_ & Hms & _).
  apply _calc_bkg_bkgrms_Ok in Hms as (idx & Hsel & _ & Hdsc & _).
  apply ma_index_Ok in Hdsc as [_ Hdm].
  destruct (Forall2_lookup_r _ _ _ _ _ Hdm Hrow) as (i & Hi & Hrow').
  assert (Hin : i ∈ idx) by by eapply list_elem_of_lookup_2.
  apply (elem_of_select_meshes _ _ _ _ _ Hsel) in Hin as (row' & Hr' & Hg).
  by assert (row' = row) as -> by congruence.
Qed.

(** An index below [n] that is missing from a strictly increasing list of
    indices below [n] shows that the list has fewer than [n] entries. *)
Lemma missing_index (l : list nat) (n i : nat) :
  StronglySorted lt l → Forall (λ i, i < n) l → i < n → i ∉ l → length l ≠ n.
Proof.
  intros Hs Hlt Hi Hni Hlen. rewrite (sorted_full l n Hs Hlt Hlen) in Hni.
  apply Hni, elem_of_seq. lia.
Qed.

Lemma make_2d_array_on_spec {T : Type} (z : T) h w rq obj (values : list T) :
  valid_request h w rq → __init__ rq = Ok obj →
  let pr := self_prepared obj in
  let ms := self_meshes obj in
  length values = length (mesh_idx ms) →
  ∃ a mk,
    make_2d_array_on z obj values = Ok (a, mk)
    ∧ rect (p_nyboxes pr) (p_nxboxes pr) a
    ∧ (mk = None ↔ length (mesh_idx ms) = p_nboxes pr)
    ∧ (∀ k i v, mesh_idx ms !! k = Some i → values !! k = Some v →
         pixel a (i / p_nxboxes pr) (i mod p_nxboxes pr) = Some v
         ∧ ∀ m, mk = Some m →
             pixel m (i / p_nxboxes pr) (i mod p_nxboxes pr) = Some false)
    ∧ (∀ i, i < p_nboxes pr → i ∉ mesh_idx ms →
         pixel a (i / p_nxboxes pr) (i mod p_nxboxes pr) = Some z
         ∧ ∃ m, mk = Some m
                ∧ pixel m (i / p_nxboxes pr) (i mod p_nxboxes pr) = Some true).
Proof.
  intros Hv Hobj pr ms Hlen.
  destruct (constructed_facts h w rq obj Hv Hobj)
    as (_ & _ & _ & _ & Hnb & Hsorted & Hlt & _ & Hun & _).
  fold pr in Hnb, Hlt, Hun. fold ms in Hsorted, Hlt, Hun.
  destruct (_make_2d_array_of_spec z _ _ _ _ _ (p_nboxes pr) values
              Hsorted Hun Hlen) as (a & mk & Ha & Hra & Hav & Haz & Hmk & Hm).
  exists a, mk. split; [done|]. split; [done|]. split; [done|]. split.
  - intros k i v Hki Hkv. split; [by eapply Hav|].
    intros m Hmk'. destruct (Hm m Hmk') as [_ Hpm].
    rewrite Hpm.
    + rewrite bool_decide_false; [done|].
      intros Hni. apply Hni. by eapply list_elem_of_lookup_2.
    + rewrite Nat.mul_comm, <- Hnb. rewrite Forall_forall in Hlt.
      apply Hlt. by eapply list_elem_of_lookup_2.
  - intros i Hi Hni. split; [apply Haz; [lia|done]|].
    destruct mk as [m|].
    + exists m. split; [done|]. destruct (Hm m eq_refl) as [_ Hpm].
      rewrite Hpm by lia. by rewrite bool_decide_true.
    + exfalso. apply (missing_index _ _ _ Hsorted Hlt Hi Hni). by apply Hmk.
Qed.

(** X18. The [mesh_nmasked] property never raises.  It is an [nyboxes]
    by [nxboxes] array that holds, at the place of each mesh of [mesh_idx],
    the number of masked pixels of that mesh after sigma clipping; that
    number passes the test of [_select_meshes], so it is never
    [box_npixels].  The array is masked exactly when meshes were excluded,
    and then the excluded meshes hold 0 and are masked. *)
Theorem mesh_nmasked_spec h w rq obj :
  valid_request h w rq → __init__ rq = Ok obj →
  let pr := self_prepared obj in
  let ms := self_meshes obj in
  let nx := p_nxboxes pr in
  ∃ a mk,
    mesh_nmasked obj = Ok (a, mk)
    ∧ rect (p_nyboxes pr) nx a
    ∧ (mk = None ↔ length (mesh_idx ms) = p_nboxes pr)
    ∧ (∀ k i, mesh_idx ms !! k = Some i →
         ∃ row, ma_mask (_data_sigclip ms) !! k = Some row
                ∧ pixel a (i / nx) (i mod nx) = Some (count_masked row)
                ∧ count_masked row ≠ box_npixels (init_attributes rq)
                ∧ F64.leb (F64.of_nat (count_masked row))
                    (threshold_npixels (arg_exclude_percentile rq)
                       (box_npixels (init_attributes rq))) = true
                ∧ ∀ m, mk = Some m → pixel m (i / nx) (i mod nx) = Some false)
    ∧ (∀ i, i < p_nboxes pr → i ∉ mesh_idx ms →
         pixel a (i / nx) (i mod nx) = Some 0
         ∧ ∃ m, mk = Some m ∧ pixel m (i / nx) (i mod nx) = Some true).
Proof.
  intros Hv Hobj pr ms nx.
  destruct (constructed_facts h w rq obj Hv Hobj)
    as (_ & _ & _ & _ & _ & _ & _ & _ & _ & _ & _ & Hlm).
  fold ms in Hlm.
  destruct (make_2d_array_on_spec 0 h w rq obj
              (count_masked <$> ma_mask (_data_sigclip ms)) Hv Hobj)
    as (a & mk & Ha & Hra & Hmk & Hin & Hout);
    [by rewrite length_fmap|].
  exists a, mk. split; [done|]. split; [done|]. split; [done|].
  split; [|done].
  intros k i Hki.
  destruct (lookup_lt_is_Some_2 (ma_mask (_data_sigclip ms)) k) as [row Hrow].
  { rewrite Hlm. by eapply lookup_lt_Some. }
  exists row. split; [done|].
  destruct (Hin k i (count_masked row) Hki) as [Hpa Hpm].
  { by rewrite list_lookup_fmap, Hrow. }
  pose proof (data_sigclip_good h w rq obj k row Hv Hobj Hrow) as Hg.
  apply good_mesh_iff in Hg as [Hle Hne].
  done.
Qed.




(** X21. What the [sigma_clip] attributes of the two estimators hold
    when the constructor is called has no effect on the object: the
    estimators are called with [sigma_clip = None], on the rows of
    [_data_sigclip]. *)
Theorem estimator_sigma_clip_ignored rq (c1 c2 : option (SigmaClip V)) :
  __init__ (set_estimator_clips rq c1 c2) = __init__ rq
  ∧ ∀ obj, __init__ rq = Ok obj →
      let ms := self_meshes obj in
      _bkg1d ms
      = zip_with (estimate (arg_bkg_estimator rq) None)
                 (ma_data (_data_sigclip ms)) (ma_mask (_data_sigclip ms))
      ∧ _bkgrms1d ms
        = zip_with (estimate (arg_bkgrms_estimator rq) None)
                   (ma_data (_data_sigclip ms)) (ma_mask (_data_sigclip ms)).
Proof.
  split; [reflexivity|].
  intros obj Hobj ms. apply __init___Ok in Hobj as (_ & _ & _ & Hms).
  apply _calc_bkg_bkgrms_Ok in Hms as (_ & _ & _ & _ & _ & Hb & Hr & _).
  fold ms in Hb, Hr. by rewrite Hb, Hr.
Qed.

End Extra_masked.

(** ** The surfaces outside the coverage mask *)

Section Extra_surfaces.
Context {V : Type} `{Numeric V}.
Variable interpolator : list (list V) → Background2D V → list (list V).
Implicit Types (rq : request V) (obj : Background2D V).

Lemma fill_coverage_spec h w rq obj (raw : list (list V)) :
  valid_request h w rq → self_attributes obj = init_attributes rq →
  (arg_coverage_mask rq = None → fill_coverage obj raw = Ok raw)
  ∧ (arg_coverage_mask rq ≠ None → shape raw ≠ (h, w) →
     fill_coverage obj raw = Err IndexError)
  ∧ (rect h w raw →
     ∃ s, fill_coverage obj raw = Ok s ∧ rect h w s
          ∧ ∀ i j, i < h → j < w →
              pixel s i j = if mask_at (arg_coverage_mask rq) i j
                            then Some (arg_fill_value rq) else pixel raw i j).
Proof.
  intros (_ & Hh & _ & _ & Hc & _) Hattr. unfold fill_coverage. rewrite Hattr.
  simpl. destruct (arg_coverage_mask rq) as [cm|]; simpl in *.
  - split; [done|]. split.
    + intros _ Hshape. unfold assign_where.
      rewrite (rect_shape h w cm) by done.
      rewrite decide_False; [done|]. by intros Heq.
    + intros Hraw.
      destruct (assign_where_rect h w raw cm (arg_fill_value rq))
        as (s & Hs & Hrect); [done|done|done|].
      exists s. split; [done|]. split; [done|]. intros i j Hi Hj.
      apply (pixel_assign_where h w raw cm (arg_fill_value rq) s i j); try done.
      unfold well_shaped. rewrite (rect_ncols h w raw) by done.
      pose proof Hraw as [Hl _]. by rewrite Hl.
  - split; [done|]. split; [done|]. intros Hraw. exists raw. done.
Qed.

(** X22. The [background] and [background_rms] properties change the
    array of the interpolator only where [coverage_mask] is [True]:
    without a coverage mask they return it as it is, and with one, every
    pixel outside the mask keeps the interpolated value.  When the
    interpolator returns an array of another shape than the image, the
    assignment with the boolean [coverage_mask] raises [IndexError]. *)
Theorem surfaces_outside_coverage h w rq obj :
  valid_request h w rq → __init__ rq = Ok obj →
  ∀ (property : Background2D V → result (list (list V))) (raw : list (list V)),
    property = background interpolator
    ∧ raw = interpolator (background_mesh (self_meshes obj)) obj
    ∨ property = background_rms interpolator
      ∧ raw = interpolator (background_rms_mesh (self_meshes obj)) obj →
    (arg_coverage_mask rq = None → property obj = Ok raw)
    ∧ (arg_coverage_mask rq ≠ None → shape raw ≠ (h, w) →
       property obj = Err IndexError)
    ∧ (rect h w raw →
       ∃ s, property obj = Ok s ∧ rect h w s
            ∧ ∀ i j, i < h → j < w →
                mask_at (arg_coverage_mask rq) i j = false →
                pixel s i j = pixel raw i j).
Proof.
  intros Hv Hobj property raw Hprop.
  apply __init___Ok in Hobj as (_ & Hattr & _).
  destruct (fill_coverage_spec h w rq obj raw Hv Hattr) as (Hnone & Herr & Hok).
  assert (Hp : property obj = fill_coverage obj raw)
    by (destruct Hprop as [[-> ->]|[-> ->]]; reflexivity).
  rewrite Hp. split; [done|]. split; [done|].
  intros Hraw. destruct (Hok Hraw) as (s & Hs & Hrs & Hpix).
  exists s. split; [done|]. split; [done|].
  intros i j Hi Hj Hm. by rewrite Hpix, Hm.
Qed.

End Extra_surfaces.

(** ** Exceptions and the caller's estimators *)

Section Extra_store.
Context {V : Type} `{Numeric V}.
Implicit Types (σ : store V) (args : arguments V) (l : loc).

(** X23. When the constructor raises one of the exceptions of its
    argument checks, no object of the caller has changed.  Every other
    exception ('edge_method must be "pad" or "crop"', all meshes excluded)
    is raised after the two assignments [sigma_clip = None]: both
    estimators of the caller have lost their [sigma_clip] although no
    object was constructed. *)
Theorem exceptions_and_estimators σ args σ' (e : error) :
  construct σ args = Some (σ', Err e) →
  (is_argument_error e = true → σ' = σ)
  ∧ (is_argument_error e = false →
     ∀ l, l = ref_bkg_estimator args ∨ l = ref_bkgrms_estimator args →
       ∃ est, σ !! l = Some (ObjEstimator est)
              ∧ σ' !! l = Some (ObjEstimator (clear_sigma_clip est))).
Proof.
  unfold construct. intros Hc.
  apply bind_Some in Hc as (rq & Hload & Hc).
  destruct (load_request_Some σ args rq Hload) as (_ & _ & _ & _ & He1 & He2).
  pose proof (check_arguments_cases rq) as Hcase.
  destruct (check_arguments rq) as [[]|e0] eqn:Hcheck.
  - injection Hc as <- Hinit.
    assert (Hlate : is_argument_error e = false).
    { apply __init___Err in Hinit as [?|[_ [Hp|(pr & _ & Hp)]]]; [congruence| |].
      - by eapply prepare_Err.
      - by eapply _calc_bkg_bkgrms_Err. }
    split; [congruence|]. intros _ l Hl.
    assert (∃ est, σ !! l = Some (ObjEstimator est)) as [est Hle]
      by (destruct Hl as [-> | ->]; eauto).
    exists est. split; [done|].
    rewrite !lookup_store_sigma_clip_None.
    destruct (decide (ref_bkgrms_estimator args = l)) as [E2|N2].
    + destruct (decide (ref_bkg_estimator args = ref_bkgrms_estimator args))
        as [E1|N1].
      * rewrite He1. simpl. rewrite E1, E2, Hle in He1. by injection He1 as <-.
      * rewrite He2. simpl. rewrite E2, Hle in He2. by injection He2 as <-.
    + destruct Hl as [-> | ->]; [|done]. rewrite decide_True by done.
      by rewrite Hle.
  - injection Hc as <- <-. destruct Hcase as [Harg _].
    split; [done|congruence].
Qed.

End Extra_store.

(** ** The exceptions of a well-formed call *)

Section Extra_exceptions.
Context {V : Type} `{Numeric V}.
Implicit Types (rq : request V) (pr : prepared V).




End Extra_exceptions.

(** ** The further properties on concrete inputs *)

Section Extra_witnesses.
Import Examples Cases.

Lemma rect_image_4x4 : rect 4 4 image_4x4.
Proof. split; [reflexivity|repeat constructor]. Qed.

Lemma rect_image_4x4_boxes : rect (2 * 2) (2 * 2) image_4x4.
Proof. split; [reflexivity|repeat constructor]. Qed.

Lemma rect_image_3x5 : rect 3 5 image_3x5.
Proof. split; [reflexivity|repeat constructor]. Qed.

Lemma rect_mask_3x5 : rect 3 5 mask_3x5.
Proof. split; [reflexivity|repeat constructor]. Qed.

Lemma rect_mask_first_mesh : rect 4 4 mask_first_mesh.
Proof. split; [reflexivity|repeat constructor]. Qed.

Lemma rect_coverage_last_column : rect 4 4 coverage_last_column.
Proof. split; [reflexivity|repeat constructor]. Qed.

Lemma gap_init : __init__ request_gap = Ok gap_object.
Proof. apply __init___object_of; vm_compute; reflexivity. Qed.

Lemma shaped_default_4x4 (p : float64) :
  shaped_request 4 4 (set_exclude_percentile (default_request image_4x4 (Scalar 2)) p).
Proof.
  split; [exact rect_image_4x4|]. simpl. repeat split; try lia.
Qed.

Lemma shaped_big_box : shaped_request 4 4 request_big_box.
Proof.
  split; [exact rect_image_4x4|]. simpl. repeat split; try lia.
Qed.

Lemma no_wrong_shape_None {T : Type} (data : list (list T)) :
  ¬ wrong_shape None data.
Proof. by intros (? & ? & ?). Qed.

Lemma wrong_shape_bad_mask :
  wrong_shape (arg_mask request_bad_mask) (arg_data request_bad_mask).
Proof. exists mask_3x5. split; [reflexivity|]. vm_compute. discriminate. Qed.

Lemma wrap_construct :
  construct caller_store wrap_arguments
  = Some (store_after caller_store wrap_arguments, Err InvalidEdgePolicy).
Proof.
  rewrite construct_store_after by (vm_compute; reflexivity).
  apply (f_equal Some), (f_equal (pair _)). vm_compute. reflexivity.
Qed.

Lemma rect_coverage_raw :
  rect 4 4 (nearest_mesh (background_mesh (self_meshes coverage_object))
              coverage_object).
Proof. vm_compute. split; [reflexivity|repeat constructor]. Qed.


(** X1 on the 4 by 4 image in boxes of 2 by 2 pixels. *)
Lemma mesh_table_layout_witness :
  rect (2 * 2) (2 * 2) image_4x4
  ∧ pixel (mesh_table 2 2 2 2 image_4x4) 3 1 = Some 12%Z.
Proof.
  split; [exact rect_image_4x4_boxes|].
  exact (proj1 (proj2 (proj2
    (mesh_table_layout 2 2 2 2 image_4x4 rect_image_4x4_boxes
       (Nat.lt_0_succ 1) (Nat.lt_0_succ 1))))
    3 1 ltac:(lia) ltac:(lia)).
Defined.

(** X2 on the mask of the first mesh and the coverage mask of the last
    column. *)
Lemma combine_masks_or_witness :
  mask_rect 4 4 (Some mask_first_mesh) ∧ mask_rect 4 4 (Some coverage_last_column)
  ∧ mask_at (_combine_masks (Some mask_first_mesh) (Some coverage_last_column)) 0 3
    = true.
Proof.
  split; [exact rect_mask_first_mesh|]. split; [exact rect_coverage_last_column|].
  exact (proj2 (proj2
    (combine_masks_or 4 4 (Some mask_first_mesh) (Some coverage_last_column)
       rect_mask_first_mesh rect_coverage_last_column))
    0 3 (Nat.lt_0_succ 3) (le_n 4)).
Defined.

(** X3 on the 3 by 5 image and boxes of 2 by 2 pixels. *)
Lemma pad_data_pixels_witness :
  rect 3 5 image_3x5 ∧ mask_rect 3 5 (Some mask_3x5)
  ∧ pixel (ma_data (_pad_data image_3x5 (Some mask_3x5) (2, 2) 1 1)) 3 0
    = Some pad_constant
  ∧ pixel (ma_mask (_pad_data image_3x5 (Some mask_3x5) (2, 2) 1 1)) 3 0
    = Some true.
Proof.
  split; [exact rect_image_3x5|]. split; [exact rect_mask_3x5|].
  destruct (pad_data_pixels image_3x5 (Some mask_3x5) 3 5 2 2
              rect_image_3x5 rect_mask_3x5 (Nat.lt_0_succ 2) (Nat.lt_0_succ 1)
              (Nat.lt_0_succ 1))
    as (_ & _ & _ & _ & _ & _ & _ & _ & _ & Hpad).
  apply (Hpad 3 0); [vm_compute; lia|vm_compute; lia|].
  intros [Hi _]. exact (Nat.lt_irrefl 3 Hi).
Defined.

(** X4 on the 3 by 5 image and boxes of 2 by 2 pixels. *)
Lemma crop_data_pixels_witness :
  rect 3 5 image_3x5 ∧ mask_rect 3 5 (Some mask_3x5)
  ∧ pixel (ma_data (_crop_data image_3x5 (Some mask_3x5) (2, 2) 1 2)) 1 1
    = Some 7%Z
  ∧ pixel (ma_mask (_crop_data image_3x5 (Some mask_3x5) (2, 2) 1 2)) 1 1
    = Some true.
Proof.
  split; [exact rect_image_3x5|]. split; [exact rect_mask_3x5|].
  destruct (crop_data_pixels image_3x5 (Some mask_3x5) 3 5 2 2
              rect_image_3x5 rect_mask_3x5 (Nat.lt_0_succ 1) (Nat.lt_0_succ 1))
    as (_ & _ & _ & _ & _ & _ & Hpix).
  apply (Hpix 1 1); vm_compute; lia.
Defined.

(** X5 on the table of two meshes: the first mesh has one masked pixel. *)
Lemma select_percentile_extremes_witness :
  ma_mask two_meshes !! 0 = Some [false; true; false; false]
  ∧ ¬ selected (F64.of_Z 0) 4 two_meshes 0
  ∧ selected (F64.of_Z 100) 4 two_meshes 0.
Proof.
  split; [reflexivity|].
  destruct (select_percentile_extremes 4 two_meshes 0 [false; true; false; false]
              (Nat.lt_0_succ 3) eq_refl eq_refl eq_refl) as (H0 & H100 & _).
  split.
  - intros Hsel. apply H0 in Hsel. discriminate Hsel.
  - apply H100. vm_compute. lia.
Defined.

(** X6 on the 4 by 4 image with a mask of 3 by 5 pixels. *)
Lemma argument_errors_witness :
  wrong_shape (arg_mask request_bad_mask) (arg_data request_bad_mask)
  ∧ __init__ request_bad_mask = Err ShapeMismatch_mask.
Proof.
  split; [exact wrong_shape_bad_mask|].
  exact (proj2 (proj1 (argument_errors request_bad_mask)) wrong_shape_bad_mask).
Defined.

(** X7 on the defaults with [exclude_percentile=101]. *)
Lemma percentile_range_check_witness :
  __init__ (set_exclude_percentile (default_request image_4x4 (Scalar 2))
              (F64.of_Z 101))
  = Err OutOfRange.
Proof.
  apply (percentile_range_check (default_request image_4x4 (Scalar 2)) 101
           (no_wrong_shape_None _) (no_wrong_shape_None _)).
  - split; reflexivity.
  - right. reflexivity.
Defined.

(** X8 on the defaults with NaN as [exclude_percentile]. *)
Lemma nan_exclude_percentile_witness :
  shaped_request 4 4 request_nan
  ∧ check_arguments request_nan = Ok ()
  ∧ __init__ request_nan = Err (AllMeshesExcluded S754_nan S754_nan).
Proof.
  split; [exact (shaped_default_4x4 S754_nan)|].
  exact (nan_exclude_percentile 4 4 request_nan (shaped_default_4x4 S754_nan)
           eq_refl (or_introl (or_introl eq_refl))).
Defined.

(** X9 on the 4 by 4 image with a box of 7 by 7 pixels. *)
Lemma box_size_clamp_witness :
  shaped_request 4 4 request_big_box
  ∧ __init__ (set_box_size request_big_box (Pair 4 4)) = __init__ request_big_box
  ∧ box_size (init_attributes request_big_box) = (4, 4).
Proof.
  split; [exact shaped_big_box|].
  destruct (box_size_clamp 4 4 request_big_box shaped_big_box) as [Heq Hone].
  split; [exact Heq|].
  apply Hone; simpl; lia.
Defined.

End Extra_witnesses.

Section Extra_witnesses_object.
Import Examples Cases.

Lemma rect_zeros_4x4 : rect 4 4 (full 4 4 0%Z).
Proof. apply rect_full. Qed.

Lemma in_range_origin : Forall (λ ij : nat * nat, ij.1 < 4 ∧ ij.2 < 4) [(0, 0)].
Proof. repeat constructor. Qed.


(** X10 on the 4 by 4 image with its first mesh masked. *)
Lemma prepare_data_invariants_witness :
  valid_request 4 4 request_gap
  ∧ prepare (init_attributes request_gap) = Ok gap_prepared
  ∧ (p_nyboxes gap_prepared, p_nxboxes gap_prepared) = (2, 2)
  ∧ StronglySorted lt (p_mesh_idx gap_prepared).
Proof.
  split; [exact valid_request_gap|]. split; [exact gap_prepare|].
  destruct (prepare_data_invariants 4 4 request_gap gap_prepared
              valid_request_gap gap_prepare)
    as (Hgs & _ & _ & _ & _ & _ & _ & Hsorted & _).
  split; [exact Hgs|exact Hsorted].
Defined.

(** X11 on that image and an image of zeros. *)
Lemma first_cut_ignores_values_witness :
  valid_request 4 4 request_gap ∧ rect 4 4 (full 4 4 0%Z)
  ∧ ∃ pr', prepare (init_attributes (set_data request_gap (full 4 4 0%Z))) = Ok pr'
           ∧ p_mesh_idx pr' = p_mesh_idx gap_prepared.
Proof.
  split; [exact valid_request_gap|]. split; [exact rect_zeros_4x4|].
  destruct (first_cut_ignores_values 4 4 request_gap (full 4 4 0%Z) gap_prepared
              valid_request_gap rect_zeros_4x4 gap_prepare)
    as (pr' & Hpr' & _ & _ & Hidx & _).
  exists pr'. split; [exact Hpr'|exact Hidx].
Defined.


(** X13 at the corner of the 4 by 4 image, with a window of 3 by 3. *)
Lemma filter_window_witness :
  rect 4 4 image_4x4 ∧ length (window (3, 3) image_4x4 0 0) = 4.
Proof.
  split; [exact rect_image_4x4|].
  exact (proj1 (filter_window 4 4 3 3 image_4x4 0 0 rect_image_4x4
                  ltac:(lia) ltac:(lia) ltac:(lia) ltac:(lia))).
Defined.

(** X14 on the 4 by 4 image, filtered at its first pixel only. *)
Lemma selective_filter_spec_witness :
  rect 4 4 image_4x4
  ∧ Forall (λ ij : nat * nat, ij.1 < 4 ∧ ij.2 < 4) [(0, 0)]
  ∧ pixel (_selective_filter (3, 3) image_4x4 [(0, 0)]) 0 0 = Some 3%Z
  ∧ pixel (_selective_filter (3, 3) image_4x4 [(0, 0)]) 0 1 = Some 2%Z.
Proof.
  split; [exact rect_image_4x4|]. split; [exact in_range_origin|].
  destruct (selective_filter_spec 4 4 (3, 3) image_4x4 [(0, 0)]
              rect_image_4x4 in_range_origin) as (_ & Hin & Hout).
  split.
  - apply (Hin 0 0). left.
  - apply (Hout 0 1). intros Hel.
    apply elem_of_cons in Hel as [Hel|Hel]; [discriminate Hel|].
    by apply elem_of_nil in Hel.
Defined.


(** X16 on the object of the 4 by 4 image with its first mesh masked. *)
Lemma mesh_coordinates_witness :
  valid_request 4 4 request_gap ∧ __init__ request_gap = Ok gap_object
  ∧ NoDup (zip (mesh_yidx gap_meshes) (mesh_xidx gap_meshes)).
Proof.
  split; [exact valid_request_gap|]. split; [exact gap_init|].
  exact (proj2 (proj2 (proj2
    (mesh_coordinates 4 4 request_gap gap_object valid_request_gap gap_init)))).
Defined.

(** X17 on that object. *)
Lemma mesh_array_shapes_witness :
  valid_request 4 4 request_gap ∧ __init__ request_gap = Ok gap_object
  ∧ rect 2 2 (background_mesh gap_meshes)
  ∧ rect 2 2 (background_rms_mesh gap_meshes).
Proof.
  split; [exact valid_request_gap|]. split; [exact gap_init|].
  destruct (mesh_array_shapes 4 4 request_gap gap_object valid_request_gap gap_init)
    as (_ & _ & Hb & Hr & _).
  split; [exact Hb|exact Hr].
Defined.

(** X18 on that object. *)
Lemma mesh_nmasked_spec_witness :
  valid_request 4 4 request_gap ∧ __init__ request_gap = Ok gap_object
  ∧ ∃ a mk, mesh_nmasked gap_object = Ok (a, mk)
            ∧ pixel a 0 0 = Some 0
            ∧ ∃ m, mk = Some m ∧ pixel m 0 0 = Some true.
Proof.
  split; [exact valid_request_gap|]. split; [exact gap_init|].
  destruct (mesh_nmasked_spec 4 4 request_gap gap_object valid_request_gap gap_init)
    as (a & mk & Ha & _ & _ & _ & Hout).
  exists a, mk. split; [exact Ha|].
  apply (Hout 0); [vm_compute; lia|].
  intros Hel. apply elem_of_cons in Hel as [Hel|Hel]; [discriminate Hel|].
  apply elem_of_cons in Hel as [Hel|Hel]; [discriminate Hel|].
  apply elem_of_cons in Hel as [Hel|Hel]; [discriminate Hel|].
  by apply elem_of_nil in Hel.
Defined.



(** X21 on the request of the 4 by 4 image, with a sigma clipper on both
    estimators. *)
Lemma estimator_sigma_clip_ignored_witness :
  __init__ (set_estimator_clips request_gap (Some SIGMA_CLIP) (Some SIGMA_CLIP))
  = __init__ request_gap.
Proof.
  exact (proj1 (estimator_sigma_clip_ignored request_gap (Some SIGMA_CLIP)
                  (Some SIGMA_CLIP))).
Defined.

(** X22 on the 4 by 4 image without coverage in its last column. *)
Lemma surfaces_outside_coverage_witness :
  valid_request 4 4 request_coverage
  ∧ __init__ request_coverage = Ok coverage_object
  ∧ ∃ s, background nearest_mesh coverage_object = Ok s
         ∧ pixel s 0 0
           = pixel (nearest_mesh (background_mesh (self_meshes coverage_object))
                      coverage_object) 0 0.
Proof.
  split; [exact valid_request_coverage|]. split; [exact coverage_init|].
  destruct (surfaces_outside_coverage nearest_mesh 4 4 request_coverage
              coverage_object valid_request_coverage coverage_init
              (background nearest_mesh) _ (or_introl (conj eq_refl eq_refl)))
    as (_ & _ & Hok).
  destruct (Hok rect_coverage_raw) as (s & Hs & _ & Hpix).
  exists s. split; [exact Hs|].
  apply Hpix; [lia|lia|reflexivity].
Defined.

(** X23 on a call that fails in [_prepare_data]. *)
Lemma exceptions_and_estimators_witness :
  construct caller_store wrap_arguments
  = Some (store_after caller_store wrap_arguments, Err InvalidEdgePolicy)
  ∧ ∃ est, caller_store !! 3%positive = Some (ObjEstimator est)
           ∧ store_after caller_store wrap_arguments !! 3%positive
             = Some (ObjEstimator (clear_sigma_clip est)).
Proof.
  split; [exact wrap_construct|].
  exact (proj2 (exceptions_and_estimators caller_store wrap_arguments _ _
                  wrap_construct) eq_refl 3%positive (or_introl eq_refl)).
Defined.


End Extra_witnesses_object.
